(** * Heat-spread relaxation: the MPI/OpenACC variants of [main]

    A shallow embedding of [src/c/gpu.c] (and of its sibling variant, which
    differs in the start-up barrier and in the gather primitive only).

    - A [double] is a binary64 primitive float; [a != b] is [negb (a =? b)].
    - A two-dimensional array [double t[R][C]] is a list of rows; [cell]
      reads and [store] writes one element.  Reading or writing outside the
      array is undefined in C; here a read outside yields [0] and a write
      outside does nothing, and every statement below keeps its indices
      inside the array.
    - Loop counters are [int]s that run over [1..ROWS_PER_MPI_PROCESS] and
      [0..COLUMNS_PER_MPI_PROCESS-1]; they are natural numbers here.
    - The constants of [util.h] ([ROWS_PER_MPI_PROCESS],
      [COLUMNS_PER_MPI_PROCESS], [MAX_TEMPERATURE], [SNAPSHOT_INTERVAL]) and
      [MPI_PROC_NULL] of [mpi.h] are parameters of the development; the
      grid has [COLUMNS_PER_MPI_PROCESS] columns on every rank and on the
      master.
    - The arrays that [main] declares without an initialiser hold
      indeterminate values: their contents at the declaration are an input.
    - The OpenACC directives move rows between the host and the device
      copies of the two slabs at the points where the other side reads
      them; there is one copy of each slab here.  The three kernels run on
      asynchronous queues that are joined before subtask 3.
    - A synchronous send completes together with the receive it matches
      (a rendezvous); the processes are a list of memories, one per rank,
      with the index of the next call of each.
    - The reduction of [my_temperature_change] and the broadcast of the
      elapsed time are left out.  The clock decides when the loop ends; the
      number of passes is a parameter. *)

From Stdlib Require Import Floats ZArith Lia.
From stdpp Require Import base numbers option list relations functions.

Open Scope nat_scope.

Abbreviation double := PrimFloat.float.

(** ** Arrays of doubles *)

Abbreviation slab := (list (list PrimFloat.float)).

(** [t[i][j]] *)
Definition cell (t : slab) (i j : nat) : double :=
  match t !! i with
  | Some r => match r !! j with Some v => v | None => 0%float end
  | None => 0%float
  end.

(** [t[i][j] = v] *)
Definition store (t : slab) (i j : nat) (v : double) : slab :=
  alter (fun r => <[j := v]> r) i t.

(** [&t[i][0]], read as a block of one row. *)
Definition row (t : slab) (i : nat) : list double :=
  match t !! i with Some r => r | None => [] end.

(** A slab of [n] rows and [c] columns. *)
Definition slab_shape (n c : nat) (t : slab) : Prop :=
  length t = n ∧ Forall (fun r => length r = c) t.

(** [a != b] on doubles. *)
Definition fne (a b : double) : bool := negb (PrimFloat.eqb a b).

(** [fmax] of [math.h]: a NaN argument is treated as missing data. *)
Definition fmax (a b : double) : double :=
  if PrimFloat.is_nan a then b
  else if PrimFloat.is_nan b then a
  else if PrimFloat.ltb a b then b else a.

(** [fabs] of [math.h]. *)
Definition fabs (a : double) : double := PrimFloat.abs a.

(** [&t[i][0]] with a count of [n] rows: the rows [i..i+n-1] as one
    contiguous block. *)
Definition rows_from (t : slab) (i n : nat) : slab := take n (drop i t).

(** An [int]: 32 bits, two's complement. *)
Definition INT_MAX : Z := 2147483647.
Definition int_wrap (z : Z) : Z := ((z + 2 ^ 31) mod 2 ^ 32 - 2 ^ 31)%Z.

(** A loop over the indices [l] whose body is one assignment to the cell
    [(fi k, fj k)], under a test [g] of the cell's present value: the common
    form of the loops of [main]. *)
Definition store_if (g : double → bool) (t : slab) (i j : nat) (v : double) : slab :=
  if g (cell t i j) then store t i j v else t.

Definition sweep {K} (g : double → bool) (fi fj : K → nat) (fv : K → double)
    (t : slab) (l : list K) : slab :=
  foldl (fun t k => store_if g t (fi k) (fj k) (fv k)) t l.

(** ** The memory of one MPI process *)

Record process := Process {
  temperatures : slab;
  temperatures_last : slab;
  all_temperatures : slab;
  snapshot : slab;
  my_temperature_change : double;
  iteration_count : Z
}.

Definition with_temperatures (t : slab) (p : process) : process :=
  Process t (temperatures_last p) (all_temperatures p) (snapshot p)
          (my_temperature_change p) (iteration_count p).

Definition with_temperatures_last (t : slab) (p : process) : process :=
  Process (temperatures p) t (all_temperatures p) (snapshot p)
          (my_temperature_change p) (iteration_count p).

Definition with_snapshot (t : slab) (p : process) : process :=
  Process (temperatures p) (temperatures_last p) (all_temperatures p) t
          (my_temperature_change p) (iteration_count p).

Definition with_my_temperature_change (d : double) (p : process) : process :=
  Process (temperatures p) (temperatures_last p) (all_temperatures p) (snapshot p)
          d (iteration_count p).

Definition with_iteration_count (n : Z) (p : process) : process :=
  Process (temperatures p) (temperatures_last p) (all_temperatures p) (snapshot p)
          (my_temperature_change p) n.

(** ** The calls of [main] that involve other processes

    A message is a block of rows.  Every receive of [main] lands in
    [temperatures_last], at a first row; every send has tag [0] and every
    receive accepts [MPI_ANY_TAG], so tags never keep a pair from matching. *)
Inductive call :=
  | MPI_Ssend (buf : process → slab) (dest : Z)
  | MPI_Recv (first_row : nat) (source : Z)
  | MPI_Barrier
  | Work (f : process → process).

(** One rank while it runs: its memory and the index of its next call. *)
Record rank_state := RankState { mem : process; pc : nat }.

Definition advance (s : rank_state) : rank_state := RankState (mem s) (S (pc s)).

Definition launch (ps : list process) : list rank_state :=
  (fun p => RankState p 0) <$> ps.

(** ** Sample data

    The end-to-end scenario of the specification: a grid of four rows and
    four columns with one fixed source at [(2, 2)], on two ranks of two rows
    each; and a grid of three rows of two columns on three ranks.  The
    arrays that [main] declares without an initialiser start with [7.0] in
    every cell. *)
Module Sample.

Definition o : double := 0%float.
Definition hot : double := 50%float.
Definition junk : double := 7%float.

Definition grid : slab :=
  [ [o; o; o;   o];
    [o; o; o;   o];
    [o; o; hot; o];
    [o; o; o;   o] ].

Definition stack : slab :=
  [ [junk; junk; junk; junk];
    [junk; junk; junk; junk];
    [junk; junk; junk; junk];
    [junk; junk; junk; junk] ].

Definition master : process := Process stack stack grid stack o 0.
Definition worker : process := Process stack stack stack stack o 0.
Definition two_ranks : list process := [master; worker].

(** The same two ranks on a stack that happens to hold [0.0] everywhere. *)
Definition zeros : slab :=
  [ [o; o; o; o];
    [o; o; o; o];
    [o; o; o; o];
    [o; o; o; o] ].

Definition calm_master : process := Process zeros zeros grid zeros o 0.
Definition calm_worker : process := Process zeros zeros zeros zeros o 0.
Definition calm_ranks : list process := [calm_master; calm_worker].

Definition grid3 : slab := [ [hot; o]; [o; o]; [o; o] ].
Definition stack3 : slab := [ [junk; junk]; [junk; junk]; [junk; junk] ].
Definition master3 : process := Process stack3 stack3 grid3 stack3 o 0.
Definition worker3 : process := Process stack3 stack3 stack3 stack3 o 0.
Definition three_ranks : list process := [master3; worker3; worker3].

(** A settled grid of four rows, held by one rank and by two. *)
Definition warm : double := 20%float.
Definition ghost_row : list double := [junk; junk; junk; junk].
Definition tall : slab :=
  [ ghost_row;
    [o; warm; o;   o];
    [o; o;    hot; o];
    [o; o;    o;   warm];
    [warm; o; o;   o];
    ghost_row ].
Definition upper : slab :=
  [ ghost_row; [o; warm; o; o]; [o; o; hot; o]; ghost_row ].
Definition lower : slab :=
  [ ghost_row; [o; o; o; warm]; [warm; o; o; o]; ghost_row ].
Definition one_rank : process := Process tall tall stack stack o 0.
Definition halves : list process :=
  [ Process upper upper stack stack o 0; Process lower lower stack stack o 0 ].

(** One rank that owns the four rows of [grid]. *)
Definition tall_stack : slab :=
  [ ghost_row; ghost_row; ghost_row; ghost_row; ghost_row; ghost_row ].
Definition alone : process := Process tall_stack tall_stack grid stack o 0.

(** The sample on a stack that holds [200.0]: the arrays that [main]
    declares without an initialiser start with that value. *)
Definition scalding : double := 200%float.
Definition hot_stack : slab :=
  [ [scalding; scalding; scalding; scalding];
    [scalding; scalding; scalding; scalding];
    [scalding; scalding; scalding; scalding];
    [scalding; scalding; scalding; scalding] ].
Definition heated_master : process :=
  Process hot_stack hot_stack grid hot_stack o 0.
Definition heated_worker : process :=
  Process hot_stack hot_stack hot_stack hot_stack o 0.
Definition heated_ranks : list process := [heated_master; heated_worker].

End Sample.

Section Heat.

Variable ROWS_PER_MPI_PROCESS : nat.
Variable COLUMNS_PER_MPI_PROCESS : nat.
Variable MAX_TEMPERATURE : double.
Variable SNAPSHOT_INTERVAL : Z.
Variable MPI_PROC_NULL : Z.

(** ** Ranks and neighbours *)

Definition MASTER_PROCESS_RANK : Z := 0.
Definition FIRST_PROCESS_RANK : Z := 0.
Definition LAST_PROCESS_RANK (comm_size : Z) : Z := int_wrap (comm_size - 1).

Definition up_neighbour_rank (my_rank : Z) : Z :=
  if (my_rank =? FIRST_PROCESS_RANK)%Z then MPI_PROC_NULL
  else int_wrap (my_rank - 1).

Definition down_neighbour_rank (comm_size my_rank : Z) : Z :=
  if (my_rank =? LAST_PROCESS_RANK comm_size)%Z then MPI_PROC_NULL
  else int_wrap (my_rank + 1).

(** [i * ROWS_PER_MPI_PROCESS], the first global row of the [i]-th chunk;
    the chunk is [ROWS_PER_MPI_PROCESS] rows long. *)
Definition chunk_first_row (i : Z) : Z :=
  int_wrap (i * Z.of_nat ROWS_PER_MPI_PROCESS).

(** ** The stencil kernels *)

(** The three right-hand sides, over [temperatures_last]. *)
Definition left_value (temperatures_last : slab) (i : nat) : double :=
  PrimFloat.div
    (PrimFloat.add
       (PrimFloat.add (cell temperatures_last (i - 1) 0)
                      (cell temperatures_last (i + 1) 0))
       (cell temperatures_last i 1))
    3%float.

Definition middle_value (temperatures_last : slab) (i j : nat) : double :=
  PrimFloat.mul 0.25%float
    (PrimFloat.add
       (PrimFloat.add
          (PrimFloat.add (cell temperatures_last (i - 1) j)
                         (cell temperatures_last (i + 1) j))
          (cell temperatures_last i (j - 1)))
       (cell temperatures_last i (j + 1))).

Definition right_value (temperatures_last : slab) (i : nat) : double :=
  PrimFloat.div
    (PrimFloat.add
       (PrimFloat.add
          (cell temperatures_last (i - 1) (COLUMNS_PER_MPI_PROCESS - 1))
          (cell temperatures_last (i + 1) (COLUMNS_PER_MPI_PROCESS - 1)))
       (cell temperatures_last i (COLUMNS_PER_MPI_PROCESS - 2)))
    3%float.

(** The test [x != MAX_TEMPERATURE]. *)
Definition not_max (x : double) : bool := fne x MAX_TEMPERATURE.

(** [if(temperatures[i][j] != MAX_TEMPERATURE) temperatures[i][j] = v;] *)
Definition guarded_store (temperatures : slab) (i j : nat) (v : double) : slab :=
  if fne (cell temperatures i j) MAX_TEMPERATURE
  then store temperatures i j v
  else temperatures.

(** First kernel: column [0] of the rows [1..ROWS_PER_MPI_PROCESS]. *)
Definition left_kernel (temperatures temperatures_last : slab) : slab :=
  foldl (fun t i => guarded_store t i 0 (left_value temperatures_last i))
        temperatures (seq 1 ROWS_PER_MPI_PROCESS).

(** Second kernel: columns [1..COLUMNS_PER_MPI_PROCESS-2]. *)
Definition middle_row (temperatures_last : slab) (t : slab) (i : nat) : slab :=
  foldl (fun t j => guarded_store t i j (middle_value temperatures_last i j))
        t (seq 1 (COLUMNS_PER_MPI_PROCESS - 2)).

Definition middle_kernel (temperatures temperatures_last : slab) : slab :=
  foldl (middle_row temperatures_last) temperatures (seq 1 ROWS_PER_MPI_PROCESS).

(** Third kernel: column [COLUMNS_PER_MPI_PROCESS-1]. *)
Definition right_kernel (temperatures temperatures_last : slab) : slab :=
  foldl (fun t i => guarded_store t i (COLUMNS_PER_MPI_PROCESS - 1)
                      (right_value temperatures_last i))
        temperatures (seq 1 ROWS_PER_MPI_PROCESS).

(** The three kernels write disjoint cells of [temperatures] and read
    [temperatures_last] only, so the order in which the asynchronous queues
    run them does not matter; they are taken in program order. *)
Definition propagate (temperatures temperatures_last : slab) : slab :=
  right_kernel
    (middle_kernel (left_kernel temperatures temperatures_last) temperatures_last)
    temperatures_last.

(** What one update stores in an unguarded cell. *)
Definition stencil_value (temperatures_last : slab) (i j : nat) : double :=
  if j =? 0 then left_value temperatures_last i
  else if j =? COLUMNS_PER_MPI_PROCESS - 1 then right_value temperatures_last i
  else middle_value temperatures_last i j.

(** ** The copying loops *)

(** [for(i = 1..ROWS_PER_MPI_PROCESS) for(j = 0..COLUMNS_PER_MPI_PROCESS-1)
       dst[i][j] = src[i - back][j];] *)
Definition copy_rows (src : slab) (back : nat) (dst : slab) : slab :=
  foldl (fun t i =>
           foldl (fun t j => store t i j (cell src (i - back) j))
                 t (seq 0 COLUMNS_PER_MPI_PROCESS))
        dst (seq 1 ROWS_PER_MPI_PROCESS).

(** The master's own chunk: [temperatures_last[j][k] = all_temperatures[j-1][k]]. *)
Definition copy_own_chunk (p : process) : process :=
  with_temperatures_last (copy_rows (all_temperatures p) 1 (temperatures_last p)) p.

(** [temperatures[i][j] = temperatures_last[i][j]], then [iteration_count = 0]. *)
Definition initial_copy (p : process) : process :=
  with_iteration_count 0
    (with_temperatures (copy_rows (temperatures_last p) 0 (temperatures p)) p).

(** Subtask 3: the largest change, and [temperatures_last[i][j] = temperatures[i][j]]. *)
Definition track_cell (temperatures : slab) (acc : double * slab) (i j : nat)
    : double * slab :=
  (fmax (fabs (PrimFloat.sub (cell temperatures i j) (cell acc.2 i j))) acc.1,
   store acc.2 i j (cell temperatures i j)).

Definition track_changes (temperatures temperatures_last : slab) : double * slab :=
  foldl (fun acc i =>
           foldl (fun acc j => track_cell temperatures acc i j)
                 acc (seq 0 COLUMNS_PER_MPI_PROCESS))
        (0%float, temperatures_last) (seq 1 ROWS_PER_MPI_PROCESS).

(** Subtasks 2 and 3 of one pass of the loop, on one process. *)
Definition relax (p : process) : process :=
  let t := propagate (temperatures p) (temperatures_last p) in
  let acc := track_changes t (temperatures_last p) in
  with_my_temperature_change acc.1
    (with_temperatures_last acc.2 (with_temperatures t p)).

(** ** Message passing *)

(** Subtask 1, the four calls of a rank in program order. *)
Definition exchange_calls (comm_size my_rank : Z) : list call :=
  [ MPI_Ssend (fun p => rows_from (temperatures p) 1 1)
              (up_neighbour_rank my_rank);
    MPI_Recv (ROWS_PER_MPI_PROCESS + 1)
             (down_neighbour_rank comm_size my_rank);
    MPI_Ssend (fun p => rows_from (temperatures p) ROWS_PER_MPI_PROCESS 1)
              (down_neighbour_rank comm_size my_rank);
    MPI_Recv 0 (up_neighbour_rank my_rank) ].

Definition exchange_program (comm_size : nat) (my_rank : nat) : list call :=
  exchange_calls (Z.of_nat comm_size) (Z.of_nat my_rank).

(** Task 1 on the master: the loop over the chunks. *)
Definition master_distribution (comm_size my_rank : Z) : list call :=
  (fun i : nat =>
     if (Z.of_nat i =? my_rank)%Z then Work copy_own_chunk
     else MPI_Ssend
            (fun p => rows_from (all_temperatures p)
                        (Z.to_nat (chunk_first_row (Z.of_nat i)))
                        ROWS_PER_MPI_PROCESS)
            (Z.of_nat i))
  <$> seq 0 (Z.to_nat comm_size).

(** Everything from the first barrier to the end of the first pass of the
    loop.  [barrier] tells whether the [MPI_Barrier] between the initial copy
    and the loop is compiled in: it is in the sibling variant and it is
    commented out in [gpu.c]. *)
Definition main_calls (barrier : bool) (comm_size my_rank : Z) : list call :=
  [MPI_Barrier]
  ++ (if (my_rank =? MASTER_PROCESS_RANK)%Z
      then master_distribution comm_size my_rank
      else [MPI_Recv 1 MASTER_PROCESS_RANK])
  ++ [Work initial_copy]
  ++ (if barrier then [MPI_Barrier] else [])
  ++ exchange_calls comm_size my_rank
  ++ [Work relax].

Definition main_program (barrier : bool) (comm_size : nat) (my_rank : nat) : list call :=
  main_calls barrier (Z.of_nat comm_size) (Z.of_nat my_rank).

(** The index of the first call of the loop in [main_calls]. *)
Definition loop_entry (barrier : bool) (comm_size my_rank : nat) : nat :=
  1 + (if decide (my_rank = 0) then comm_size else 1) + 1
  + (if barrier then 1 else 0).

(** A message lands in [temperatures_last] from row [first_row] on. *)
Definition deliver (first_row : nat) (msg : slab) (p : process) : process :=
  with_temperatures_last (list_inserts first_row msg (temperatures_last p)) p.

(** The ranks run [program]; one step completes one call of one rank, or one
    matching pair.  A synchronous send completes together with the receive
    it matches; a call whose peer is [MPI_PROC_NULL] completes at once and
    moves no data; a barrier completes when every rank is at it. *)
Inductive step (program : nat → list call) : list rank_state → list rank_state → Prop :=
  | step_work m r s f :
      m !! r = Some s →
      program r !! pc s = Some (Work f) →
      step program m (<[r := RankState (f (mem s)) (S (pc s))]> m)
  | step_send_null m r s buf :
      m !! r = Some s →
      program r !! pc s = Some (MPI_Ssend buf MPI_PROC_NULL) →
      step program m (<[r := advance s]> m)
  | step_recv_null m r s first_row :
      m !! r = Some s →
      program r !! pc s = Some (MPI_Recv first_row MPI_PROC_NULL) →
      step program m (<[r := advance s]> m)
  | step_transfer m a b sa sb buf first_row :
      a ≠ b →
      m !! a = Some sa →
      m !! b = Some sb →
      program a !! pc sa = Some (MPI_Ssend buf (Z.of_nat b)) →
      program b !! pc sb = Some (MPI_Recv first_row (Z.of_nat a)) →
      step program m
        (<[b := RankState (deliver first_row (buf (mem sa)) (mem sb)) (S (pc sb))]>
           (<[a := advance sa]> m))
  | step_barrier m :
      m ≠ [] →
      (∀ r s, m !! r = Some s → program r !! pc s = Some MPI_Barrier) →
      step program m (advance <$> m).

(** Every rank has completed the calls of its program. *)
Definition finished (program : nat → list call) (m : list rank_state) : Prop :=
  ∀ r s, m !! r = Some s → pc s = length (program r).

(** ** What the exchange leaves in memory *)

(** The ghost row a receive from [source] fills: row [k] of the sender's
    [temperatures], or nothing for [MPI_PROC_NULL]. *)
Definition ghost_from (ps : list process) (source : Z) (k first_row : nat)
    (last : slab) : slab :=
  if (source =? MPI_PROC_NULL)%Z then last
  else match ps !! Z.to_nat source with
       | Some q => list_inserts first_row (rows_from (temperatures q) k 1) last
       | None => last
       end.

(** The memory of rank [r] once [n] of its four calls are complete, the
    exchange having started from [ps]; [exchange_step] and [exchange_result]
    below show that the four calls, however they interleave across the
    ranks, go through these memories and end in the last of them. *)
Definition exchanged (ps : list process) (r n : nat) (p : process) : process :=
  let comm_size := Z.of_nat (length ps) in
  let l1 := if 2 <=? n
            then ghost_from ps (down_neighbour_rank comm_size (Z.of_nat r))
                            1 (ROWS_PER_MPI_PROCESS + 1) (temperatures_last p)
            else temperatures_last p in
  let l2 := if 4 <=? n
            then ghost_from ps (up_neighbour_rank (Z.of_nat r))
                            ROWS_PER_MPI_PROCESS 0 l1
            else l1 in
  with_temperatures_last l2 p.

Definition exchange_ghost_cells (ps : list process) : list process :=
  imap (fun r p => exchanged ps r 4 p) ps.

(** ** The snapshot *)

(** [MPI_Gather(&temperatures[1][0], ROWS_PER_MPI_PROCESS * COLUMNS_PER_MPI_PROCESS,
    ..., snapshot, ...)] as the root sees it: the block of rank [r] lands at
    row [r * ROWS_PER_MPI_PROCESS] of the receive buffer. *)
Definition gather_block (ps : list process) (buf : slab) (r : nat) : slab :=
  match ps !! r with
  | Some q => list_inserts (r * ROWS_PER_MPI_PROCESS)
                (rows_from (temperatures q) 1 ROWS_PER_MPI_PROCESS) buf
  | None => buf
  end.

Definition MPI_Gather (ps : list process) (recvbuf : slab) : slab :=
  foldl (gather_block ps) recvbuf (seq 0 (length ps)).

(** Subtask 6.  All ranks hold the same [iteration_count], so all of them
    enter the gather in the same pass; only the root's buffer receives. *)
Definition snapshot_taken (ps : list process) (r : nat) (p : process) : process :=
  if decide (r = 0)
  then if (Z.rem (iteration_count p) SNAPSHOT_INTERVAL =? 0)%Z
       then with_snapshot (MPI_Gather ps (snapshot p)) p
       else p
  else p.

Definition take_snapshot (ps : list process) : list process :=
  imap (snapshot_taken ps) ps.

Definition next_iteration (p : process) : process :=
  with_iteration_count (int_wrap (iteration_count p + 1)) p.

(** ** The program, one pass of the loop at a time *)

(** One pass of [while(total_time_so_far < MAX_TIME)], on all ranks. *)
Definition loop_pass (ps : list process) : list process :=
  next_iteration <$> take_snapshot (relax <$> exchange_ghost_cells ps).

(** The clock decides how many passes are made; [n] is that number. *)
Definition run (n : nat) (ps : list process) : list process :=
  Nat.iter n loop_pass ps.

(** Task 1 as rank [r] sees it: its chunk of the master's [all_temperatures]
    lands in the rows [1..ROWS_PER_MPI_PROCESS] of [temperatures_last]. *)
Definition distributed (master : process) (r : nat) (p : process) : process :=
  if decide (r = 0) then copy_own_chunk p
  else deliver 1 (rows_from (all_temperatures master)
                            (Z.to_nat (chunk_first_row (Z.of_nat r)))
                            ROWS_PER_MPI_PROCESS) p.

(** From the declarations to the loop.  [ps] is the memory of the ranks when
    the distribution starts: the master's [all_temperatures] holds the
    initial condition, and the other arrays, declared without an
    initialiser, hold whatever the stack held. *)
Definition startup (ps : list process) : list process :=
  match ps !! 0 with
  | Some master => imap (fun r p => initial_copy (distributed master r p)) ps
  | None => []
  end.

(** ** Helpers of the proofs *)

(** The index pairs of the doubly nested loops, in the order they are visited. *)
Definition middle_cells : list (nat * nat) :=
  i ← seq 1 ROWS_PER_MPI_PROCESS;
  (fun j => (i, j)) <$> seq 1 (COLUMNS_PER_MPI_PROCESS - 2).

Definition owned_cells : list (nat * nat) :=
  i ← seq 1 ROWS_PER_MPI_PROCESS;
  (fun j => (i, j)) <$> seq 0 COLUMNS_PER_MPI_PROCESS.

(** The two slabs of a process have [ROWS_PER_MPI_PROCESS + 2] rows of
    [COLUMNS_PER_MPI_PROCESS] columns, as they are declared. *)
Definition process_shape (p : process) : Prop :=
  slab_shape (ROWS_PER_MPI_PROCESS + 2) COLUMNS_PER_MPI_PROCESS (temperatures p) ∧
  slab_shape (ROWS_PER_MPI_PROCESS + 2) COLUMNS_PER_MPI_PROCESS (temperatures_last p).

(** The exchange that started from [ps], at the point where rank [r] has
    completed [f r] of its four calls. *)
Definition exchange_at (ps : list process) (f : nat → nat) : list rank_state :=
  imap (fun r p => RankState (exchanged ps r (f r) p) (f r)) ps.

(** How far apart neighbours can be in the exchange: rank [k + 1] has sent
    its row up exactly when rank [k] has received it, and rank [k] has sent
    its row down exactly when rank [k + 1] has received it. *)
Definition in_step (comm_size : nat) (f : nat → nat) : Prop :=
  (∀ r, r < comm_size → f r ≤ 4) ∧
  (∀ k, S k < comm_size →
     (1 ≤ f (S k) ↔ 2 ≤ f k) ∧ (3 ≤ f k ↔ 4 ≤ f (S k))).

(** The number of calls completed so far, over all ranks. *)
Definition calls_done (m : list rank_state) : nat := sum_list (pc <$> m).

(** With the barrier before the loop compiled in, the ranks go through the
    start-up together: all of them are at the first barrier, or all between
    the two barriers, or all in the loop. *)
Definition together (comm_size : nat) (m : list rank_state) : Prop :=
  (∀ r s, m !! r = Some s → pc s = 0) ∨
  (∀ r s, m !! r = Some s → 1 ≤ pc s < loop_entry true comm_size r) ∨
  (∀ r s, m !! r = Some s → loop_entry true comm_size r ≤ pc s).

(** The rank a call names as its peer, if it names one. *)
Definition call_peer (c : call) : option Z :=
  match c with
  | MPI_Ssend _ dest => Some dest
  | MPI_Recv _ source => Some source
  | MPI_Barrier | Work _ => None
  end.

(** A rank's calls open with a blocking synchronous send that is followed by
    a blocking receive. *)
Definition blocking_send_then_receive (calls : list call) : bool :=
  match calls with
  | MPI_Ssend _ _ :: MPI_Recv _ _ :: _ => true
  | _ => false
  end.

(** The boundary-aware variant the specification asks for at the global top
    row, in its words: the average of the three neighbours that exist, the
    missing row above left out (interior columns). *)
Definition spec_top_value (temperatures_last : slab) (i j : nat) : double :=
  PrimFloat.div
    (PrimFloat.add
       (PrimFloat.add (cell temperatures_last (i + 1) j)
                      (cell temperatures_last i (j - 1)))
       (cell temperatures_last i (j + 1)))
    3%float.

(** The same at the global bottom row: the missing row below left out. *)
Definition spec_bottom_value (temperatures_last : slab) (i j : nat) : double :=
  PrimFloat.div
    (PrimFloat.add
       (PrimFloat.add (cell temperatures_last (i - 1) j)
                      (cell temperatures_last i (j - 1)))
       (cell temperatures_last i (j + 1)))
    3%float.

(** The owned rows [1..n] of [temperatures_last] repeat those of
    [temperatures]: the state between two passes. *)
Definition settled (n : nat) (p : process) : Prop :=
  ∀ i j, 1 ≤ i ≤ n → j < COLUMNS_PER_MPI_PROCESS →
    cell (temperatures_last p) i j = cell (temperatures p) i j.

(** The ranks [ps] hold, chunk by chunk, the rows of the one process [whole]
    that would run the same grid alone: the owned rows of rank [r] are the
    rows [r * ROWS_PER_MPI_PROCESS + 1 ..] of [whole], and the ghost rows at
    the two ends of the grid are those of [whole]. *)
Definition split_of (ps : list process) (whole : process) : Prop :=
  ∀ r p, ps !! r = Some p →
    (∀ i j, 1 ≤ i ≤ ROWS_PER_MPI_PROCESS → j < COLUMNS_PER_MPI_PROCESS →
       cell (temperatures p) i j =
         cell (temperatures whole) (r * ROWS_PER_MPI_PROCESS + i) j ∧
       cell (temperatures_last p) i j =
         cell (temperatures_last whole) (r * ROWS_PER_MPI_PROCESS + i) j) ∧
    (r = 0 → ∀ j, j < COLUMNS_PER_MPI_PROCESS →
       cell (temperatures_last p) 0 j = cell (temperatures_last whole) 0 j) ∧
    (S r = length ps → ∀ j, j < COLUMNS_PER_MPI_PROCESS →
       cell (temperatures_last p) (ROWS_PER_MPI_PROCESS + 1) j =
         cell (temperatures_last whole)
              (length ps * ROWS_PER_MPI_PROCESS + 1) j).

(** [fabs(temperatures[i][j] - temperatures_last[i][j])] as subtask 3 of a
    pass computes it for the owned cell [(i, j)]: [p] is the process when
    the kernels start, [p'] the process when subtask 3 is over. *)
Definition cell_change (p p' : process) (i j : nat) : double :=
  fabs (PrimFloat.sub (cell (temperatures p') i j) (cell (temperatures_last p) i j)).

(** The index of [Work initial_copy] among the calls of [main_calls]. *)
Definition copy_index (comm_size my_rank : nat) : nat :=
  1 + (if decide (my_rank = 0) then comm_size else 1).

(** The call of Task 1 that rank [r] makes after [i] others: the master's
    loop over the chunks, or the one receive of another rank. *)
Definition distribution_call (comm_size r i : nat) : option call :=
  if decide (r = 0)
  then if decide (i < comm_size)
       then Some (if decide (i = 0) then Work copy_own_chunk
                  else MPI_Ssend
                         (fun p => rows_from (all_temperatures p)
                                     (Z.to_nat (chunk_first_row (Z.of_nat i)))
                                     ROWS_PER_MPI_PROCESS)
                         (Z.of_nat i))
       else None
  else if decide (i = 0) then Some (MPI_Recv 1 MASTER_PROCESS_RANK) else None.

(** The memory of rank [r] once [n] of the calls of [main_program] are
    complete, the ranks having started from [ps]; [main_step] and
    [main_finished] below show that the calls, however they interleave
    across the ranks, go through these memories. *)
Definition run_to (barrier : bool) (ps : list process) (master : process)
    (r n : nat) (p : process) : process :=
  let q := initial_copy (distributed master r p) in
  let entry := loop_entry barrier (length ps) r in
  if n <? 2 then p
  else if n <=? copy_index (length ps) r then distributed master r p
  else if n <=? entry + 4 then exchanged (startup ps) r (n - entry) q
  else relax (exchanged (startup ps) r 4 q).

Definition main_at (barrier : bool) (ps : list process) (master : process)
    (f : nat → nat) : list rank_state :=
  imap (fun r p => RankState (run_to barrier ps master r (f r) p) (f r)) ps.

(** How far apart the ranks can be in [main_program]: all of them are before
    the first barrier or all after it; a rank has its chunk exactly when the
    master's loop is past it; with the second barrier compiled in, all are
    before it or all in the loop; and in the exchange the neighbours are in
    step. *)
Definition on_course (barrier : bool) (comm_size : nat) (f : nat → nat) : Prop :=
  (∀ r, r < comm_size → f r ≤ loop_entry barrier comm_size r + 5) ∧
  ((∀ r, r < comm_size → f r = 0) ∨ (∀ r, r < comm_size → 1 ≤ f r)) ∧
  (∀ r, 1 ≤ r < comm_size → (2 ≤ f r ↔ r + 2 ≤ f 0)) ∧
  (barrier = true →
     (∀ r, r < comm_size → f r ≤ copy_index comm_size r + 1) ∨
     (∀ r, r < comm_size → loop_entry barrier comm_size r ≤ f r)) ∧
  in_step comm_size (fun r => (f r - loop_entry barrier comm_size r) `min` 4).

(** The assignments of the three kernels of one update, one per cell, as
    the loops make them in program order: the row, the column and the value
    to store if the test [!= MAX_TEMPERATURE] passes. *)
Definition update_tasks (temperatures_last : slab) : list (nat * nat * double) :=
  ((fun i => (i, 0, left_value temperatures_last i)) <$> seq 1 ROWS_PER_MPI_PROCESS)
  ++ ((fun p : nat * nat => (p.1, p.2, middle_value temperatures_last p.1 p.2))
        <$> middle_cells)
  ++ ((fun i => (i, COLUMNS_PER_MPI_PROCESS - 1, right_value temperatures_last i))
        <$> seq 1 ROWS_PER_MPI_PROCESS).

(** The same assignments made in the order of the list [tasks]. *)
Definition update_in_order (temperatures : slab) (tasks : list (nat * nat * double))
    : slab :=
  foldl (fun t k => guarded_store t k.1.1 k.1.2 k.2) temperatures tasks.

(* ================================================================= *)
(** * Properties *)

(** ** Array lemmas *)

Lemma cell_store_ne (t : slab) i j i' j' v :
  (i, j) ≠ (i', j') → cell (store t i' j' v) i j = cell t i j.
Proof.
  intros Hne. unfold cell, store.
  destruct (decide (i' = i)) as [->|Hi].
  - rewrite list_lookup_alter_eq. destruct (t !! i) as [r|]; simpl; [|done].
    rewrite list_lookup_insert_ne; [done|congruence].
  - by rewrite list_lookup_alter_ne.
Qed.

Lemma cell_store_eq n c (t : slab) i j v :
  slab_shape n c t → i < n → j < c → cell (store t i j v) i j = v.
Proof.
  intros [Hlen Hrows] Hi Hj. unfold cell, store.
  rewrite list_lookup_alter_eq.
  destruct (t !! i) as [r|] eqn:Hr; simpl.
  - rewrite list_lookup_insert_eq; [done|].
    rewrite Forall_lookup in Hrows. rewrite (Hrows _ _ Hr). done.
  - apply lookup_ge_None in Hr. lia.
Qed.

Lemma store_shape n c (t : slab) i j v :
  slab_shape n c t → slab_shape n c (store t i j v).
Proof.
  intros [Hlen Hrows]. split.
  - unfold store. by rewrite length_alter.
  - unfold store. apply Forall_alter; [done|].
    intros r Hr Hc. by rewrite length_insert.
Qed.

Lemma row_store_ne (t : slab) i i' j v :
  i ≠ i' → row (store t i' j v) i = row t i.
Proof. intros Hne. unfold row, store. by rewrite list_lookup_alter_ne. Qed.

Lemma cell_row (t : slab) i j :
  cell t i j = match row t i !! j with Some v => v | None => 0%float end.
Proof. unfold cell, row. by destruct (t !! i). Qed.

(** ** One assignment under a test *)

Lemma store_if_shape g n c t i j v :
  slab_shape n c t → slab_shape n c (store_if g t i j v).
Proof.
  intros Hs. unfold store_if.
  destruct (g _); [by apply store_shape|done].
Qed.

Lemma store_if_ne g t i j i' j' v :
  (i, j) ≠ (i', j') → cell (store_if g t i' j' v) i j = cell t i j.
Proof.
  intros Hne. unfold store_if.
  destruct (g _); [by apply cell_store_ne|done].
Qed.

Lemma store_if_eq g n c t i j v :
  slab_shape n c t → i < n → j < c →
  cell (store_if g t i j v) i j = if g (cell t i j) then v else cell t i j.
Proof.
  intros Hs Hi Hj. unfold store_if.
  destruct (g _); [by eapply cell_store_eq|done].
Qed.

(** A cell that fails the test survives the assignment, whatever its target. *)
Lemma store_if_fixed g t i j i' j' v :
  g (cell t i j) = false → cell (store_if g t i' j' v) i j = cell t i j.
Proof.
  intros Hg. destruct (decide ((i, j) = (i', j'))) as [[= <- <-]|Hne].
  - unfold store_if. by rewrite Hg.
  - by apply store_if_ne.
Qed.

Lemma store_if_row_ne g t i i' j v :
  i ≠ i' → row (store_if g t i' j v) i = row t i.
Proof.
  intros Hne. unfold store_if.
  destruct (g _); [by apply row_store_ne|done].
Qed.

(** ** Loops of assignments *)

Lemma sweep_cons {K} g (fi fj : K → nat) fv t k l :
  sweep g fi fj fv t (k :: l) =
  sweep g fi fj fv (store_if g t (fi k) (fj k) (fv k)) l.
Proof. reflexivity. Qed.

Lemma sweep_shape {K} g n c (fi fj : K → nat) fv l t :
  slab_shape n c t → slab_shape n c (sweep g fi fj fv t l).
Proof.
  revert t. induction l as [|k l IH]; intros t Hs; [done|].
  rewrite sweep_cons. apply IH. by apply store_if_shape.
Qed.

Lemma sweep_fixed {K} g (fi fj : K → nat) fv l t i j :
  g (cell t i j) = false → cell (sweep g fi fj fv t l) i j = cell t i j.
Proof.
  revert t. induction l as [|k l IH]; intros t Hg; [done|].
  rewrite sweep_cons, IH.
  - by apply store_if_fixed.
  - by rewrite store_if_fixed.
Qed.

Lemma sweep_untouched {K} g (fi fj : K → nat) fv l t i j :
  (∀ k, k ∈ l → (i, j) ≠ (fi k, fj k)) →
  cell (sweep g fi fj fv t l) i j = cell t i j.
Proof.
  revert t. induction l as [|k l IH]; intros t Hl; [done|].
  rewrite sweep_cons, IH.
  - apply store_if_ne, Hl. by left.
  - intros k' Hk'. apply Hl. by right.
Qed.

Lemma sweep_row_untouched {K} g (fi fj : K → nat) fv l t i :
  (∀ k, k ∈ l → i ≠ fi k) → row (sweep g fi fj fv t l) i = row t i.
Proof.
  revert t. induction l as [|k l IH]; intros t Hl; [done|].
  rewrite sweep_cons, IH.
  - apply store_if_row_ne, Hl. by left.
  - intros k' Hk'. apply Hl. by right.
Qed.

(** The loop visits the cell of [k0] and no other index of the loop aims at
    it: the cell ends as the one assignment leaves it. *)
Lemma sweep_visited {K} `{EqDecision K} g n c (fi fj : K → nat) fv l t k0 :
  slab_shape n c t → fi k0 < n → fj k0 < c →
  k0 ∈ l →
  (∀ k, k ∈ l → (fi k, fj k) = (fi k0, fj k0) → k = k0) →
  cell (sweep g fi fj fv t l) (fi k0) (fj k0) =
    if g (cell t (fi k0) (fj k0)) then fv k0 else cell t (fi k0) (fj k0).
Proof.
  intros Hs Hi Hj. revert t Hs.
  induction l as [|k l IH]; intros t Hs Hin Hinj; [by apply elem_of_nil in Hin|].
  rewrite sweep_cons.
  destruct (decide (k = k0)) as [->|Hk].
  - destruct (decide (k0 ∈ l)) as [Hl|Hl].
    + rewrite IH; [| by apply store_if_shape | done
                   | intros k' Hk'; apply Hinj; by right].
      rewrite (store_if_eq g n c) by done.
      destruct (g (cell t (fi k0) (fj k0))) eqn:Hg.
      * by destruct (g (fv k0)).
      * by rewrite Hg.
    + rewrite sweep_untouched.
      * by apply (store_if_eq g n c).
      * intros k' Hk' Heq. apply Hl.
        rewrite <- (Hinj k'); [done|by right|done].
  - apply elem_of_cons in Hin as [->|Hin]; [done|].
    rewrite IH; [| by apply store_if_shape | done
                 | intros k' Hk'; apply Hinj; by right].
    rewrite store_if_ne; [done|].
    intros Heq. apply Hk. apply Hinj; [by left|done].
Qed.

(** A doubly nested loop is one loop over the index pairs. *)
Lemma nested_foldl {A} (f : A → nat → nat → A) (rows cols : list nat) (a : A) :
  foldl (fun a i => foldl (fun a j => f a i j) a cols) a rows =
  foldl (fun a (p : nat * nat) => f a p.1 p.2) a
        (i ← rows; (fun j => (i, j)) <$> cols).
Proof.
  revert a. induction rows as [|i rows IH]; intros a; [done|].
  simpl. rewrite foldl_app, IH. f_equal.
  generalize a. clear. induction cols as [|j cols IHc]; intros a; [done|].
  simpl. by rewrite IHc.
Qed.

Lemma elem_of_pairs (i0 n j0 c i j : nat) :
  (i, j) ∈ (i ← seq i0 n; (fun j => (i, j)) <$> seq j0 c) ↔
  (i0 ≤ i < i0 + n ∧ j0 ≤ j < j0 + c).
Proof.
  rewrite list_elem_of_bind. split.
  - intros (i' & Hj & Hi). apply list_elem_of_fmap in Hj as (j' & [= -> ->] & Hj).
    apply elem_of_seq in Hi, Hj. lia.
  - intros (Hi & Hj). exists i. split.
    + apply list_elem_of_fmap. exists j. split; [done|]. by apply elem_of_seq.
    + by apply elem_of_seq.
Qed.

(** ** The kernels as sweeps *)

Lemma left_kernel_sweep t last :
  left_kernel t last =
  sweep not_max (fun i => i) (fun _ => 0) (left_value last) t (seq 1 ROWS_PER_MPI_PROCESS).
Proof. reflexivity. Qed.

Lemma right_kernel_sweep t last :
  right_kernel t last =
  sweep not_max (fun i => i) (fun _ => COLUMNS_PER_MPI_PROCESS - 1) (right_value last) t
        (seq 1 ROWS_PER_MPI_PROCESS).
Proof. reflexivity. Qed.

Lemma middle_kernel_sweep t last :
  middle_kernel t last =
  sweep not_max fst snd (fun p => middle_value last p.1 p.2) t middle_cells.
Proof.
  unfold middle_kernel, middle_row, middle_cells, sweep.
  apply (nested_foldl
           (fun t i j => guarded_store t i j (middle_value last i j))).
Qed.

Lemma elem_of_middle_cells i j :
  (i, j) ∈ middle_cells ↔
  (1 ≤ i ≤ ROWS_PER_MPI_PROCESS ∧ 1 ≤ j ∧ j + 1 < COLUMNS_PER_MPI_PROCESS).
Proof. unfold middle_cells. rewrite elem_of_pairs. lia. Qed.

Lemma propagate_shape n c t last :
  slab_shape n c t → slab_shape n c (propagate t last).
Proof.
  intros Hs. unfold propagate.
  rewrite right_kernel_sweep, middle_kernel_sweep, left_kernel_sweep.
  by do 3 apply sweep_shape.
Qed.

(** A cell equal to [MAX_TEMPERATURE] is left alone by the whole update. *)
Lemma propagate_fixed t last i j :
  not_max (cell t i j) = false →
  cell (propagate t last) i j = cell t i j.
Proof.
  intros Hg. unfold propagate.
  rewrite right_kernel_sweep, middle_kernel_sweep, left_kernel_sweep.
  set (tl := sweep _ _ _ (left_value last) t _).
  set (tm := sweep _ _ _ _ tl _).
  assert (H1 : cell tl i j = cell t i j) by by apply sweep_fixed.
  assert (H2 : cell tm i j = cell tl i j) by (apply sweep_fixed; by rewrite H1).
  rewrite sweep_fixed; rewrite ?H2, ?H1; done.
Qed.

(** The rows outside [1..ROWS_PER_MPI_PROCESS] (the ghost rows) are never
    assigned by the update. *)
Lemma propagate_row_outside t last i :
  ¬ (1 ≤ i ≤ ROWS_PER_MPI_PROCESS) → row (propagate t last) i = row t i.
Proof.
  intros Hi. unfold propagate.
  rewrite right_kernel_sweep, middle_kernel_sweep, left_kernel_sweep.
  rewrite !sweep_row_untouched; try done.
  - intros k Hk%elem_of_seq. lia.
  - intros [i' j'] Hk%elem_of_middle_cells. simpl. lia.
  - intros k Hk%elem_of_seq. lia.
Qed.

(** Every owned cell: assigned its stencil value unless it compares equal to
    [MAX_TEMPERATURE]. *)
Lemma propagate_cell n t last i j :
  slab_shape n COLUMNS_PER_MPI_PROCESS t →
  ROWS_PER_MPI_PROCESS < n →
  2 ≤ COLUMNS_PER_MPI_PROCESS →
  1 ≤ i ≤ ROWS_PER_MPI_PROCESS → j < COLUMNS_PER_MPI_PROCESS →
  cell (propagate t last) i j =
    if not_max (cell t i j) then stencil_value last i j
    else cell t i j.
Proof.
  intros Hs Hn HC Hi Hj. unfold propagate, stencil_value.
  rewrite right_kernel_sweep, middle_kernel_sweep, left_kernel_sweep.
  set (tl := sweep _ _ _ (left_value last) t _).
  set (tm := sweep _ _ _ _ tl _).
  assert (Hsl : slab_shape n COLUMNS_PER_MPI_PROCESS tl) by by apply sweep_shape.
  assert (Hsm : slab_shape n COLUMNS_PER_MPI_PROCESS tm) by by apply sweep_shape.
  destruct (Nat.eqb_spec j 0) as [->|Hj0].
  - (* left edge *)
    rewrite sweep_untouched; [|intros k Hk [= _ ?]; lia].
    unfold tm. rewrite sweep_untouched;
      [|intros [i' j'] Hk%elem_of_middle_cells [= _ ?]; simpl in *; lia].
    unfold tl.
    apply (sweep_visited not_max n COLUMNS_PER_MPI_PROCESS (fun i => i) (fun _ => 0)
             (left_value last) _ t i); try done; try lia.
    + apply elem_of_seq. lia.
    + by intros k _ [= ->].
  - destruct (Nat.eqb_spec j (COLUMNS_PER_MPI_PROCESS - 1)) as [->|Hj1].
    + (* right edge *)
      assert (Hpre : cell tm i (COLUMNS_PER_MPI_PROCESS - 1)
                     = cell t i (COLUMNS_PER_MPI_PROCESS - 1)).
      { unfold tm. rewrite sweep_untouched;
          [|intros [i' j'] Hk%elem_of_middle_cells [= _ ?]; simpl in *; lia].
        unfold tl. rewrite sweep_untouched; [done|intros k Hk [= _ ?]; lia]. }
      rewrite <- Hpre.
      apply (sweep_visited not_max n COLUMNS_PER_MPI_PROCESS (fun i => i)
               (fun _ => COLUMNS_PER_MPI_PROCESS - 1)
               (right_value last) _ tm i); try done; try lia.
      * apply elem_of_seq. lia.
      * by intros k _ [= ->].
    + (* interior columns *)
      rewrite sweep_untouched; [|intros k Hk [= _ ?]; lia].
      assert (Hpre : cell tl i j = cell t i j).
      { unfold tl. rewrite sweep_untouched; [done|intros k Hk [= _ ?]; lia]. }
      rewrite <- Hpre. unfold tm.
      apply (sweep_visited not_max n COLUMNS_PER_MPI_PROCESS fst snd
               (fun p => middle_value last p.1 p.2) _ tl (i, j));
        simpl; try done; try lia.
      * apply elem_of_middle_cells. lia.
      * intros [i' j'] _ [= -> ->]. done.
Qed.

(** ** The copying loops *)

Lemma copy_rows_sweep src back dst :
  copy_rows src back dst =
  sweep (fun _ => true) fst snd (fun p => cell src (p.1 - back) p.2) dst owned_cells.
Proof.
  unfold copy_rows, owned_cells, sweep.
  apply (nested_foldl (fun t i j => store t i j (cell src (i - back) j))).
Qed.

Lemma elem_of_owned_cells i j :
  (i, j) ∈ owned_cells ↔
  (1 ≤ i ≤ ROWS_PER_MPI_PROCESS ∧ j < COLUMNS_PER_MPI_PROCESS).
Proof. unfold owned_cells. rewrite elem_of_pairs. lia. Qed.

Lemma copy_rows_shape n c src back dst :
  slab_shape n c dst → slab_shape n c (copy_rows src back dst).
Proof. intros Hs. rewrite copy_rows_sweep. by apply sweep_shape. Qed.

Lemma copy_rows_cell n src back dst i j :
  slab_shape n COLUMNS_PER_MPI_PROCESS dst → ROWS_PER_MPI_PROCESS < n →
  1 ≤ i ≤ ROWS_PER_MPI_PROCESS → j < COLUMNS_PER_MPI_PROCESS →
  cell (copy_rows src back dst) i j = cell src (i - back) j.
Proof.
  intros Hs Hn Hi Hj. rewrite copy_rows_sweep.
  apply (sweep_visited (fun _ => true) n COLUMNS_PER_MPI_PROCESS fst snd
           (fun p => cell src (p.1 - back) p.2) _ dst (i, j));
    simpl; try done; try lia.
  - apply elem_of_owned_cells. lia.
  - intros [i' j'] _ [= -> ->]. done.
Qed.

Lemma copy_rows_row_outside src back dst i :
  ¬ (1 ≤ i ≤ ROWS_PER_MPI_PROCESS) → row (copy_rows src back dst) i = row dst i.
Proof.
  intros Hi. rewrite copy_rows_sweep. apply sweep_row_untouched.
  intros [i' j'] Hk%elem_of_owned_cells. simpl. lia.
Qed.

(** ** Subtasks 2 and 3 on one process *)

Lemma track_changes_last t last :
  (track_changes t last).2 =
  sweep (fun _ => true) fst snd (fun p => cell t p.1 p.2) last owned_cells.
Proof.
  unfold track_changes, owned_cells.
  rewrite (nested_foldl (fun acc i j => track_cell t acc i j)).
  generalize 0%float as d.
  generalize (i ← seq 1 ROWS_PER_MPI_PROCESS;
              (fun j => (i, j)) <$> seq 0 COLUMNS_PER_MPI_PROCESS) as l.
  intros l. revert last. induction l as [|k l IH]; intros last d; [done|].
  simpl. unfold track_cell at 2. simpl. by rewrite IH.
Qed.

Lemma relax_temperatures p :
  temperatures (relax p) = propagate (temperatures p) (temperatures_last p).
Proof. reflexivity. Qed.

Lemma relax_all_temperatures p : all_temperatures (relax p) = all_temperatures p.
Proof. reflexivity. Qed.

Lemma relax_temperatures_last_shape n c p :
  slab_shape n c (temperatures_last p) →
  slab_shape n c (temperatures_last (relax p)).
Proof.
  intros Hs. unfold relax. simpl. rewrite track_changes_last. by apply sweep_shape.
Qed.

(** After subtask 3 the owned rows of [temperatures_last] repeat those of
    [temperatures]. *)
Lemma relax_temperatures_last_cell n p i j :
  slab_shape n COLUMNS_PER_MPI_PROCESS (temperatures_last p) →
  ROWS_PER_MPI_PROCESS < n →
  1 ≤ i ≤ ROWS_PER_MPI_PROCESS → j < COLUMNS_PER_MPI_PROCESS →
  cell (temperatures_last (relax p)) i j = cell (temperatures (relax p)) i j.
Proof.
  intros Hs Hn Hi Hj. unfold relax. simpl. rewrite track_changes_last.
  apply (sweep_visited (fun _ => true) n COLUMNS_PER_MPI_PROCESS fst snd
           (fun q => cell (propagate (temperatures p) (temperatures_last p)) q.1 q.2)
           _ (temperatures_last p) (i, j));
    simpl; try done; try lia.
  - apply elem_of_owned_cells. lia.
  - intros [i' j'] _ [= -> ->]. done.
Qed.

(** ** One pass of the loop *)

Lemma exchange_ghost_cells_lookup ps r :
  exchange_ghost_cells ps !! r = (fun p => exchanged ps r 4 p) <$> ps !! r.
Proof.
  unfold exchange_ghost_cells.
  apply (list_lookup_imap (fun r p => exchanged ps r 4 p)).
Qed.

Lemma exchanged_temperatures ps r n p :
  temperatures (exchanged ps r n p) = temperatures p.
Proof. reflexivity. Qed.

Lemma snapshot_taken_temperatures ps r p :
  temperatures (snapshot_taken ps r p) = temperatures p.
Proof. unfold snapshot_taken. by repeat case_match. Qed.

Lemma loop_pass_lookup ps r :
  loop_pass ps !! r =
  (fun p => next_iteration
              (snapshot_taken (relax <$> exchange_ghost_cells ps) r
                 (relax (exchanged ps r 4 p)))) <$> ps !! r.
Proof.
  unfold loop_pass, take_snapshot.
  rewrite list_lookup_fmap.
  rewrite (list_lookup_imap (snapshot_taken (relax <$> exchange_ghost_cells ps))).
  rewrite list_lookup_fmap, exchange_ghost_cells_lookup.
  by destruct (ps !! r).
Qed.

Lemma loop_pass_length ps : length (loop_pass ps) = length ps.
Proof.
  unfold loop_pass, take_snapshot, exchange_ghost_cells.
  by rewrite length_fmap, length_imap, length_fmap, length_imap.
Qed.

Lemma loop_pass_temperatures ps r p :
  ps !! r = Some p →
  ∃ p', loop_pass ps !! r = Some p' ∧
        temperatures p' =
          propagate (temperatures p) (temperatures_last (exchanged ps r 4 p)).
Proof.
  intros Hp. rewrite loop_pass_lookup, Hp. simpl. eexists. split; [done|].
  unfold next_iteration. simpl. by rewrite snapshot_taken_temperatures.
Qed.

Lemma run_S n ps : run (S n) ps = loop_pass (run n ps).
Proof. reflexivity. Qed.

Lemma run_length n ps : length (run n ps) = length ps.
Proof.
  induction n as [|n IH]; [done|]. by rewrite run_S, loop_pass_length.
Qed.

(** A cell of [temperatures] that compares equal to [MAX_TEMPERATURE] keeps
    its value through any number of passes. *)
Lemma run_fixed n ps r p i j :
  ps !! r = Some p →
  not_max (cell (temperatures p) i j) = false →
  ∃ p', run n ps !! r = Some p' ∧
        cell (temperatures p') i j = cell (temperatures p) i j.
Proof.
  intros Hp Hg. induction n as [|n (p1 & Hp1 & Hc1)]; [by exists p|].
  destruct (loop_pass_temperatures _ _ _ Hp1) as (p2 & Hp2 & Ht2).
  exists p2. split; [by rewrite run_S|].
  rewrite Ht2, propagate_fixed; [done|]. by rewrite Hc1.
Qed.

Lemma not_max_false x :
  not_max x = false ↔ PrimFloat.eqb x MAX_TEMPERATURE = true.
Proof. unfold not_max, fne. by destruct (PrimFloat.eqb _ _). Qed.

Lemma not_max_true x :
  not_max x = true ↔ PrimFloat.eqb x MAX_TEMPERATURE = false.
Proof. unfold not_max, fne. by destruct (PrimFloat.eqb _ _). Qed.

(** ** The stencil update *)

(** C1 (as the code has it): the update tells the cells it assigns by their
    value, not by a designation made at initialisation.  In one update,
    every owned cell [(i, j)] whose value in [temperatures] does not compare
    equal to [MAX_TEMPERATURE] is assigned [0.25 * (up + down + left + right)]
    of [temperatures_last] in the interior columns, [(up + down + right) / 3.0]
    in column [0], and [(up + down + left) / 3.0] in the last column; and an
    owned cell whose value compares equal to [MAX_TEMPERATURE], whether or
    not the initial condition had that value there, is left as it is. *)
Theorem C1_stencil_update (t last : slab) (i j : nat) :
  slab_shape (ROWS_PER_MPI_PROCESS + 2) COLUMNS_PER_MPI_PROCESS t →
  2 ≤ COLUMNS_PER_MPI_PROCESS →
  1 ≤ i ≤ ROWS_PER_MPI_PROCESS →
  j < COLUMNS_PER_MPI_PROCESS →
  (PrimFloat.eqb (cell t i j) MAX_TEMPERATURE = false →
   (0 < j < COLUMNS_PER_MPI_PROCESS - 1 →
    cell (propagate t last) i j =
      PrimFloat.mul 0.25
        (PrimFloat.add
           (PrimFloat.add
              (PrimFloat.add (cell last (i - 1) j) (cell last (i + 1) j))
              (cell last i (j - 1)))
           (cell last i (j + 1)))) ∧
   (j = 0 →
    cell (propagate t last) i 0 =
      PrimFloat.div
        (PrimFloat.add
           (PrimFloat.add (cell last (i - 1) 0) (cell last (i + 1) 0))
           (cell last i 1))
        3) ∧
   (j = COLUMNS_PER_MPI_PROCESS - 1 →
    cell (propagate t last) i (COLUMNS_PER_MPI_PROCESS - 1) =
      PrimFloat.div
        (PrimFloat.add
           (PrimFloat.add (cell last (i - 1) (COLUMNS_PER_MPI_PROCESS - 1))
                          (cell last (i + 1) (COLUMNS_PER_MPI_PROCESS - 1)))
           (cell last i (COLUMNS_PER_MPI_PROCESS - 2)))
        3)) ∧
  (PrimFloat.eqb (cell t i j) MAX_TEMPERATURE = true →
   cell (propagate t last) i j = cell t i j).
Proof.
  intros Hs HC Hi Hj.
  pose proof (propagate_cell _ t last i j Hs ltac:(lia) HC Hi Hj) as Hcell.
  split.
  - intros Hg.
    apply not_max_true in Hg. rewrite Hg in Hcell. unfold stencil_value in Hcell.
    split; [|split].
    + intros Hmid. rewrite Hcell.
      destruct (Nat.eqb_spec j 0); [lia|].
      destruct (Nat.eqb_spec j (COLUMNS_PER_MPI_PROCESS - 1)); [lia|]. done.
    + intros ->. by rewrite Hcell.
    + intros ->. rewrite Hcell.
      destruct (Nat.eqb_spec (COLUMNS_PER_MPI_PROCESS - 1) 0); [lia|].
      by rewrite Nat.eqb_refl.
  - intros Hg. apply not_max_false in Hg. by rewrite Hg in Hcell.
Qed.

(** C10: the update tells a fixed-source cell by its value alone.  An owned
    cell is assigned its stencil value exactly when its value in
    [temperatures] does not compare equal to [MAX_TEMPERATURE]; and a cell
    that holds that value, however it came to hold it, keeps it through this
    and every later pass of the loop. *)
Theorem C10_fixed_source_by_value (ps : list process) (r : nat) (p : process)
    (i j : nat) :
  ps !! r = Some p →
  slab_shape (ROWS_PER_MPI_PROCESS + 2) COLUMNS_PER_MPI_PROCESS (temperatures p) →
  2 ≤ COLUMNS_PER_MPI_PROCESS →
  1 ≤ i ≤ ROWS_PER_MPI_PROCESS →
  j < COLUMNS_PER_MPI_PROCESS →
  (∀ last,
     cell (propagate (temperatures p) last) i j =
       if PrimFloat.eqb (cell (temperatures p) i j) MAX_TEMPERATURE
       then cell (temperatures p) i j
       else stencil_value last i j) ∧
  (PrimFloat.eqb (cell (temperatures p) i j) MAX_TEMPERATURE = true →
   ∀ n, ∃ p', run n ps !! r = Some p' ∧
              cell (temperatures p') i j = cell (temperatures p) i j).
Proof.
  intros Hp Hs HC Hi Hj. split.
  - intros last.
    rewrite (propagate_cell _ _ last i j Hs ltac:(lia) HC Hi Hj).
    unfold not_max, fne. by destruct (PrimFloat.eqb _ _).
  - intros Hg n. apply run_fixed; [done|]. by apply not_max_false.
Qed.

(** ** Blocks of rows *)

Lemma int_wrap_small z : (- 2 ^ 31 ≤ z ≤ INT_MAX)%Z → int_wrap z = z.
Proof.
  unfold int_wrap, INT_MAX. intros Hz.
  rewrite Z.mod_small; lia.
Qed.

Lemma chunk_first_row_nat (r : nat) :
  (Z.of_nat (r * ROWS_PER_MPI_PROCESS) ≤ INT_MAX)%Z →
  Z.to_nat (chunk_first_row (Z.of_nat r)) = r * ROWS_PER_MPI_PROCESS.
Proof.
  intros Hr. unfold chunk_first_row.
  rewrite int_wrap_small; [lia|]. unfold INT_MAX in *. lia.
Qed.

Lemma rows_from_lookup (t : slab) i n k :
  k < n → rows_from t i n !! k = t !! (i + k).
Proof.
  intros Hk. unfold rows_from. by rewrite lookup_take_lt, lookup_drop.
Qed.

Lemma rows_from_length (t : slab) i n :
  i + n ≤ length t → length (rows_from t i n) = n.
Proof. intros Hn. unfold rows_from. rewrite length_take, length_drop. lia. Qed.

Lemma rows_from_widths c (t : slab) i n :
  Forall (fun r => length r = c) t →
  Forall (fun r => length r = c) (rows_from t i n).
Proof.
  intros Ht. unfold rows_from. by apply Forall_take, Forall_drop.
Qed.

Lemma cell_rows_from (t : slab) i n k j :
  k < n → cell (rows_from t i n) k j = cell t (i + k) j.
Proof. intros Hk. unfold cell. by rewrite rows_from_lookup. Qed.

Lemma row_rows_from (t : slab) i n k :
  k < n → row (rows_from t i n) k = row t (i + k).
Proof. intros Hk. unfold row. by rewrite rows_from_lookup. Qed.

Lemma list_inserts_shape n c first (msg t : slab) :
  Forall (fun r => length r = c) msg →
  slab_shape n c t → slab_shape n c (list_inserts first msg t).
Proof.
  intros Hmsg [Hlen Hrows]. split.
  - by rewrite length_inserts.
  - by apply Forall_inserts.
Qed.

Lemma row_list_inserts_in first (msg t : slab) i :
  first ≤ i < first + length msg → i < length t →
  row (list_inserts first msg t) i = row msg (i - first).
Proof.
  intros Hi Hlen. unfold row. by rewrite list_lookup_inserts by lia.
Qed.

Lemma row_list_inserts_out first (msg t : slab) i :
  i < first ∨ first + length msg ≤ i →
  row (list_inserts first msg t) i = row t i.
Proof.
  intros [Hi|Hi]; unfold row.
  - by rewrite list_lookup_inserts_lt.
  - by rewrite list_lookup_inserts_ge.
Qed.

Lemma cell_list_inserts_in first (msg t : slab) i j :
  first ≤ i < first + length msg → i < length t →
  cell (list_inserts first msg t) i j = cell msg (i - first) j.
Proof. intros Hi Hlen. by rewrite !cell_row, row_list_inserts_in. Qed.

(** ** From the declarations to the loop *)

Lemma startup_lookup ps master r :
  ps !! 0 = Some master →
  startup ps !! r = (fun p => initial_copy (distributed master r p)) <$> ps !! r.
Proof.
  intros Hm. unfold startup. rewrite Hm.
  apply (list_lookup_imap (fun r p => initial_copy (distributed master r p))).
Qed.

Lemma startup_length ps master :
  ps !! 0 = Some master → length (startup ps) = length ps.
Proof. intros Hm. unfold startup. rewrite Hm. apply length_imap. Qed.

(** The chunk of rank [r] is in the owned rows of [temperatures_last]. *)
Lemma distributed_cell ps master r p k j :
  ps !! 0 = Some master → ps !! r = Some p →
  process_shape p →
  length (all_temperatures master) = length ps * ROWS_PER_MPI_PROCESS →
  (Z.of_nat (length ps * ROWS_PER_MPI_PROCESS) ≤ INT_MAX)%Z →
  k < ROWS_PER_MPI_PROCESS → j < COLUMNS_PER_MPI_PROCESS →
  cell (temperatures_last (distributed master r p)) (k + 1) j =
  cell (all_temperatures master) (r * ROWS_PER_MPI_PROCESS + k) j.
Proof.
  intros Hm Hp [Hst Hsl] Hall Hmax Hk Hj. unfold distributed.
  assert (Hr : r < length ps) by by eapply lookup_lt_Some.
  destruct (decide (r = 0)) as [->|Hr0].
  - assert (p = master) as -> by congruence. unfold copy_own_chunk. simpl.
    rewrite (copy_rows_cell (ROWS_PER_MPI_PROCESS + 2)); try done; try lia.
    f_equal. lia.
  - unfold deliver. simpl.
    assert (Hle : r * ROWS_PER_MPI_PROCESS + ROWS_PER_MPI_PROCESS
                  ≤ length ps * ROWS_PER_MPI_PROCESS) by nia.
    rewrite chunk_first_row_nat by lia.
    rewrite cell_list_inserts_in.
    + rewrite cell_rows_from by lia. f_equal. lia.
    + rewrite rows_from_length by lia. lia.
    + destruct Hsl as [-> _]. lia.
Qed.

Lemma distributed_shape master r p :
  Forall (fun row => length row = COLUMNS_PER_MPI_PROCESS) (all_temperatures master) →
  process_shape p → process_shape (distributed master r p).
Proof.
  intros Hall [Hst Hsl]. unfold distributed.
  destruct (decide (r = 0)); split; simpl; try done.
  - by apply copy_rows_shape.
  - apply list_inserts_shape; [|done]. by apply rows_from_widths.
Qed.

Lemma initial_copy_shape p : process_shape p → process_shape (initial_copy p).
Proof. intros [Hst Hsl]. split; simpl; [by apply copy_rows_shape|done]. Qed.

Lemma initial_copy_cell p i j :
  process_shape p →
  1 ≤ i ≤ ROWS_PER_MPI_PROCESS → j < COLUMNS_PER_MPI_PROCESS →
  cell (temperatures (initial_copy p)) i j = cell (temperatures_last p) i j.
Proof.
  intros [Hst Hsl] Hi Hj. simpl.
  rewrite (copy_rows_cell (ROWS_PER_MPI_PROCESS + 2)); try done; try lia.
  f_equal. lia.
Qed.

(** After the start-up, the owned rows of both slabs of rank [r] hold rows
    [r * ROWS_PER_MPI_PROCESS ..] of the initial condition. *)
Lemma startup_cell ps master r p k j :
  ps !! 0 = Some master → ps !! r = Some p →
  process_shape p →
  slab_shape (length ps * ROWS_PER_MPI_PROCESS) COLUMNS_PER_MPI_PROCESS
             (all_temperatures master) →
  (Z.of_nat (length ps * ROWS_PER_MPI_PROCESS) ≤ INT_MAX)%Z →
  k < ROWS_PER_MPI_PROCESS → j < COLUMNS_PER_MPI_PROCESS →
  cell (temperatures (initial_copy (distributed master r p))) (k + 1) j =
    cell (all_temperatures master) (r * ROWS_PER_MPI_PROCESS + k) j ∧
  cell (temperatures_last (initial_copy (distributed master r p))) (k + 1) j =
    cell (all_temperatures master) (r * ROWS_PER_MPI_PROCESS + k) j.
Proof.
  intros Hm Hp Hs [Hall Hwid] Hmax Hk Hj.
  assert (Hd := distributed_cell ps master r p k j Hm Hp Hs Hall Hmax Hk Hj).
  split; [|done].
  rewrite initial_copy_cell; [done| |lia|done].
  by apply distributed_shape.
Qed.

(** ** Fixed-source cells *)

(** C2: a cell of the initial condition that holds the fixed-source value
    [MAX_TEMPERATURE] holds that same value in [temperatures] of the rank that
    owns it, at its row of the slab, after the start-up and after any number
    of passes of the loop. *)
Theorem C2_fixed_source_cells_invariant (ps : list process) (master : process)
    (g j n : nat) :
  ps !! 0 = Some master →
  Forall process_shape ps →
  slab_shape (length ps * ROWS_PER_MPI_PROCESS) COLUMNS_PER_MPI_PROCESS
             (all_temperatures master) →
  (Z.of_nat (length ps * ROWS_PER_MPI_PROCESS) ≤ INT_MAX)%Z →
  g < length ps * ROWS_PER_MPI_PROCESS →
  j < COLUMNS_PER_MPI_PROCESS →
  PrimFloat.eqb (cell (all_temperatures master) g j) MAX_TEMPERATURE = true →
  ∃ p', run n (startup ps) !! (g / ROWS_PER_MPI_PROCESS) = Some p' ∧
        cell (temperatures p') (g mod ROWS_PER_MPI_PROCESS + 1) j =
          cell (all_temperatures master) g j.
Proof.
  intros Hm Hshape Hall Hmax Hg Hj Hfix.
  assert (Hrpp : ROWS_PER_MPI_PROCESS ≠ 0) by lia.
  set (r := g / ROWS_PER_MPI_PROCESS). set (k := g mod ROWS_PER_MPI_PROCESS).
  assert (Hgk : g = r * ROWS_PER_MPI_PROCESS + k).
  { unfold r, k. rewrite (Nat.div_mod g ROWS_PER_MPI_PROCESS) at 1 by done. lia. }
  assert (Hk : k < ROWS_PER_MPI_PROCESS) by by apply Nat.mod_upper_bound.
  assert (Hr : r < length ps).
  { apply Nat.Div0.div_lt_upper_bound. lia. }
  destruct (lookup_lt_is_Some_2 ps r Hr) as [p Hp].
  assert (Hps : process_shape p).
  { rewrite Forall_lookup in Hshape. by eapply Hshape. }
  destruct (startup_cell ps master r p k j Hm Hp Hps Hall Hmax Hk Hj) as [Hc _].
  rewrite <- Hgk in Hc.
  destruct (run_fixed n (startup ps) r (initial_copy (distributed master r p))
              (k + 1) j) as (p' & Hp' & Hc').
  - by rewrite (startup_lookup ps master r Hm), Hp.
  - apply not_max_false. by rewrite Hc.
  - exists p'. split; [done|]. by rewrite Hc'.
Qed.

(** ** The partition of the rows *)

Lemma up_neighbour_rank_spec (i : Z) :
  (0 ≤ i ≤ INT_MAX)%Z →
  up_neighbour_rank i = if decide (i = 0%Z) then MPI_PROC_NULL else (i - 1)%Z.
Proof.
  intros Hi. unfold up_neighbour_rank, FIRST_PROCESS_RANK.
  destruct (Z.eqb_spec i 0); destruct (decide (i = 0%Z)); try done.
  apply int_wrap_small. unfold INT_MAX in *. lia.
Qed.

Lemma down_neighbour_rank_spec (comm_size i : Z) :
  (0 ≤ i < comm_size)%Z → (comm_size ≤ INT_MAX)%Z →
  down_neighbour_rank comm_size i =
    if decide (i = (comm_size - 1)%Z) then MPI_PROC_NULL else (i + 1)%Z.
Proof.
  intros Hi Hmax. unfold down_neighbour_rank, LAST_PROCESS_RANK.
  rewrite (int_wrap_small (comm_size - 1)) by (unfold INT_MAX in *; lia).
  destruct (Z.eqb_spec i (comm_size - 1));
    destruct (decide (i = (comm_size - 1)%Z)); try done.
  apply int_wrap_small. unfold INT_MAX in *. lia.
Qed.

(** C3: with [W] ranks and [R] rows, [W] dividing [R] and
    [ROWS_PER_MPI_PROCESS = R / W], the chunk of rank [i] is the rows
    [i*R/W .. (i+1)*R/W - 1], its upper neighbour is [i - 1] (none for rank
    [0]) and its lower neighbour [i + 1] (none for rank [W - 1]); every row
    of [0 .. R-1] is in the chunk of exactly one rank. *)
Theorem C3_partition (R W : Z) :
  (0 < W ≤ INT_MAX)%Z →
  (0 ≤ R ≤ INT_MAX)%Z →
  (W | R)%Z →
  Z.of_nat ROWS_PER_MPI_PROCESS = (R / W)%Z →
  (∀ i : Z, (0 ≤ i < W)%Z →
     chunk_first_row i = (i * R / W)%Z ∧
     (chunk_first_row i + Z.of_nat ROWS_PER_MPI_PROCESS)%Z = ((i + 1) * R / W)%Z ∧
     up_neighbour_rank i =
       (if decide (i = 0%Z) then MPI_PROC_NULL else (i - 1)%Z) ∧
     down_neighbour_rank W i =
       (if decide (i = (W - 1)%Z) then MPI_PROC_NULL else (i + 1)%Z)) ∧
  (∀ g : Z, (0 ≤ g < R)%Z →
     ∃ i : Z,
       ((0 ≤ i < W)%Z ∧
        (chunk_first_row i ≤ g
         < chunk_first_row i + Z.of_nat ROWS_PER_MPI_PROCESS)%Z) ∧
       ∀ i' : Z,
         (0 ≤ i' < W)%Z →
         (chunk_first_row i' ≤ g
          < chunk_first_row i' + Z.of_nat ROWS_PER_MPI_PROCESS)%Z →
         i' = i).
Proof.
  intros HW HR [q Hq] Hrpp. subst R.
  rewrite Z.div_mul in Hrpp by lia.
  assert (Hfirst : ∀ i, (0 ≤ i < W)%Z →
            chunk_first_row i = (i * Z.of_nat ROWS_PER_MPI_PROCESS)%Z).
  { intros i Hi. unfold chunk_first_row. apply int_wrap_small.
    unfold INT_MAX in *. nia. }
  split.
  - intros i Hi. rewrite (Hfirst i Hi), Hrpp. repeat split.
    + replace (i * (q * W))%Z with (i * q * W)%Z by ring.
      by rewrite Z.div_mul by lia.
    + replace ((i + 1) * (q * W))%Z with ((i + 1) * q * W)%Z by ring.
      rewrite Z.div_mul by lia. ring.
    + apply up_neighbour_rank_spec. lia.
    + apply down_neighbour_rank_spec; lia.
  - intros g Hg.
    assert (Hqpos : (0 < q)%Z) by nia.
    exists (g / q)%Z.
    assert (Hlo : (q * (g / q) ≤ g)%Z) by (apply Z.mul_div_le; lia).
    assert (Hhi : (g < q * Z.succ (g / q))%Z) by (apply Z.mul_succ_div_gt; lia).
    assert (Hi : (0 ≤ g / q < W)%Z).
    { split; [apply Z.div_pos; lia|]. apply Z.div_lt_upper_bound; lia. }
    split.
    + split; [done|]. rewrite (Hfirst _ Hi), Hrpp. lia.
    + intros i' Hi'. rewrite (Hfirst _ Hi'), Hrpp. intros Hin.
      apply Z.le_antisymm.
      * apply Z.div_le_lower_bound; lia.
      * assert (g / q < i' + 1)%Z; [|lia].
        apply Z.div_lt_upper_bound; lia.
Qed.

(** ** Ghost rows *)

Lemma rows_from_length_le (t : slab) i n : length (rows_from t i n) ≤ n.
Proof. unfold rows_from. rewrite length_take. lia. Qed.

Lemma ghost_from_row_other ps source k first_row last i :
  i < first_row ∨ first_row + 1 ≤ i →
  row (ghost_from ps source k first_row last) i = row last i.
Proof.
  intros Hi. unfold ghost_from.
  destruct (source =? MPI_PROC_NULL)%Z; [done|].
  destruct (ps !! Z.to_nat source) as [q|]; [|done].
  apply row_list_inserts_out.
  pose proof (rows_from_length_le (temperatures q) k 1). lia.
Qed.

Lemma ghost_from_null ps k first_row last :
  ghost_from ps MPI_PROC_NULL k first_row last = last.
Proof. unfold ghost_from. by rewrite Z.eqb_refl. Qed.

Lemma ghost_from_shape ps source k first_row last :
  Forall process_shape ps →
  slab_shape (ROWS_PER_MPI_PROCESS + 2) COLUMNS_PER_MPI_PROCESS last →
  slab_shape (ROWS_PER_MPI_PROCESS + 2) COLUMNS_PER_MPI_PROCESS
             (ghost_from ps source k first_row last).
Proof.
  intros Hps Hs. unfold ghost_from.
  destruct (source =? MPI_PROC_NULL)%Z; [done|].
  destruct (ps !! Z.to_nat source) as [q|] eqn:Hq; [|done].
  apply list_inserts_shape; [|done]. apply rows_from_widths.
  rewrite Forall_lookup in Hps. by destruct (Hps _ _ Hq) as [[_ ?] _].
Qed.

Lemma exchanged_temperatures_last ps r n p :
  temperatures_last (exchanged ps r n p) =
  if 4 <=? n
  then ghost_from ps (up_neighbour_rank (Z.of_nat r)) ROWS_PER_MPI_PROCESS 0
         (if 2 <=? n
          then ghost_from ps
                 (down_neighbour_rank (Z.of_nat (length ps)) (Z.of_nat r))
                 1 (ROWS_PER_MPI_PROCESS + 1) (temperatures_last p)
          else temperatures_last p)
  else if 2 <=? n
       then ghost_from ps
              (down_neighbour_rank (Z.of_nat (length ps)) (Z.of_nat r))
              1 (ROWS_PER_MPI_PROCESS + 1) (temperatures_last p)
       else temperatures_last p.
Proof. reflexivity. Qed.

(** The exchange assigns the two ghost rows of [temperatures_last] only. *)
Lemma exchanged_row_owned ps r n p i :
  1 ≤ i ≤ ROWS_PER_MPI_PROCESS →
  row (temperatures_last (exchanged ps r n p)) i = row (temperatures_last p) i.
Proof.
  intros Hi. rewrite exchanged_temperatures_last.
  destruct (4 <=? n); destruct (2 <=? n);
    rewrite ?ghost_from_row_other by lia; done.
Qed.

Lemma exchanged_shape ps r n p :
  Forall process_shape ps → process_shape p →
  process_shape (exchanged ps r n p).
Proof.
  intros Hps [Hst Hsl]. split; [done|]. rewrite exchanged_temperatures_last.
  destruct (4 <=? n); destruct (2 <=? n);
    repeat apply ghost_from_shape; done.
Qed.

(** Rank [0] has no upper neighbour: its ghost row [0] is not assigned. *)
Lemma exchanged_top_row ps n p :
  row (temperatures_last (exchanged ps 0 n p)) 0 = row (temperatures_last p) 0.
Proof.
  rewrite exchanged_temperatures_last.
  change (up_neighbour_rank (Z.of_nat 0)) with MPI_PROC_NULL.
  destruct (4 <=? n); destruct (2 <=? n);
    rewrite ?ghost_from_null, ?ghost_from_row_other by lia; done.
Qed.

(** The last rank has no lower neighbour: its ghost row
    [ROWS_PER_MPI_PROCESS + 1] is not assigned. *)
Lemma exchanged_bottom_row ps r n p :
  (Z.of_nat (length ps) ≤ INT_MAX)%Z →
  S r = length ps →
  row (temperatures_last (exchanged ps r n p)) (ROWS_PER_MPI_PROCESS + 1) =
  row (temperatures_last p) (ROWS_PER_MPI_PROCESS + 1).
Proof.
  intros Hmax Hr. rewrite exchanged_temperatures_last.
  rewrite down_neighbour_rank_spec by lia.
  destruct (decide (Z.of_nat r = (Z.of_nat (length ps) - 1)%Z)); [|lia].
  destruct (4 <=? n); destruct (2 <=? n);
    rewrite ?ghost_from_null, ?ghost_from_row_other by lia; done.
Qed.

(** C4 (as the code has it): the ranks without an upper or a lower
    neighbour run the same update as every other rank.  Their rows [1] and
    [ROWS_PER_MPI_PROCESS] get the stencil value over [temperatures_last],
    ghost rows included, and the exchange has left the ghost row on the side
    of the missing neighbour as it was. *)
Theorem C4_edge_ranks_uniform_stencil (ps : list process) (r : nat) (p : process)
    (j : nat) :
  ps !! r = Some p →
  process_shape p →
  (Z.of_nat (length ps) ≤ INT_MAX)%Z →
  1 ≤ ROWS_PER_MPI_PROCESS →
  2 ≤ COLUMNS_PER_MPI_PROCESS →
  j < COLUMNS_PER_MPI_PROCESS →
  ∃ p', loop_pass ps !! r = Some p' ∧
    let last := temperatures_last (exchanged ps r 4 p) in
    (r = 0 →
       row last 0 = row (temperatures_last p) 0 ∧
       (PrimFloat.eqb (cell (temperatures p) 1 j) MAX_TEMPERATURE = false →
        cell (temperatures p') 1 j = stencil_value last 1 j)) ∧
    (S r = length ps →
       row last (ROWS_PER_MPI_PROCESS + 1) =
         row (temperatures_last p) (ROWS_PER_MPI_PROCESS + 1) ∧
       (PrimFloat.eqb (cell (temperatures p) ROWS_PER_MPI_PROCESS j)
                      MAX_TEMPERATURE = false →
        cell (temperatures p') ROWS_PER_MPI_PROCESS j =
          stencil_value last ROWS_PER_MPI_PROCESS j)).
Proof.
  intros Hp [Hst Hsl] Hmax HR HC Hj.
  destruct (loop_pass_temperatures ps r p Hp) as (p' & Hp' & Ht).
  exists p'. split; [done|]. cbv zeta. split.
  - intros ->. split; [apply exchanged_top_row|].
    intros Hg. rewrite Ht.
    rewrite (propagate_cell _ _ _ 1 j Hst) by lia.
    apply not_max_true in Hg. by rewrite Hg.
  - intros Hr. split; [by apply exchanged_bottom_row|].
    intros Hg. rewrite Ht.
    rewrite (propagate_cell _ _ _ ROWS_PER_MPI_PROCESS j Hst) by lia.
    apply not_max_true in Hg. by rewrite Hg.
Qed.

(** ** What the start-up leaves in the slabs *)

Lemma distributed_ghost_rows master r p i :
  i = 0 ∨ i = ROWS_PER_MPI_PROCESS + 1 →
  row (temperatures_last (distributed master r p)) i = row (temperatures_last p) i ∧
  temperatures (distributed master r p) = temperatures p.
Proof.
  intros Hi. unfold distributed. destruct (decide (r = 0)).
  - split; [|done]. simpl. apply copy_rows_row_outside. lia.
  - split; [|done]. unfold deliver. simpl. apply row_list_inserts_out.
    pose proof (rows_from_length_le (all_temperatures master)
                  (Z.to_nat (chunk_first_row (Z.of_nat r))) ROWS_PER_MPI_PROCESS).
    lia.
Qed.

(** C5 (as the code has it): the slabs are declared without an initialiser,
    so the start-up begins from whatever they hold.  It gives both slabs
    their declared shape back, fills the owned rows of both with the rank's
    chunk of the initial condition, and leaves the two ghost rows of both
    slabs as they were at the declaration: nothing sets them to zero. *)
Theorem C5_slabs_not_initialised (ps : list process) (master : process)
    (r : nat) (p : process) :
  ps !! 0 = Some master →
  ps !! r = Some p →
  process_shape p →
  slab_shape (length ps * ROWS_PER_MPI_PROCESS) COLUMNS_PER_MPI_PROCESS
             (all_temperatures master) →
  (Z.of_nat (length ps * ROWS_PER_MPI_PROCESS) ≤ INT_MAX)%Z →
  ∃ p', startup ps !! r = Some p' ∧
    process_shape p' ∧
    (∀ k j, k < ROWS_PER_MPI_PROCESS → j < COLUMNS_PER_MPI_PROCESS →
       cell (temperatures p') (k + 1) j =
         cell (all_temperatures master) (r * ROWS_PER_MPI_PROCESS + k) j ∧
       cell (temperatures_last p') (k + 1) j =
         cell (all_temperatures master) (r * ROWS_PER_MPI_PROCESS + k) j) ∧
    (∀ i, i = 0 ∨ i = ROWS_PER_MPI_PROCESS + 1 →
       row (temperatures p') i = row (temperatures p) i ∧
       row (temperatures_last p') i = row (temperatures_last p) i).
Proof.
  intros Hm Hp Hs Hall Hmax.
  exists (initial_copy (distributed master r p)). split; [|split; [|split]].
  - by rewrite (startup_lookup ps master r Hm), Hp.
  - apply initial_copy_shape, distributed_shape; [apply Hall|done].
  - intros k j Hk Hj. by apply (startup_cell ps).
  - intros i Hi.
    destruct (distributed_ghost_rows master r p i Hi) as [Hrow Ht].
    split; [|done]. simpl. rewrite copy_rows_row_outside by lia. by rewrite Ht.
Qed.

(** ** The snapshot *)

Lemma gather_block_length ps buf r :
  length (gather_block ps buf r) = length buf.
Proof. unfold gather_block. destruct (ps !! r); [apply length_inserts|done]. Qed.

Lemma gather_prefix_length ps buf n :
  length (foldl (gather_block ps) buf (seq 0 n)) = length buf.
Proof.
  induction n as [|n IH]; [done|].
  rewrite seq_S, foldl_app. simpl. by rewrite gather_block_length.
Qed.

Lemma gather_prefix_lookup ps buf n r q k :
  (∀ r q, ps !! r = Some q → length (temperatures q) = ROWS_PER_MPI_PROCESS + 2) →
  n ≤ length ps →
  length buf = length ps * ROWS_PER_MPI_PROCESS →
  r < n → ps !! r = Some q → k < ROWS_PER_MPI_PROCESS →
  foldl (gather_block ps) buf (seq 0 n) !! (r * ROWS_PER_MPI_PROCESS + k) =
  temperatures q !! (k + 1).
Proof.
  intros Hlen Hn Hbuf Hr Hq Hk. induction n as [|n IH]; [lia|].
  rewrite seq_S, foldl_app. simpl. unfold gather_block at 1.
  destruct (lookup_lt_is_Some_2 ps n ltac:(lia)) as [qn Hqn]. rewrite Hqn.
  assert (Hblock : length (rows_from (temperatures qn) 1 ROWS_PER_MPI_PROCESS)
                   = ROWS_PER_MPI_PROCESS).
  { apply rows_from_length. rewrite (Hlen _ _ Hqn). lia. }
  destruct (decide (r = n)) as [->|Hne].
  - rewrite list_lookup_inserts.
    + assert (qn = q) as -> by congruence.
      replace (n * ROWS_PER_MPI_PROCESS + k - n * ROWS_PER_MPI_PROCESS) with k by lia.
      rewrite rows_from_lookup by done. f_equal. lia.
    + rewrite Hblock. lia.
    + rewrite gather_prefix_length, Hbuf. nia.
  - rewrite list_lookup_inserts_lt by nia. apply IH; lia.
Qed.

Lemma MPI_Gather_lookup ps buf r q k :
  (∀ r q, ps !! r = Some q → length (temperatures q) = ROWS_PER_MPI_PROCESS + 2) →
  length buf = length ps * ROWS_PER_MPI_PROCESS →
  ps !! r = Some q → k < ROWS_PER_MPI_PROCESS →
  row (MPI_Gather ps buf) (r * ROWS_PER_MPI_PROCESS + k) = row (temperatures q) (k + 1).
Proof.
  intros Hlen Hbuf Hq Hk. unfold row, MPI_Gather.
  rewrite (gather_prefix_lookup ps buf (length ps) r q k); try done.
  by eapply lookup_lt_Some.
Qed.

(** C9 (as the code has it): the gather of the pass with
    [iteration_count = 0] comes after subtasks 2 and 3 of that pass
    ([iteration_count % SNAPSHOT_INTERVAL] is defined for a non-zero
    interval).  The master's [snapshot] then holds, at row [r * ROWS_PER_MPI_PROCESS + k],
    the owned row [k + 1] of rank [r] as the first update left it. *)
Theorem C9_first_snapshot_after_update (ps : list process) (master : process) :
  SNAPSHOT_INTERVAL ≠ 0%Z →
  ps !! 0 = Some master →
  Forall process_shape ps →
  length (snapshot master) = length ps * ROWS_PER_MPI_PROCESS →
  ∃ m', loop_pass (startup ps) !! 0 = Some m' ∧
    ∀ r q0 k,
      startup ps !! r = Some q0 →
      k < ROWS_PER_MPI_PROCESS →
      row (snapshot m') (r * ROWS_PER_MPI_PROCESS + k) =
      row (propagate (temperatures q0)
                     (temperatures_last (exchanged (startup ps) r 4 q0)))
          (k + 1).
Proof.
  intros _ Hm Hshape Hsnap.
  set (qs := startup ps).
  set (xs := relax <$> exchange_ghost_cells qs).
  assert (Hq0 : qs !! 0 = Some (initial_copy (distributed master 0 master))).
  { unfold qs. by rewrite (startup_lookup ps master 0 Hm), Hm. }
  eexists. split.
  { rewrite loop_pass_lookup, Hq0. reflexivity. }
  intros r q0 k Hr Hk.
  unfold next_iteration, snapshot_taken. simpl.
  assert (Hlen : length xs = length ps).
  { unfold xs, exchange_ghost_cells, qs.
    by rewrite length_fmap, length_imap, (startup_length ps master). }
  fold qs. fold xs.
  rewrite (MPI_Gather_lookup xs _ r (relax (exchanged qs r 4 q0)) k).
  - done.
  - intros r' q' Hq'. unfold xs in Hq'.
    rewrite list_lookup_fmap, exchange_ghost_cells_lookup in Hq'.
    destruct (qs !! r') as [q1|] eqn:Hq1; [|done]. simpl in Hq'.
    injection Hq' as <-. rewrite relax_temperatures, exchanged_temperatures.
    unfold qs in Hq1. rewrite (startup_lookup ps master r' Hm) in Hq1.
    destruct (ps !! r') as [p1|] eqn:Hp1; [|done]. injection Hq1 as <-.
    rewrite Forall_lookup in Hshape. destruct (Hshape _ _ Hp1) as [Hst _].
    by destruct (propagate_shape (ROWS_PER_MPI_PROCESS + 2)
                   COLUMNS_PER_MPI_PROCESS
                   (temperatures (initial_copy (distributed master r' p1)))
                   (temperatures_last
                      (exchanged qs r' 4 (initial_copy (distributed master r' p1))))
                   ltac:(simpl; apply copy_rows_shape;
                         by destruct (distributed_ghost_rows master r' p1 0
                                        ltac:(by left)) as [_ ->])).
  - rewrite Hlen. unfold distributed. simpl. done.
  - unfold xs. rewrite list_lookup_fmap, exchange_ghost_cells_lookup.
    fold qs in Hr. by rewrite Hr.
  - done.
Qed.

(** ** Message passing: every step completes at least one call *)

Lemma sum_list_insert (l : list nat) i x y :
  l !! i = Some x → sum_list (<[i := y]> l) + x = sum_list l + y.
Proof.
  revert i. induction l as [|a l IH]; intros [|i] Hi; simplify_eq/=; [lia|].
  specialize (IH _ Hi). lia.
Qed.

Lemma calls_done_insert m r s s' :
  m !! r = Some s →
  calls_done (<[r := s']> m) + pc s = calls_done m + pc s'.
Proof.
  intros Hr. unfold calls_done. rewrite list_fmap_insert.
  apply sum_list_insert. by rewrite list_lookup_fmap, Hr.
Qed.

Lemma calls_done_advance m :
  calls_done (advance <$> m) = calls_done m + length m.
Proof.
  unfold calls_done. induction m as [|s m IH]; [done|]. csimpl in *. lia.
Qed.

Lemma step_calls_done program m m' :
  step program m m' → calls_done m < calls_done m'.
Proof.
  intros Hstep. destruct Hstep as
    [m r s f Hr _ | m r s buf Hr _ | m r s first_row Hr _
    | m a b sa sb buf first_row Hab Ha Hb _ _ | m Hm _].
  - pose proof (calls_done_insert m r s (RankState (f (mem s)) (S (pc s))) Hr).
    simpl in *. lia.
  - pose proof (calls_done_insert m r s (advance s) Hr). simpl in *. lia.
  - pose proof (calls_done_insert m r s (advance s) Hr). simpl in *. lia.
  - pose proof (calls_done_insert m a sa (advance sa) Ha) as H1.
    assert (Hb' : <[a := advance sa]> m !! b = Some sb)
      by by rewrite list_lookup_insert_ne.
    pose proof (calls_done_insert _ b sb
                  (RankState (deliver first_row (buf (mem sa)) (mem sb)) (S (pc sb)))
                  Hb') as H2.
    simpl in *. lia.
  - rewrite calls_done_advance. destruct m; [done|]. simpl. lia.
Qed.

Lemma nsteps_calls_done program n m m' :
  nsteps (step program) n m m' → calls_done m + n ≤ calls_done m'.
Proof.
  induction 1 as [|n x y z Hxy _ IH]; [lia|].
  apply step_calls_done in Hxy. lia.
Qed.

(** ** The exchange of ghost rows as a protocol *)

Section Exchange.

Variable ps : list process.
Hypothesis Hnull : (MPI_PROC_NULL < 0)%Z.
Hypothesis Hsize : (Z.of_nat (length ps) ≤ INT_MAX)%Z.

Lemma up_rank r :
  r < length ps →
  up_neighbour_rank (Z.of_nat r) =
    if decide (r = 0) then MPI_PROC_NULL else Z.of_nat (r - 1).
Proof.
  intros Hr. rewrite up_neighbour_rank_spec by lia.
  destruct (decide (Z.of_nat r = 0%Z)), (decide (r = 0)); try lia; done.
Qed.

Lemma down_rank r :
  r < length ps →
  down_neighbour_rank (Z.of_nat (length ps)) (Z.of_nat r) =
    if decide (S r = length ps) then MPI_PROC_NULL else Z.of_nat (S r).
Proof.
  intros Hr. rewrite down_neighbour_rank_spec by lia.
  destruct (decide (Z.of_nat r = (Z.of_nat (length ps) - 1)%Z)),
           (decide (S r = length ps)); try lia; done.
Qed.

Lemma up_rank_null r :
  r < length ps → up_neighbour_rank (Z.of_nat r) = MPI_PROC_NULL → r = 0.
Proof. intros Hr. rewrite up_rank by done. case_decide; [done|lia]. Qed.

Lemma up_rank_some r b :
  r < length ps → up_neighbour_rank (Z.of_nat r) = Z.of_nat b → r = S b.
Proof. intros Hr. rewrite up_rank by done. case_decide; lia. Qed.

Lemma down_rank_null r :
  r < length ps →
  down_neighbour_rank (Z.of_nat (length ps)) (Z.of_nat r) = MPI_PROC_NULL →
  S r = length ps.
Proof. intros Hr. rewrite down_rank by done. case_decide; [done|lia]. Qed.

Lemma down_rank_some r b :
  r < length ps →
  down_neighbour_rank (Z.of_nat (length ps)) (Z.of_nat r) = Z.of_nat b →
  b = S r ∧ S r < length ps.
Proof. intros Hr. rewrite down_rank by done. case_decide; lia. Qed.

(** The four calls, by index. *)
Lemma exchange_program_lookup r n c :
  exchange_program (length ps) r !! n = Some c →
  (n = 0 ∧ c = MPI_Ssend (fun p => rows_from (temperatures p) 1 1)
                         (up_neighbour_rank (Z.of_nat r))) ∨
  (n = 1 ∧ c = MPI_Recv (ROWS_PER_MPI_PROCESS + 1)
                        (down_neighbour_rank (Z.of_nat (length ps)) (Z.of_nat r))) ∨
  (n = 2 ∧ c = MPI_Ssend (fun p => rows_from (temperatures p) ROWS_PER_MPI_PROCESS 1)
                         (down_neighbour_rank (Z.of_nat (length ps)) (Z.of_nat r))) ∨
  (n = 3 ∧ c = MPI_Recv 0 (up_neighbour_rank (Z.of_nat r))).
Proof.
  unfold exchange_program, exchange_calls.
  destruct n as [|[|[|[|n]]]]; simpl; intros [= <-]; auto 6.
Qed.

Lemma exchange_program_length r : length (exchange_program (length ps) r) = 4.
Proof. reflexivity. Qed.

(** The memory of a rank along its four calls. *)
Lemma exchanged_0 r p : exchanged ps r 0 p = p.
Proof. by destruct p. Qed.

Lemma exchanged_same r n n' p :
  (2 <=? n) = (2 <=? n') → (4 <=? n) = (4 <=? n') →
  exchanged ps r n p = exchanged ps r n' p.
Proof. intros H2 H4. unfold exchanged. by rewrite H2, H4. Qed.

Lemma exchanged_null_down r p :
  r < length ps → S r = length ps → exchanged ps r 2 p = exchanged ps r 1 p.
Proof.
  intros Hr Hlast. unfold exchanged. simpl.
  rewrite down_rank by done. case_decide; [|done]. by rewrite ghost_from_null.
Qed.

Lemma exchanged_null_up p : 0 < length ps → exchanged ps 0 4 p = exchanged ps 0 3 p.
Proof.
  intros Hr. unfold exchanged. simpl.
  rewrite (up_rank 0) by done. simpl. by rewrite ghost_from_null.
Qed.

Lemma ghost_from_rank r q k first_row last :
  ps !! r = Some q →
  ghost_from ps (Z.of_nat r) k first_row last =
  list_inserts first_row (rows_from (temperatures q) k 1) last.
Proof.
  intros Hq. unfold ghost_from.
  destruct (Z.eqb_spec (Z.of_nat r) MPI_PROC_NULL); [lia|].
  by rewrite Nat2Z.id, Hq.
Qed.

Lemma exchanged_recv_down r p q :
  ps !! S r = Some q →
  deliver (ROWS_PER_MPI_PROCESS + 1) (rows_from (temperatures q) 1 1)
          (exchanged ps r 1 p)
  = exchanged ps r 2 p.
Proof.
  intros Hq. assert (Hr : S r < length ps) by by eapply lookup_lt_Some.
  unfold exchanged, deliver. simpl.
  rewrite down_rank by lia. case_decide; [lia|].
  by rewrite (ghost_from_rank (S r) q).
Qed.

Lemma exchanged_recv_up r p q :
  ps !! r = Some q → S r < length ps →
  deliver 0 (rows_from (temperatures q) ROWS_PER_MPI_PROCESS 1)
          (exchanged ps (S r) 3 p)
  = exchanged ps (S r) 4 p.
Proof.
  intros Hq Hr. unfold exchanged, deliver. simpl.
  rewrite (up_rank (S r)) by lia. simpl. rewrite Nat.sub_0_r.
  by rewrite (ghost_from_rank r q).
Qed.

(** States of the exchange. *)
Lemma exchange_at_lookup f r :
  exchange_at ps f !! r =
  (fun p => RankState (exchanged ps r (f r) p) (f r)) <$> ps !! r.
Proof.
  unfold exchange_at.
  apply (list_lookup_imap (fun r p => RankState (exchanged ps r (f r) p) (f r))).
Qed.

Lemma exchange_at_lookup_Some f r s :
  exchange_at ps f !! r = Some s →
  ∃ p, ps !! r = Some p ∧ r < length ps ∧
       s = RankState (exchanged ps r (f r) p) (f r).
Proof.
  rewrite exchange_at_lookup. destruct (ps !! r) as [p|] eqn:Hp; [|done].
  intros [= <-]. exists p. split; [done|]. split; [|done].
  by eapply lookup_lt_Some.
Qed.

Lemma exchange_at_length f : length (exchange_at ps f) = length ps.
Proof. unfold exchange_at. apply length_imap. Qed.

Lemma exchange_at_insert f r p n :
  ps !! r = Some p →
  <[r := RankState (exchanged ps r n p) n]> (exchange_at ps f) =
  exchange_at ps (<[r := n]> f).
Proof.
  intros Hp. apply list_eq. intros i.
  rewrite list_lookup_insert, !exchange_at_lookup, exchange_at_length.
  destruct (decide (r = i ∧ r < length ps)) as [[-> _]|Hne].
  - by rewrite Hp, fn_lookup_insert.
  - assert (r ≠ i).
    { intros ->. apply Hne. split; [done|]. by eapply lookup_lt_Some. }
    by rewrite fn_lookup_insert_ne.
Qed.

Lemma launch_exchange_at : launch ps = exchange_at ps (fun _ => 0).
Proof.
  apply list_eq. intros i. unfold launch.
  rewrite list_lookup_fmap, exchange_at_lookup.
  destruct (ps !! i); [|done]. simpl. by rewrite exchanged_0.
Qed.

Lemma in_step_launch : in_step (length ps) (fun _ => 0).
Proof. split; intros; lia. Qed.

Lemma exchange_at_advance f r p :
  ps !! r = Some p →
  exchanged ps r (S (f r)) p = exchanged ps r (f r) p →
  <[r := advance (RankState (exchanged ps r (f r) p) (f r))]> (exchange_at ps f) =
  exchange_at ps (<[r := S (f r)]> f).
Proof.
  intros Hp Hsame. unfold advance. simpl. rewrite <- Hsame.
  by apply exchange_at_insert.
Qed.

(** [in_step] survives the advance of the ranks of one step. *)
Ltac in_step_tac Hin :=
  destruct Hin as [Hbound Hpair]; split; intros k Hk;
  [ pose proof (Hbound k Hk)
  | pose proof (Hpair k Hk); pose proof (Hbound k ltac:(lia));
    pose proof (Hbound (S k) Hk) ];
  unfold insert, fn_insert; repeat case_decide; subst; lia.

(** One step of the exchange leads from one state [exchange_at] to another,
    and keeps the neighbours in step. *)
Lemma exchange_step f m' :
  in_step (length ps) f →
  step (exchange_program (length ps)) (exchange_at ps f) m' →
  ∃ f', m' = exchange_at ps f' ∧ in_step (length ps) f'.
Proof.
  intros Hin Hstep.
  inversion Hstep as
    [m r s g Hr Hc | m r s buf Hr Hc | m r s first_row Hr Hc
    | m a b sa sb buf first_row Hab Ha Hb Hca Hcb | m Hne Hall]; subst.
  - (* no local computation in the exchange *)
    apply exchange_at_lookup_Some in Hr as (p & Hp & Hlt & ->).
    apply exchange_program_lookup in Hc as [[_ ?]|[[_ ?]|[[_ ?]|[_ ?]]]]; done.
  - (* a send to nobody *)
    apply exchange_at_lookup_Some in Hr as (p & Hp & Hlt & ->). simpl in Hc.
    apply exchange_program_lookup in Hc
      as [[Hn Hc]|[[_ ?]|[[Hn Hc]|[_ ?]]]]; try done;
      injection Hc as _ Hpeer; symmetry in Hpeer.
    + apply up_rank_null in Hpeer as ->; [|done].
      exists (<[0 := S (f 0)]> f). split.
      * apply exchange_at_advance; [done|]. apply exchanged_same; by rewrite Hn.
      * in_step_tac Hin.
    + apply down_rank_null in Hpeer; [|done].
      exists (<[r := S (f r)]> f). split.
      * apply exchange_at_advance; [done|]. apply exchanged_same; by rewrite Hn.
      * in_step_tac Hin.
  - (* a receive from nobody *)
    apply exchange_at_lookup_Some in Hr as (p & Hp & Hlt & ->). simpl in Hc.
    apply exchange_program_lookup in Hc
      as [[_ ?]|[[Hn Hc]|[[_ ?]|[Hn Hc]]]]; try done;
      injection Hc as _ Hpeer; symmetry in Hpeer.
    + apply down_rank_null in Hpeer; [|done].
      exists (<[r := S (f r)]> f). split.
      * apply exchange_at_advance; [done|]. rewrite Hn.
        by apply exchanged_null_down.
      * in_step_tac Hin.
    + apply up_rank_null in Hpeer as ->; [|done].
      exists (<[0 := S (f 0)]> f). split.
      * apply exchange_at_advance; [done|]. rewrite Hn.
        apply exchanged_null_up. lia.
      * in_step_tac Hin.
  - (* a row goes from [a] to [b] *)
    apply exchange_at_lookup_Some in Ha as (pa & Hpa & Hlta & ->).
    apply exchange_at_lookup_Some in Hb as (pb & Hpb & Hltb & ->).
    simpl in Hca, Hcb.
    apply exchange_program_lookup in Hca
      as [[Hna Hca]|[[_ ?]|[[Hna Hca]|[_ ?]]]]; try done;
      injection Hca as -> Hdest; symmetry in Hdest;
      apply exchange_program_lookup in Hcb
        as [[_ ?]|[[Hnb Hcb]|[[_ ?]|[Hnb Hcb]]]]; try done;
      injection Hcb as -> Hsrc; symmetry in Hsrc.
    + (* row [1] of [a] into the lower ghost row of [b = a - 1] *)
      apply up_rank_some in Hdest as ->; [|done].
      exists (<[b := S (f b)]> (<[S b := S (f (S b))]> f)). split.
      * rewrite exchange_at_advance;
          [|done|apply exchanged_same; by rewrite Hna].
        cbn [mem pc]. rewrite exchanged_temperatures, Hnb.
        rewrite (exchanged_recv_down b pb pa Hpa).
        by rewrite <- (exchange_at_insert (<[S b := S (f (S b))]> f) b pb 2 Hpb).
      * in_step_tac Hin.
    + (* both would have to be above the other *)
      apply up_rank_some in Hdest; [|done].
      apply up_rank_some in Hsrc; [|done]. lia.
    + (* both would have to be below the other *)
      apply down_rank_some in Hdest; [|done].
      apply down_rank_some in Hsrc; [|done]. lia.
    + (* row [ROWS_PER_MPI_PROCESS] of [a] into the upper ghost row of [b = a + 1] *)
      apply down_rank_some in Hdest as [-> Hlt]; [|done].
      exists (<[S a := S (f (S a))]> (<[a := S (f a)]> f)). split.
      * rewrite exchange_at_advance;
          [|done|apply exchanged_same; by rewrite Hna].
        cbn [mem pc]. rewrite exchanged_temperatures, Hnb.
        rewrite (exchanged_recv_up a pb pa Hpa Hlt).
        by rewrite <- (exchange_at_insert (<[a := S (f a)]> f) (S a) pb 4 Hpb).
      * in_step_tac Hin.
  - (* no barrier in the exchange *)
    destruct (exchange_at ps f) as [|s m] eqn:Hm; [done|].
    assert (Hs : exchange_at ps f !! 0 = Some s) by by rewrite Hm.
    specialize (Hall 0 s ltac:(by rewrite <- Hm)).
    apply exchange_program_lookup in Hall as [[_ ?]|[[_ ?]|[[_ ?]|[_ ?]]]]; done.
Qed.

Lemma exchange_reachable m :
  rtc (step (exchange_program (length ps))) (launch ps) m →
  ∃ f, m = exchange_at ps f ∧ in_step (length ps) f.
Proof.
  revert m. apply rtc_ind_r.
  - exists (fun _ => 0). split; [apply launch_exchange_at|apply in_step_launch].
  - intros y z _ Hstep (f & -> & Hin). by apply (exchange_step f).
Qed.

Lemma exchange_finished f :
  finished (exchange_program (length ps)) (exchange_at ps f) ↔
  ∀ r, r < length ps → f r = 4.
Proof.
  unfold finished. split.
  - intros Hfin r Hr. destruct (lookup_lt_is_Some_2 ps r Hr) as [p Hp].
    apply (Hfin r (RankState (exchanged ps r (f r) p) (f r))).
    by rewrite exchange_at_lookup, Hp.
  - intros Hall r s (p & Hp & Hr & ->)%exchange_at_lookup_Some. simpl.
    by apply Hall.
Qed.

(** A rank that waits in its second or third call can be served, or one of
    the ranks below it can move. *)
Lemma exchange_chain f d k :
  in_step (length ps) f →
  k + d + 1 = length ps →
  f k = 1 ∨ f k = 2 →
  ∃ m', step (exchange_program (length ps)) (exchange_at ps f) m'.
Proof.
  intros Hin. revert k. induction d as [|d IH]; intros k Hk Hfk.
  - (* the last rank: its second and third calls have no peer *)
    destruct (lookup_lt_is_Some_2 ps k ltac:(lia)) as [p Hp].
    assert (Hdown : down_neighbour_rank (Z.of_nat (length ps)) (Z.of_nat k)
                    = MPI_PROC_NULL).
    { rewrite down_rank by lia. case_decide; [done|lia]. }
    destruct Hfk as [Hfk|Hfk]; eexists.
    + eapply (step_recv_null _ _ k).
      * by rewrite exchange_at_lookup, Hp.
      * simpl. rewrite Hfk. simpl. by rewrite Hdown.
    + eapply (step_send_null _ _ k).
      * by rewrite exchange_at_lookup, Hp.
      * simpl. rewrite Hfk. simpl. by rewrite Hdown.
  - destruct (lookup_lt_is_Some_2 ps k ltac:(lia)) as [p Hp].
    destruct (lookup_lt_is_Some_2 ps (S k) ltac:(lia)) as [q Hq].
    assert (Hdown : down_neighbour_rank (Z.of_nat (length ps)) (Z.of_nat k)
                    = Z.of_nat (S k)).
    { rewrite down_rank by lia. case_decide; [lia|done]. }
    assert (Hup : up_neighbour_rank (Z.of_nat (S k)) = Z.of_nat k).
    { rewrite up_rank by lia. simpl. by rewrite Nat.sub_0_r. }
    destruct Hin as [Hbound Hpair].
    pose proof (Hpair k ltac:(lia)) as [H12 H34].
    pose proof (Hbound (S k) ltac:(lia)) as Hb.
    destruct Hfk as [Hfk|Hfk].
    + (* rank [k] waits for the row of rank [k + 1], which is about to send it *)
      assert (Hfq : f (S k) = 0) by lia.
      eexists. eapply (step_transfer _ _ (S k) k); [lia| | | |].
      * by rewrite exchange_at_lookup, Hq.
      * by rewrite exchange_at_lookup, Hp.
      * simpl. rewrite Hfq. simpl. by rewrite Hup.
      * simpl. rewrite Hfk. simpl. by rewrite Hdown.
    + destruct (decide (f (S k) = 3)) as [Hfq|Hfq].
      * (* rank [k + 1] is ready to receive the row of rank [k] *)
        eexists. eapply (step_transfer _ _ k (S k)); [lia| | | |].
        -- by rewrite exchange_at_lookup, Hp.
        -- by rewrite exchange_at_lookup, Hq.
        -- simpl. rewrite Hfk. simpl. by rewrite Hdown.
        -- simpl. rewrite Hfq. simpl. by rewrite Hup.
      * (* rank [k + 1] waits in its turn *)
        apply (IH (S k)); [lia|lia].
Qed.

(** No state of the exchange is a deadlock. *)
Lemma exchange_progress f :
  in_step (length ps) f →
  (∀ r, r < length ps → f r = 4) ∨
  ∃ m', step (exchange_program (length ps)) (exchange_at ps f) m'.
Proof.
  intros Hin. destruct (decide (length ps = 0)) as [Hz|Hz]; [left; lia|].
  assert (Hlen : 0 < length ps) by lia.
  destruct (lookup_lt_is_Some_2 ps 0 Hlen) as [p0 Hp0].
  assert (Hup : up_neighbour_rank (Z.of_nat 0) = MPI_PROC_NULL)
    by by rewrite up_rank.
  pose proof Hin as [Hbound Hpair].
  pose proof (Hbound 0 Hlen) as Hb0.
  destruct (decide (f 0 = 4)) as [H4|H4].
  - left. intros r. induction r as [|r IHr]; intros Hr; [done|].
    specialize (IHr ltac:(lia)).
    pose proof (Hpair r Hr). pose proof (Hbound (S r) Hr). lia.
  - right. destruct (decide (f 0 = 0)) as [H0|H0];
      [|destruct (decide (f 0 = 3)) as [H3|H3]].
    + eexists. eapply (step_send_null _ _ 0).
      * by rewrite exchange_at_lookup, Hp0.
      * simpl. rewrite H0. simpl. by rewrite Hup.
    + eexists. eapply (step_recv_null _ _ 0).
      * by rewrite exchange_at_lookup, Hp0.
      * simpl. rewrite H3. simpl. by rewrite Hup.
    + apply (exchange_chain f (length ps - 1) 0); [done|lia|lia].
Qed.

Lemma calls_done_bound m n :
  Forall (fun s => pc s ≤ n) m → calls_done m ≤ n * length m.
Proof.
  unfold calls_done. induction 1 as [|s m Hs _ IH]; csimpl in *; lia.
Qed.

Lemma exchange_calls_done f :
  in_step (length ps) f → calls_done (exchange_at ps f) ≤ 4 * length ps.
Proof.
  intros [Hbound _]. rewrite <- (exchange_at_length f).
  apply calls_done_bound, Forall_lookup.
  intros r s (p & Hp & Hr & ->)%exchange_at_lookup_Some. simpl. by apply Hbound.
Qed.

(** Every state of the exchange can be run to the end. *)
Lemma exchange_completes f :
  in_step (length ps) f →
  ∃ m', rtc (step (exchange_program (length ps))) (exchange_at ps f) m' ∧
        finished (exchange_program (length ps)) m'.
Proof.
  remember (4 * length ps - calls_done (exchange_at ps f)) as n eqn:Hn.
  revert f Hn. induction n as [n IH] using lt_wf_ind. intros f Hn Hin.
  destruct (exchange_progress f Hin) as [Hall|[m1 Hstep]].
  - exists (exchange_at ps f). split; [done|]. by apply exchange_finished.
  - destruct (exchange_step f m1 Hin Hstep) as (f1 & -> & Hin1).
    pose proof (step_calls_done _ _ _ Hstep).
    pose proof (exchange_calls_done f1 Hin1).
    destruct (IH (4 * length ps - calls_done (exchange_at ps f1)) ltac:(lia)
                 f1 eq_refl Hin1) as (m' & Hrun & Hfin).
    exists m'. split; [|done]. by eapply rtc_l.
Qed.

(** What a completed exchange leaves in memory. *)
Lemma exchange_result f :
  (∀ r, r < length ps → f r = 4) →
  mem <$> exchange_at ps f = exchange_ghost_cells ps.
Proof.
  intros Hall. apply list_eq. intros r.
  rewrite list_lookup_fmap, exchange_at_lookup, exchange_ghost_cells_lookup.
  destruct (ps !! r) as [p|] eqn:Hp; [|done]. simpl.
  rewrite Hall; [done|]. by eapply lookup_lt_Some.
Qed.

End Exchange.

(** The ghost rows after the exchange, for slabs of the declared shape. *)
Lemma exchanged_lower_ghost_row ps r p q :
  (MPI_PROC_NULL < 0)%Z → (Z.of_nat (length ps) ≤ INT_MAX)%Z →
  Forall process_shape ps →
  ps !! r = Some p → ps !! S r = Some q →
  row (temperatures_last (exchanged ps r 4 p)) (ROWS_PER_MPI_PROCESS + 1) =
  row (temperatures q) 1.
Proof.
  intros Hnull Hsize Hshape Hp Hq.
  assert (Hr : S r < length ps) by by eapply lookup_lt_Some.
  rewrite Forall_lookup in Hshape.
  destruct (Hshape _ _ Hp) as [_ [Hlp _]]. destruct (Hshape _ _ Hq) as [[Hlq _] _].
  rewrite exchanged_temperatures_last. simpl.
  rewrite ghost_from_row_other by lia.
  rewrite down_rank by (done || lia). case_decide; [lia|].
  rewrite (ghost_from_rank ps Hnull (S r) q) by done.
  rewrite row_list_inserts_in.
  - rewrite Nat.sub_diag, row_rows_from by lia. done.
  - rewrite rows_from_length by lia. lia.
  - lia.
Qed.

Lemma exchanged_upper_ghost_row ps r p q :
  (MPI_PROC_NULL < 0)%Z → (Z.of_nat (length ps) ≤ INT_MAX)%Z →
  Forall process_shape ps →
  ps !! S r = Some p → ps !! r = Some q →
  row (temperatures_last (exchanged ps (S r) 4 p)) 0 =
  row (temperatures q) ROWS_PER_MPI_PROCESS.
Proof.
  intros Hnull Hsize Hshape Hp Hq.
  assert (Hr : S r < length ps) by by eapply lookup_lt_Some.
  rewrite Forall_lookup in Hshape.
  destruct (Hshape _ _ Hp) as [_ Hsl]. destruct (Hshape _ _ Hq) as [[Hlq _] _].
  rewrite exchanged_temperatures_last. simpl.
  rewrite (up_rank ps Hsize (S r)) by done. simpl. rewrite Nat.sub_0_r.
  rewrite (ghost_from_rank ps Hnull r q) by done.
  rewrite row_list_inserts_in.
  - rewrite row_rows_from by lia. f_equal. lia.
  - rewrite rows_from_length by lia. lia.
  - assert (Hs := ghost_from_shape ps
                    (down_neighbour_rank (Z.of_nat (length ps)) (Z.of_nat (S r)))
                    1 (ROWS_PER_MPI_PROCESS + 1) (temperatures_last p)
                    ltac:(by apply Forall_lookup) Hsl).
    destruct Hs as [-> _]. lia.
Qed.

(** C6: the exchange of one pass, as the four calls of every rank.  It runs
    to completion, and however its steps interleave it ends with
    [temperatures] and the owned rows of [temperatures_last] untouched, with
    row [1] of the lower neighbour's [temperatures] in the ghost row
    [ROWS_PER_MPI_PROCESS + 1] of [temperatures_last] and row
    [ROWS_PER_MPI_PROCESS] of the upper neighbour's in the ghost row [0]; a
    ghost row on the side of a missing neighbour is as it was, and a call on
    [MPI_PROC_NULL] completes at once whatever the other ranks do. *)
Theorem C6_halo_exchange (ps : list process) :
  (MPI_PROC_NULL < 0)%Z →
  (Z.of_nat (length ps) ≤ INT_MAX)%Z →
  Forall process_shape ps →
  (∃ m, rtc (step (exchange_program (length ps))) (launch ps) m ∧
        finished (exchange_program (length ps)) m) ∧
  (∀ m, rtc (step (exchange_program (length ps))) (launch ps) m →
        finished (exchange_program (length ps)) m →
     ∀ r p, ps !! r = Some p →
       ∃ p', mem <$> m !! r = Some p' ∧
         temperatures p' = temperatures p ∧
         (∀ i, 1 ≤ i ≤ ROWS_PER_MPI_PROCESS →
            row (temperatures_last p') i = row (temperatures_last p) i) ∧
         (∀ q, ps !! S r = Some q →
            row (temperatures_last p') (ROWS_PER_MPI_PROCESS + 1) =
            row (temperatures q) 1) ∧
         (∀ r' q, r = S r' → ps !! r' = Some q →
            row (temperatures_last p') 0 =
            row (temperatures q) ROWS_PER_MPI_PROCESS) ∧
         (r = 0 →
            row (temperatures_last p') 0 = row (temperatures_last p) 0) ∧
         (S r = length ps →
            row (temperatures_last p') (ROWS_PER_MPI_PROCESS + 1) =
            row (temperatures_last p) (ROWS_PER_MPI_PROCESS + 1))) ∧
  (∀ m r s c,
     m !! r = Some s →
     exchange_program (length ps) r !! pc s = Some c →
     call_peer c = Some MPI_PROC_NULL →
     step (exchange_program (length ps)) m (<[r := advance s]> m)).
Proof.
  intros Hnull Hsize Hshape. split; [|split].
  - rewrite (launch_exchange_at ps).
    apply (exchange_completes ps Hnull Hsize), in_step_launch.
  - intros m Hrun Hfin r p Hp.
    destruct (exchange_reachable ps Hnull Hsize m Hrun) as (f & -> & Hin).
    pose proof (proj1 (exchange_finished ps f) Hfin) as Hall.
    exists (exchanged ps r 4 p). split.
    { rewrite <- list_lookup_fmap, (exchange_result ps f Hall).
      by rewrite exchange_ghost_cells_lookup, Hp. }
    split; [done|]. split; [intros i Hi; by apply exchanged_row_owned|].
    split; [intros q Hq; by apply exchanged_lower_ghost_row|].
    split; [intros r' q -> Hq; by apply (exchanged_upper_ghost_row ps r' p q)|].
    split; [intros ->; apply exchanged_top_row|].
    intros Hr. by apply exchanged_bottom_row.
  - intros m r s c Hr Hc Hpeer.
    destruct c as [buf dest|first_row source| |g]; simplify_eq/=.
    + by eapply step_send_null.
    + by eapply step_recv_null.
Qed.

(** C7 (as the code has it): the exchange is made of blocking synchronous
    sends and blocking receives, and still it cannot deadlock, for any number
    of ranks: a state reached from the start of the exchange is complete or
    has a next step, it can always be run to completion, and no run has more
    than [4 * comm_size] steps. *)
Theorem C7_blocking_exchange_deadlock_free (ps : list process)
    (m : list rank_state) :
  (MPI_PROC_NULL < 0)%Z →
  (Z.of_nat (length ps) ≤ INT_MAX)%Z →
  rtc (step (exchange_program (length ps))) (launch ps) m →
  (finished (exchange_program (length ps)) m ∨
   ∃ m', step (exchange_program (length ps)) m m') ∧
  (∃ m', rtc (step (exchange_program (length ps))) m m' ∧
         finished (exchange_program (length ps)) m') ∧
  (∀ n, nsteps (step (exchange_program (length ps))) n (launch ps) m →
        n ≤ 4 * length ps).
Proof.
  intros Hnull Hsize Hrun.
  destruct (exchange_reachable ps Hnull Hsize m Hrun) as (f & -> & Hin).
  split; [|split].
  - destruct (exchange_progress ps Hnull Hsize f Hin) as [Hall|Hstep].
    + left. by apply exchange_finished.
    + by right.
  - by apply exchange_completes.
  - intros n Hn. apply nsteps_calls_done in Hn.
    pose proof (exchange_calls_done ps f Hin). lia.
Qed.

(** ** The barrier before the loop *)

Lemma master_distribution_length comm_size my_rank :
  length (master_distribution comm_size my_rank) = Z.to_nat comm_size.
Proof. unfold master_distribution. by rewrite length_fmap, length_seq. Qed.

Lemma master_distribution_no_barrier comm_size my_rank n :
  master_distribution comm_size my_rank !! n ≠ Some MPI_Barrier.
Proof.
  unfold master_distribution. rewrite list_lookup_fmap.
  destruct (seq 0 (Z.to_nat comm_size) !! n) as [i|]; [|done]. simpl.
  by destruct (Z.of_nat i =? my_rank)%Z.
Qed.

(** The calls of [main] up to the loop, by index: what comes before the
    initial copy has the length that [loop_entry] counts and no barrier. *)
Lemma main_program_split comm_size r :
  ∃ dist,
    main_program true comm_size r =
      MPI_Barrier :: dist ++ Work initial_copy :: MPI_Barrier ::
      exchange_calls (Z.of_nat comm_size) (Z.of_nat r) ++ [Work relax] ∧
    loop_entry true comm_size r = length dist + 3 ∧
    ∀ n, dist !! n ≠ Some MPI_Barrier.
Proof.
  unfold main_program, main_calls, loop_entry.
  destruct (Z.eqb_spec (Z.of_nat r) MASTER_PROCESS_RANK) as [Hr|Hr];
    unfold MASTER_PROCESS_RANK in Hr.
  - exists (master_distribution (Z.of_nat comm_size) (Z.of_nat r)).
    split; [done|]. split.
    + rewrite master_distribution_length, Nat2Z.id.
      destruct (decide (r = 0)); lia.
    + apply master_distribution_no_barrier.
  - exists [MPI_Recv 1 MASTER_PROCESS_RANK]. split; [done|]. split.
    + destruct (decide (r = 0)); simpl; lia.
    + by intros [|[|n]].
Qed.

Lemma main_program_barrier comm_size r n :
  main_program true comm_size r !! n = Some MPI_Barrier →
  n = 0 ∨ S n = loop_entry true comm_size r.
Proof.
  destruct (main_program_split comm_size r) as (dist & -> & -> & Hdist).
  destruct n as [|n]; [by left|]. simpl. intros H. right.
  rewrite lookup_app in H.
  destruct (dist !! n) as [c|] eqn:Hc.
  - simplify_eq. by destruct (Hdist n).
  - apply lookup_ge_None in Hc.
    destruct (n - length dist) as [|[|k]] eqn:Hk; simpl in H; [done|lia|].
    destruct k as [|[|[|[|[|k]]]]]; simpl in H; done.
Qed.

Lemma main_program_first comm_size r :
  main_program true comm_size r !! 0 = Some MPI_Barrier.
Proof. by destruct (main_program_split comm_size r) as (dist & -> & _). Qed.

Lemma main_program_second comm_size r n :
  S n = loop_entry true comm_size r →
  main_program true comm_size r !! n = Some MPI_Barrier.
Proof.
  destruct (main_program_split comm_size r) as (dist & -> & -> & _).
  intros Hn. destruct n as [|n]; [lia|]. simpl.
  rewrite lookup_app_r by lia.
  by replace (n - length dist) with 1 by lia.
Qed.

(** A rank that completes a call other than a barrier stays in its phase. *)
Lemma together_insert comm_size m r s c s' :
  together comm_size m →
  m !! r = Some s →
  main_program true comm_size r !! pc s = Some c →
  c ≠ MPI_Barrier →
  pc s' = S (pc s) →
  together comm_size (<[r := s']> m).
Proof.
  intros Hphase Hr Hc Hnb Hpc.
  assert (Hcase : ∀ P : nat → rank_state → Prop,
            (∀ r0 s0, m !! r0 = Some s0 → P r0 s0) → P r s' →
            ∀ r0 s0, <[r := s']> m !! r0 = Some s0 → P r0 s0).
  { intros P Hall Hnew r0 s0 [(-> & <- & _)|[_ Hold]]%list_lookup_insert_Some;
      [done|by apply Hall]. }
  destruct Hphase as [H0|[H1|H2]].
  - specialize (H0 r s Hr). rewrite H0, main_program_first in Hc. congruence.
  - right. left. apply Hcase; [done|]. specialize (H1 r s Hr).
    destruct (decide (S (pc s) = loop_entry true comm_size r)) as [Heq|Hne].
    + rewrite (main_program_second _ _ _ Heq) in Hc. congruence.
    + lia.
  - right. right. apply Hcase; [done|]. specialize (H2 r s Hr). lia.
Qed.

Lemma together_step comm_size m m' :
  together comm_size m →
  step (main_program true comm_size) m m' →
  together comm_size m'.
Proof.
  intros Hphase Hstep. destruct Hstep as
    [m r s f Hr Hc | m r s buf Hr Hc | m r s first_row Hr Hc
    | m a b sa sb buf first_row Hab Ha Hb Hca Hcb | m Hne Hall].
  - by eapply together_insert.
  - by eapply together_insert.
  - by eapply together_insert.
  - eapply together_insert; [eapply together_insert| | | |]; try done.
    by rewrite list_lookup_insert_ne.
  - assert (Hat : ∀ r s, m !! r = Some s →
              pc s = 0 ∨ S (pc s) = loop_entry true comm_size r).
    { intros r s Hr. by apply main_program_barrier, Hall. }
    assert (Hle : ∀ r, 3 ≤ loop_entry true comm_size r).
    { intros r. destruct (main_program_split comm_size r) as (d & _ & -> & _).
      lia. }
    destruct Hphase as [H0|[H1|H2]].
    + right. left. intros r s Hr. rewrite list_lookup_fmap in Hr.
      destruct (m !! r) as [s0|] eqn:Hs0; [|done]. simplify_eq/=.
      rewrite (H0 r s0 Hs0). specialize (Hle r). lia.
    + right. right. intros r s Hr. rewrite list_lookup_fmap in Hr.
      destruct (m !! r) as [s0|] eqn:Hs0; [|done]. simplify_eq/=.
      specialize (H1 r s0 Hs0). specialize (Hat r s0 Hs0). lia.
    + right. right. intros r s Hr. rewrite list_lookup_fmap in Hr.
      destruct (m !! r) as [s0|] eqn:Hs0; [|done]. simplify_eq/=.
      specialize (H2 r s0 Hs0). lia.
Qed.

(** X1: with the barrier compiled in (the sibling variant of [gpu.c]): once
    any rank is in the loop, every rank is, so every rank has received its chunk
    and made its initial copy. *)
Theorem barrier_keeps_ranks_together (ps : list process) (m : list rank_state)
    (r r' : nat) (s s' : rank_state) :
  rtc (step (main_program true (length ps))) (launch ps) m →
  m !! r = Some s →
  m !! r' = Some s' →
  loop_entry true (length ps) r ≤ pc s →
  loop_entry true (length ps) r' ≤ pc s'.
Proof.
  intros Hrun Hr Hr' Hin.
  assert (Hphase : together (length ps) m).
  { clear Hr Hr' Hin. revert m Hrun. apply rtc_ind_r.
    - left. intros r0 s0 Hs0. unfold launch in Hs0.
      rewrite list_lookup_fmap in Hs0.
      destruct (ps !! r0); by simplify_eq/=.
    - intros y z _ Hstep Hy. by eapply together_step. }
  destruct Hphase as [H0|[H1|H2]].
  - specialize (H0 r s Hr). unfold loop_entry in Hin. lia.
  - specialize (H1 r s Hr). lia.
  - by apply H2.
Qed.

(** ** Two more facts about a pass *)

(** X2: a single rank has no neighbour at all: its exchange changes nothing. *)
Theorem single_rank_exchange_is_noop (p : process) :
  up_neighbour_rank 0 = MPI_PROC_NULL ∧
  down_neighbour_rank 1 0 = MPI_PROC_NULL ∧
  exchange_ghost_cells [p] = [p].
Proof.
  split; [done|]. split; [done|].
  unfold exchange_ghost_cells, exchanged. simpl.
  change (down_neighbour_rank 1 0) with MPI_PROC_NULL.
  change (up_neighbour_rank 0) with MPI_PROC_NULL.
  rewrite !ghost_from_null. by destruct p.
Qed.

(** X3: after a pass, the owned rows of [temperatures_last] repeat those of
    [temperatures]: subtask 3 has copied them back. *)
Theorem loop_pass_copies_back (ps : list process) (r : nat) (p' : process)
    (i j : nat) :
  Forall process_shape ps →
  loop_pass ps !! r = Some p' →
  1 ≤ i ≤ ROWS_PER_MPI_PROCESS →
  j < COLUMNS_PER_MPI_PROCESS →
  cell (temperatures_last p') i j = cell (temperatures p') i j.
Proof.
  intros Hshape Hp' Hi Hj. rewrite loop_pass_lookup in Hp'.
  destruct (ps !! r) as [p|] eqn:Hp; [|done]. simplify_eq/=.
  rewrite Forall_lookup in Hshape. pose proof (Hshape _ _ Hp) as Hps.
  assert (Hx := exchanged_shape ps r 4 p ltac:(by apply Forall_lookup) Hps).
  destruct Hx as [_ Hxl].
  unfold next_iteration, snapshot_taken.
  repeat case_match; simpl;
    apply (relax_temperatures_last_cell (ROWS_PER_MPI_PROCESS + 2)
             (exchanged ps r 4 p)); try done; lia.
Qed.

(** ** One pass, cell by cell *)

Lemma relax_temperatures_last_row_outside p i :
  ¬ (1 ≤ i ≤ ROWS_PER_MPI_PROCESS) →
  row (temperatures_last (relax p)) i = row (temperatures_last p) i.
Proof.
  intros Hi. unfold relax. simpl. rewrite track_changes_last.
  apply sweep_row_untouched.
  intros [i' j'] Hk%elem_of_owned_cells. simpl. lia.
Qed.

Lemma relax_shape p : process_shape p → process_shape (relax p).
Proof.
  intros [Hst Hsl]. split.
  - rewrite relax_temperatures. by apply propagate_shape.
  - by apply relax_temperatures_last_shape.
Qed.

Lemma loop_pass_shape ps : Forall process_shape ps → Forall process_shape (loop_pass ps).
Proof.
  intros Hps. apply Forall_lookup. intros r p' Hp'.
  rewrite loop_pass_lookup in Hp'.
  destruct (ps !! r) as [p|] eqn:Hp; [|done]. simplify_eq/=.
  assert (Hx : process_shape (relax (exchanged ps r 4 p))).
  { apply relax_shape, exchanged_shape; [done|].
    rewrite Forall_lookup in Hps. by eapply Hps. }
  unfold next_iteration, snapshot_taken. by repeat case_match.
Qed.

Lemma run_shape n ps : Forall process_shape ps → Forall process_shape (run n ps).
Proof.
  intros Hps. induction n as [|n IH]; [done|].
  rewrite run_S. by apply loop_pass_shape.
Qed.

(** What a pass does to rank [r], in terms of its memory after the exchange. *)
Lemma loop_pass_rank ps r p :
  Forall process_shape ps →
  2 ≤ COLUMNS_PER_MPI_PROCESS →
  ps !! r = Some p →
  ∃ p', loop_pass ps !! r = Some p' ∧
    (∀ i j, 1 ≤ i ≤ ROWS_PER_MPI_PROCESS → j < COLUMNS_PER_MPI_PROCESS →
       cell (temperatures p') i j =
         (if not_max (cell (temperatures p) i j)
          then stencil_value (temperatures_last (exchanged ps r 4 p)) i j
          else cell (temperatures p) i j) ∧
       cell (temperatures_last p') i j = cell (temperatures p') i j) ∧
    (∀ i, ¬ (1 ≤ i ≤ ROWS_PER_MPI_PROCESS) →
       row (temperatures_last p') i =
         row (temperatures_last (exchanged ps r 4 p)) i ∧
       row (temperatures p') i = row (temperatures p) i).
Proof.
  intros Hps HC Hp.
  assert (Hshape : process_shape p).
  { rewrite Forall_lookup in Hps. by eapply Hps. }
  pose proof (exchanged_shape ps r 4 p Hps Hshape) as [Hxt Hxl].
  exists (next_iteration
            (snapshot_taken (relax <$> exchange_ghost_cells ps) r
               (relax (exchanged ps r 4 p)))).
  split; [by rewrite loop_pass_lookup, Hp|].
  assert (Ht : ∀ q, temperatures
                      (next_iteration
                         (snapshot_taken (relax <$> exchange_ghost_cells ps) r q))
                    = temperatures q).
  { intros q. unfold next_iteration, snapshot_taken. by repeat case_match. }
  assert (Hl : ∀ q, temperatures_last
                      (next_iteration
                         (snapshot_taken (relax <$> exchange_ghost_cells ps) r q))
                    = temperatures_last q).
  { intros q. unfold next_iteration, snapshot_taken. by repeat case_match. }
  rewrite Ht, Hl. split.
  - intros i j Hi Hj. split.
    + rewrite relax_temperatures, exchanged_temperatures.
      apply (propagate_cell (ROWS_PER_MPI_PROCESS + 2)); try done; try lia.
    + apply (relax_temperatures_last_cell (ROWS_PER_MPI_PROCESS + 2));
        try done; lia.
  - intros i Hi. split.
    + by apply relax_temperatures_last_row_outside.
    + rewrite relax_temperatures, exchanged_temperatures.
      by apply propagate_row_outside.
Qed.

(** ** The ranks together against one process alone *)

(** After the exchange, [temperatures_last] of rank [r], ghost rows included,
    is the window [r * ROWS_PER_MPI_PROCESS ..] of the other's. *)
Lemma split_window ps whole r p i j :
  (MPI_PROC_NULL < 0)%Z →
  (Z.of_nat (length ps) ≤ INT_MAX)%Z →
  Forall process_shape ps →
  1 ≤ ROWS_PER_MPI_PROCESS →
  settled (length ps * ROWS_PER_MPI_PROCESS) whole →
  split_of ps whole →
  ps !! r = Some p →
  i ≤ ROWS_PER_MPI_PROCESS + 1 → j < COLUMNS_PER_MPI_PROCESS →
  cell (temperatures_last (exchanged ps r 4 p)) i j =
  cell (temperatures_last whole) (r * ROWS_PER_MPI_PROCESS + i) j.
Proof.
  intros Hnull Hsize Hshape HR Hset Hsplit Hp Hi Hj.
  assert (Hr : r < length ps) by by eapply lookup_lt_Some.
  destruct (Hsplit r p Hp) as (Hown & Htop & Hbot).
  destruct (decide (1 ≤ i ≤ ROWS_PER_MPI_PROCESS)) as [Hin|Hout].
  - rewrite !cell_row, exchanged_row_owned, <- !cell_row by done.
    by apply Hown.
  - destruct (decide (i = 0)) as [->|Hi0].
    + destruct r as [|r'].
      * rewrite !cell_row, exchanged_top_row, <- !cell_row.
        by rewrite Htop.
      * destruct (lookup_lt_is_Some_2 ps r' ltac:(lia)) as [q Hq].
        rewrite !cell_row, (exchanged_upper_ghost_row ps r' p q), <- !cell_row
          by done.
        destruct (Hsplit r' q Hq) as (Hown' & _ & _).
        destruct (Hown' ROWS_PER_MPI_PROCESS j ltac:(lia) Hj) as [-> _].
        rewrite <- Hset by (done || nia). f_equal. lia.
    + assert (i = ROWS_PER_MPI_PROCESS + 1) as -> by lia.
      destruct (decide (S r = length ps)) as [Hlast|Hlast].
      * rewrite !cell_row, exchanged_bottom_row, <- !cell_row by done.
        rewrite Hbot by done. f_equal. nia.
      * destruct (lookup_lt_is_Some_2 ps (S r) ltac:(lia)) as [q Hq].
        rewrite !cell_row, (exchanged_lower_ghost_row ps r p q), <- !cell_row
          by done.
        destruct (Hsplit (S r) q Hq) as (Hown' & _ & _).
        destruct (Hown' 1 j ltac:(lia) Hj) as [-> _].
        rewrite <- Hset by (done || nia). f_equal. lia.
Qed.

Lemma split_stencil_value ps whole r p i j :
  (MPI_PROC_NULL < 0)%Z →
  (Z.of_nat (length ps) ≤ INT_MAX)%Z →
  Forall process_shape ps →
  2 ≤ COLUMNS_PER_MPI_PROCESS →
  settled (length ps * ROWS_PER_MPI_PROCESS) whole →
  split_of ps whole →
  ps !! r = Some p →
  1 ≤ i ≤ ROWS_PER_MPI_PROCESS → j < COLUMNS_PER_MPI_PROCESS →
  stencil_value (temperatures_last (exchanged ps r 4 p)) i j =
  stencil_value (temperatures_last whole) (r * ROWS_PER_MPI_PROCESS + i) j.
Proof.
  intros Hnull Hsize Hshape HC Hset Hsplit Hp Hi Hj.
  assert (Hw : ∀ i' j', i' ≤ ROWS_PER_MPI_PROCESS + 1 → j' < COLUMNS_PER_MPI_PROCESS →
             cell (temperatures_last (exchanged ps r 4 p)) i' j' =
             cell (temperatures_last whole) (r * ROWS_PER_MPI_PROCESS + i') j').
  { intros i' j' Hi' Hj'. apply split_window; try done; lia. }
  unfold stencil_value, left_value, right_value, middle_value.
  replace (r * ROWS_PER_MPI_PROCESS + i - 1)
    with (r * ROWS_PER_MPI_PROCESS + (i - 1)) by lia.
  replace (r * ROWS_PER_MPI_PROCESS + i + 1)
    with (r * ROWS_PER_MPI_PROCESS + (i + 1)) by lia.
  destruct (Nat.eqb_spec j 0) as [->|Hj0];
    [|destruct (Nat.eqb_spec j (COLUMNS_PER_MPI_PROCESS - 1)) as [->|Hj1]];
    rewrite !Hw by lia; done.
Qed.

Lemma exchanged_single n p : exchanged [p] 0 n p = p.
Proof.
  unfold exchanged. cbv zeta.
  change (down_neighbour_rank (Z.of_nat (length [p])) (Z.of_nat 0))
    with MPI_PROC_NULL.
  change (up_neighbour_rank (Z.of_nat 0)) with MPI_PROC_NULL.
  destruct (4 <=? n); destruct (2 <=? n); rewrite ?ghost_from_null; by destruct p.
Qed.

Lemma loop_pass_single p : ∃ p', loop_pass [p] = [p'].
Proof.
  pose proof (loop_pass_length [p]) as Hlen.
  destruct (loop_pass [p]) as [|p' [|p'' l]]; try done. by exists p'.
Qed.

(** ** What the passes leave alone, and what they count *)

Lemma loop_pass_all_temperatures ps r p p' :
  ps !! r = Some p → loop_pass ps !! r = Some p' →
  all_temperatures p' = all_temperatures p.
Proof.
  intros Hp Hp'. rewrite loop_pass_lookup, Hp in Hp'. simplify_eq/=.
  unfold snapshot_taken. by repeat case_match.
Qed.

Lemma loop_pass_iteration_count ps r p p' :
  ps !! r = Some p → loop_pass ps !! r = Some p' →
  iteration_count p' = int_wrap (iteration_count p + 1).
Proof.
  intros Hp Hp'. rewrite loop_pass_lookup, Hp in Hp'. simplify_eq/=.
  unfold snapshot_taken. by repeat case_match.
Qed.

Lemma run_lookup_S n ps r p' :
  run (S n) ps !! r = Some p' →
  ∃ p, run n ps !! r = Some p ∧ loop_pass (run n ps) !! r = Some p'.
Proof.
  rewrite run_S. intros Hp'.
  destruct (run n ps !! r) as [p|] eqn:Hp.
  - by exists p.
  - apply lookup_lt_Some in Hp'. apply lookup_ge_None in Hp.
    rewrite loop_pass_length in Hp'. lia.
Qed.

Lemma run_iteration_count n ps r p p' :
  ps !! r = Some p → run n ps !! r = Some p' →
  (0 ≤ iteration_count p)%Z → (iteration_count p + Z.of_nat n ≤ INT_MAX)%Z →
  iteration_count p' = (iteration_count p + Z.of_nat n)%Z.
Proof.
  intros Hp. revert p'. induction n as [|n IH]; intros p' Hp' H0 Hmax.
  - simpl in Hp'. simplify_eq. lia.
  - apply run_lookup_S in Hp' as (p1 & Hp1 & Hp').
    rewrite (loop_pass_iteration_count _ _ _ _ Hp1 Hp'), (IH p1 Hp1 H0) by lia.
    rewrite int_wrap_small; unfold INT_MAX in *; lia.
Qed.

Lemma startup_iteration_count ps r p :
  startup ps !! r = Some p → iteration_count p = 0%Z.
Proof.
  unfold startup. destruct (ps !! 0) as [master|]; [|done].
  rewrite (list_lookup_imap (fun r p => initial_copy (distributed master r p))).
  destruct (ps !! r); [|done]. by intros [= <-].
Qed.

(** X5: no pass writes outside the owned rows of [temperatures], and none
    writes [all_temperatures].  The exchange fills the ghost rows of
    [temperatures_last] only, the kernels assign the rows
    [1..ROWS_PER_MPI_PROCESS] only: after any number of passes the two ghost
    rows of [temperatures] and the whole of [all_temperatures] are, on every
    rank, what they were when the loop was entered. *)
Theorem passes_write_owned_rows_only (n : nat) (ps : list process) (r : nat)
    (p p' : process) (i : nat) :
  ps !! r = Some p →
  run n ps !! r = Some p' →
  ¬ (1 ≤ i ≤ ROWS_PER_MPI_PROCESS) →
  row (temperatures p') i = row (temperatures p) i ∧
  all_temperatures p' = all_temperatures p.
Proof.
  intros Hp Hp' Hi. revert p' Hp'. induction n as [|n IH]; intros p' Hp'.
  - simpl in Hp'. by simplify_eq.
  - apply run_lookup_S in Hp' as (p1 & Hp1 & Hp').
    destruct (IH p1 Hp1) as [Hrow Hall]. split.
    + destruct (loop_pass_temperatures _ _ _ Hp1) as (p2 & Hp2 & Ht).
      assert (p2 = p') as -> by congruence.
      by rewrite Ht, propagate_row_outside.
    + by rewrite (loop_pass_all_temperatures _ _ _ _ Hp1 Hp').
Qed.

Lemma run_startup_iteration_count n ps r p' :
  (Z.of_nat n ≤ INT_MAX)%Z →
  run n (startup ps) !! r = Some p' →
  iteration_count p' = Z.of_nat n.
Proof.
  intros Hn Hp'.
  destruct (startup ps !! r) as [p|] eqn:Hp.
  - pose proof (startup_iteration_count _ _ _ Hp) as H0.
    rewrite (run_iteration_count n _ r p p' Hp Hp'); lia.
  - apply lookup_lt_Some in Hp'. apply lookup_ge_None in Hp.
    rewrite run_length in Hp'. lia.
Qed.

(** X6: the ranks count the passes together.  Every rank leaves the start-up
    with [iteration_count = 0] and adds one per pass, so after [n] passes
    (as many as an [int] can count) every rank holds [n]: the test
    [iteration_count % SNAPSHOT_INTERVAL == 0] has the same outcome on all
    ranks, and the summary prints the number of passes made. *)
Theorem ranks_count_passes (n : nat) (ps : list process) (r : nat) (p' : process) :
  (Z.of_nat n ≤ INT_MAX)%Z →
  run n (startup ps) !! r = Some p' →
  iteration_count p' = Z.of_nat n.
Proof. apply run_startup_iteration_count. Qed.

(** ** The snapshot through the passes *)

Lemma loop_pass_snapshot ps m m' :
  ps !! 0 = Some m → loop_pass ps !! 0 = Some m' →
  snapshot m' =
    if (Z.rem (iteration_count m) SNAPSHOT_INTERVAL =? 0)%Z
    then MPI_Gather (relax <$> exchange_ghost_cells ps) (snapshot m)
    else snapshot m.
Proof.
  intros Hm Hm'. rewrite loop_pass_lookup, Hm in Hm'. simplify_eq/=.
  unfold snapshot_taken. destruct (decide (0 = 0)); [|done].
  change (iteration_count (relax (exchanged ps 0 4 m))) with (iteration_count m).
  by destruct (Z.rem _ _ =? 0)%Z.
Qed.

Lemma MPI_Gather_length ps buf : length (MPI_Gather ps buf) = length buf.
Proof. apply gather_prefix_length. Qed.

Lemma run_snapshot_length n ps m m' :
  ps !! 0 = Some m → run n ps !! 0 = Some m' →
  length (snapshot m') = length (snapshot m).
Proof.
  intros Hm. revert m'. induction n as [|n IH]; intros m' Hm'.
  - simpl in Hm'. by simplify_eq.
  - apply run_lookup_S in Hm' as (m1 & Hm1 & Hm').
    rewrite (loop_pass_snapshot _ _ _ Hm1 Hm'), <- (IH m1 Hm1).
    destruct (Z.rem _ _ =? 0)%Z; [apply MPI_Gather_length|done].
Qed.

Lemma startup_snapshot ps master m :
  ps !! 0 = Some master → startup ps !! 0 = Some m → snapshot m = snapshot master.
Proof.
  intros Hm. rewrite (startup_lookup ps master 0 Hm), Hm. by intros [= <-].
Qed.

(** [iteration_count % SNAPSHOT_INTERVAL == 0] in pass [n]. *)
Lemma snapshot_pass n :
  (0 < SNAPSHOT_INTERVAL)%Z →
  (Z.rem (Z.of_nat n) SNAPSHOT_INTERVAL =? 0)%Z =
    bool_decide (n mod Z.to_nat SNAPSHOT_INTERVAL = 0).
Proof.
  intros Hs. rewrite Z.rem_mod_nonneg by lia.
  rewrite <- (Z2Nat.id SNAPSHOT_INTERVAL) at 1 by lia.
  rewrite <- Nat2Z.inj_mod.
  destruct (Z.eqb_spec (Z.of_nat (n mod Z.to_nat SNAPSHOT_INTERVAL)) 0);
    case_bool_decide; try done; lia.
Qed.

Lemma mod_S_pos n s :
  S n mod s ≠ 0 → S n - S n mod s = n - n mod s.
Proof.
  intros Hne. destruct (decide (s = 0)) as [->|Hs]; [simpl; lia|].
  pose proof (Nat.div_mod_eq n s) as Hn.
  pose proof (Nat.mod_upper_bound n s Hs) as Hlt.
  destruct (decide (S (n mod s) = s)) as [Heq|Hneq].
  - exfalso. apply Hne. symmetry.
    apply (Nat.mod_unique (S n) s (S (n / s)) 0); lia.
  - rewrite <- (Nat.mod_unique (S n) s (n / s) (S (n mod s))); lia.
Qed.

(** A pass that gathers leaves in the master's [snapshot], in rank order,
    the owned rows of every rank as that pass left them. *)
Lemma store_if_length g t i j v : length (store_if g t i j v) = length t.
Proof. unfold store_if, store. destruct (g _); [apply length_alter|done]. Qed.

Lemma sweep_length {K} g (fi fj : K → nat) fv l t :
  length (sweep g fi fj fv t l) = length t.
Proof.
  revert t. induction l as [|k l IH]; intros t; [done|].
  by rewrite sweep_cons, IH, store_if_length.
Qed.

Lemma propagate_length t last : length (propagate t last) = length t.
Proof.
  unfold propagate.
  rewrite right_kernel_sweep, middle_kernel_sweep, left_kernel_sweep.
  by rewrite !sweep_length.
Qed.

Lemma loop_pass_temperatures_length ps r p p' :
  ps !! r = Some p → loop_pass ps !! r = Some p' →
  length (temperatures p') = length (temperatures p).
Proof.
  intros Hp Hp'. destruct (loop_pass_temperatures _ _ _ Hp) as (p2 & Hp2 & Ht).
  assert (p2 = p') as -> by congruence. by rewrite Ht, propagate_length.
Qed.

Lemma run_temperatures_length n ps r p p' :
  ps !! r = Some p → run n ps !! r = Some p' →
  length (temperatures p') = length (temperatures p).
Proof.
  intros Hp. revert p'. induction n as [|n IH]; intros p' Hp'.
  - simpl in Hp'. by simplify_eq.
  - apply run_lookup_S in Hp' as (p1 & Hp1 & Hp').
    by rewrite (loop_pass_temperatures_length _ _ _ _ Hp1 Hp'), (IH p1).
Qed.

Lemma startup_temperatures_length ps r p q :
  ps !! r = Some p → startup ps !! r = Some q →
  length (temperatures q) = length (temperatures p).
Proof.
  intros Hp. unfold startup. destruct (ps !! 0) as [master|]; [|done].
  rewrite (list_lookup_imap (fun r p => initial_copy (distributed master r p))), Hp.
  intros [= <-]. simpl. rewrite copy_rows_sweep, sweep_length.
  unfold distributed. by destruct (decide (r = 0)).
Qed.

Lemma loop_pass_gather ps m m' r q' k :
  (∀ r q, ps !! r = Some q → length (temperatures q) = ROWS_PER_MPI_PROCESS + 2) →
  ps !! 0 = Some m →
  length (snapshot m) = length ps * ROWS_PER_MPI_PROCESS →
  (Z.rem (iteration_count m) SNAPSHOT_INTERVAL =? 0)%Z = true →
  loop_pass ps !! 0 = Some m' →
  loop_pass ps !! r = Some q' →
  k < ROWS_PER_MPI_PROCESS →
  row (snapshot m') (r * ROWS_PER_MPI_PROCESS + k) = row (temperatures q') (k + 1).
Proof.
  intros Hshape Hm Hsnap Hrem Hm' Hq' Hk.
  rewrite (loop_pass_snapshot _ _ _ Hm Hm'), Hrem.
  rewrite loop_pass_lookup in Hq'.
  destruct (ps !! r) as [q|] eqn:Hq; [|done]. simplify_eq/=.
  unfold next_iteration. cbn [temperatures].
  rewrite snapshot_taken_temperatures.
  apply MPI_Gather_lookup.
  - intros r' q1 Hq1.
    rewrite list_lookup_fmap, exchange_ghost_cells_lookup in Hq1.
    destruct (ps !! r') as [q2|] eqn:Hq2; [|done]. simplify_eq/=.
    rewrite propagate_length. by eapply Hshape.
  - unfold exchange_ghost_cells. by rewrite length_fmap, length_imap.
  - by rewrite list_lookup_fmap, exchange_ghost_cells_lookup, Hq.
  - done.
Qed.

(** X7: the snapshot lags the grid by [n mod SNAPSHOT_INTERVAL] passes.
    Passes are numbered from [0] by [iteration_count], and pass [n] gathers
    when [n % SNAPSHOT_INTERVAL == 0].  After pass [n] the master's
    [snapshot] holds, at row [r * ROWS_PER_MPI_PROCESS + k], the owned row
    [k + 1] of rank [r] as pass [n - n mod SNAPSHOT_INTERVAL] left it: the
    whole grid in rank order, without ghost rows, nothing of an older
    snapshot, and nothing of the passes made since. *)
Theorem snapshot_holds_last_gathering_pass (n : nat) (ps : list process)
    (master m' : process) (r : nat) (q : process) (k : nat) :
  (0 < SNAPSHOT_INTERVAL)%Z →
  (Z.of_nat n ≤ INT_MAX)%Z →
  ps !! 0 = Some master →
  Forall process_shape ps →
  length (snapshot master) = length ps * ROWS_PER_MPI_PROCESS →
  run (S n) (startup ps) !! 0 = Some m' →
  run (S (n - n mod Z.to_nat SNAPSHOT_INTERVAL)) (startup ps) !! r = Some q →
  k < ROWS_PER_MPI_PROCESS →
  row (snapshot m') (r * ROWS_PER_MPI_PROCESS + k) = row (temperatures q) (k + 1).
Proof.
  intros Hs Hn Hmaster Hshape Hsnap. revert m' Hn.
  induction n as [|n IH]; intros m' Hn Hm' Hq Hk.
  all: apply run_lookup_S in Hm' as (m1 & Hm1 & Hm').
  all: pose proof (fun H => run_startup_iteration_count _ _ _ _ H Hm1) as Hcount.
  all: match goal with
       | H : run (S (?n - _)) _ !! _ = _ |- _ =>
           destruct (decide (n mod Z.to_nat SNAPSHOT_INTERVAL = 0)) as [Hmod|Hmod]
       end.
  1, 3: rewrite Hmod, Nat.sub_0_r, run_S in Hq.
  1, 2: apply (loop_pass_gather _ m1 m' r q k) in Hq; try done.
  1, 4: intros r' q' Hq'.
  1, 2: destruct (startup ps !! r') as [q0|] eqn:Hq0;
    [| apply lookup_lt_Some in Hq'; apply lookup_ge_None in Hq0;
       rewrite ?run_length in Hq'; simpl in Hq'; lia].
  1, 2: destruct (ps !! r') as [p0|] eqn:Hp0;
    [| apply lookup_lt_Some in Hq0; apply lookup_ge_None in Hp0;
       rewrite (startup_length ps master) in Hq0 by done; lia].
  1, 2: rewrite (run_temperatures_length _ _ _ _ _ Hq0 Hq'),
                (startup_temperatures_length _ _ _ _ Hp0 Hq0).
  1, 2: by destruct (Forall_lookup_1 _ _ _ _ Hshape Hp0) as [[? _] _].
  1, 3: rewrite run_length, (startup_length ps master) by done.
  1, 2: destruct (startup ps !! 0) as [m0|] eqn:Hm0;
    [ by rewrite (run_snapshot_length _ _ _ _ Hm0 Hm1),
                 (startup_snapshot _ _ _ Hmaster Hm0)
    | apply lookup_lt_Some in Hm1; apply lookup_ge_None in Hm0;
      rewrite run_length in Hm1; lia ].
  1, 2: rewrite Hcount, snapshot_pass by lia; by case_bool_decide.
  - by rewrite Nat.Div0.mod_0_l in Hmod.
  - rewrite (mod_S_pos _ _ Hmod) in Hq.
    rewrite (loop_pass_snapshot _ _ _ Hm1 Hm'), Hcount, snapshot_pass by lia.
    rewrite bool_decide_eq_false_2 by done. apply (IH m1); [lia|done..].
Qed.



(** ** The order of the doubles *)

Lemma SFcompare_refl x : x ≠ S754_nan → SFcompare x x = Some Eq.
Proof.
  destruct x as [[]|[]| |[] m e]; simpl; try done.
  all: rewrite Z.compare_refl, Pos.compare_cont_refl; done.
Qed.

Lemma SFltb_negative_transitive x y z :
  y ≠ S754_nan →
  SFltb x y = false → SFltb y z = false → SFltb x z = false.
Proof.
  unfold SFltb.
  destruct x as [[]|[]| |[] m1 e1], y as [[]|[]| |[] m2 e2], z as [[]|[]| |[] m3 e3];
    simpl; try done.
  all: intros _.
  all: destruct (Z.compare_spec e1 e2), (Z.compare_spec e2 e3), (Z.compare_spec e1 e3);
    simpl; try done; try lia.
  all: subst; fold (Pos.compare m1 m2) (Pos.compare m2 m3) (Pos.compare m1 m3).
  all: destruct (Pos.compare_spec m1 m2), (Pos.compare_spec m2 m3),
         (Pos.compare_spec m1 m3); simpl; try done; try lia.
Qed.

Lemma SFltb_asymmetric x y : SFltb x y = true → SFltb y x = false.
Proof.
  unfold SFltb.
  destruct x as [[]|[]| |[] m1 e1], y as [[]|[]| |[] m2 e2]; simpl; try done.
  all: destruct (Z.compare_spec e1 e2), (Z.compare_spec e2 e1); simpl; try done; try lia.
  all: subst; fold (Pos.compare m1 m2) (Pos.compare m2 m1).
  all: destruct (Pos.compare_spec m1 m2), (Pos.compare_spec m2 m1); simpl; try done; try lia.
Qed.

Lemma is_nan_false x : PrimFloat.is_nan x = false ↔ Prim2SF x ≠ S754_nan.
Proof.
  unfold PrimFloat.is_nan. rewrite FloatAxioms.eqb_spec. unfold SFeqb. split.
  - intros H Hn. rewrite Hn in H. done.
  - intros H. by rewrite SFcompare_refl.
Qed.

Lemma ltb_negative_transitive x y z :
  PrimFloat.is_nan y = false →
  PrimFloat.ltb x y = false → PrimFloat.ltb y z = false → PrimFloat.ltb x z = false.
Proof.
  rewrite is_nan_false, !FloatAxioms.ltb_spec. apply SFltb_negative_transitive.
Qed.

Lemma ltb_asymmetric x y : PrimFloat.ltb x y = true → PrimFloat.ltb y x = false.
Proof. rewrite !FloatAxioms.ltb_spec. apply SFltb_asymmetric. Qed.

Lemma ltb_irreflexive x : PrimFloat.ltb x x = false.
Proof.
  destruct (PrimFloat.ltb x x) eqn:H; [|done].
  by rewrite (ltb_asymmetric _ _ H) in H.
Qed.

Lemma ltb_nan_r x y : PrimFloat.is_nan y = true → PrimFloat.ltb x y = false.
Proof.
  intros Hy. destruct (Prim2SF y) eqn:Hsf.
  1,2,4: assert (PrimFloat.is_nan y = false) by (apply is_nan_false; by rewrite Hsf); congruence.
  rewrite FloatAxioms.ltb_spec, Hsf. unfold SFltb. by destruct (Prim2SF x).
Qed.

Lemma fmax_is_nan a b : PrimFloat.is_nan b = false → PrimFloat.is_nan (fmax a b) = false.
Proof.
  intros Hb. unfold fmax. destruct (PrimFloat.is_nan a) eqn:Ha; [done|].
  rewrite Hb. by destruct (PrimFloat.ltb a b).
Qed.

Lemma fmax_upper_l a b : PrimFloat.is_nan b = false → PrimFloat.ltb (fmax a b) a = false.
Proof.
  intros Hb. unfold fmax. destruct (PrimFloat.is_nan a) eqn:Ha; [by apply ltb_nan_r|].
  rewrite Hb. destruct (PrimFloat.ltb a b) eqn:Hab.
  - by apply ltb_asymmetric.
  - apply ltb_irreflexive.
Qed.

Lemma fmax_upper_r a b : PrimFloat.is_nan b = false → PrimFloat.ltb (fmax a b) b = false.
Proof.
  intros Hb. unfold fmax. destruct (PrimFloat.is_nan a) eqn:Ha; [apply ltb_irreflexive|].
  rewrite Hb. destruct (PrimFloat.ltb a b) eqn:Hab; [apply ltb_irreflexive|done].
Qed.

Lemma fmax_cases a b : fmax a b = a ∨ fmax a b = b.
Proof. unfold fmax. repeat case_match; auto. Qed.

(** ** The largest change *)

Lemma NoDup_owned_cells : NoDup owned_cells.
Proof.
  unfold owned_cells. apply NoDup_bind.
  - intros i1 i2 [i j] _ _ H1 H2.
    apply list_elem_of_fmap in H1 as (? & [= -> _] & _).
    by apply list_elem_of_fmap in H2 as (? & [= -> _] & _).
  - intros i _. apply NoDup_fmap_2; [by intros ?? [= ->]|apply NoDup_seq].
  - apply NoDup_seq.
Qed.

(** The reduction over any list of distinct cells. *)
Lemma track_cells_max t l d0 last0 :
  NoDup l → PrimFloat.is_nan d0 = false →
  let change (k : nat * nat) :=
    fabs (PrimFloat.sub (cell t k.1 k.2) (cell last0 k.1 k.2)) in
  let d := (foldl (fun acc (k : nat * nat) => track_cell t acc k.1 k.2) (d0, last0) l).1 in
  PrimFloat.is_nan d = false ∧
  PrimFloat.ltb d d0 = false ∧
  (∀ k, k ∈ l → PrimFloat.ltb d (change k) = false) ∧
  (d = d0 ∨ ∃ k, k ∈ l ∧ d = change k).
Proof.
  cbv zeta. revert d0 last0.
  induction l as [|k l IH]; intros d0 last0 Hl Hd0.
  { simpl. split_and!; [done|apply ltb_irreflexive| |by left].
    intros k Hk. by apply elem_of_nil in Hk. }
  inversion Hl as [|k0 l0 Hk Hl0]; subst k0 l0.
  set (dk := fabs (PrimFloat.sub (cell t k.1 k.2) (cell last0 k.1 k.2))).
  set (last1 := store last0 k.1 k.2 (cell t k.1 k.2)).
  change (foldl _ (d0, last0) (k :: l))
    with (foldl (fun acc (k : nat * nat) => track_cell t acc k.1 k.2)
                (fmax dk d0, last1) l).
  assert (Hd1 : PrimFloat.is_nan (fmax dk d0) = false) by by apply fmax_is_nan.
  destruct (IH (fmax dk d0) last1 Hl0 Hd1) as (Hnan & Hlow & Hall & Hmax).
  assert (Hsame : ∀ k', k' ∈ l → cell last1 k'.1 k'.2 = cell last0 k'.1 k'.2).
  { intros [i' j'] Hk'. apply cell_store_ne. destruct k as [i j]. simpl.
    intros [= -> ->]. done. }
  split_and!.
  - done.
  - apply (ltb_negative_transitive _ (fmax dk d0)); [done..|by apply fmax_upper_r].
  - intros k' [->|Hk']%elem_of_cons.
    + apply (ltb_negative_transitive _ (fmax dk d0)); [done..|by apply fmax_upper_l].
    + rewrite <- (Hsame k' Hk'). by apply Hall.
  - destruct Hmax as [->|(k' & Hk' & ->)].
    + destruct (fmax_cases dk d0) as [->| ->]; [right|by left].
      exists k. split; [by left|done].
    + right. exists k'. split; [by right|]. by rewrite (Hsame k' Hk').
Qed.

(** X8: [my_temperature_change] is the largest change of the pass.  When
    subtask 3 is over it is never a NaN and never below [0.0]; no owned cell
    changed by more than it (a change that is a NaN compares with nothing:
    [fmax] drops it); and it is [0.0] or the change of one of the owned
    cells. *)
Theorem my_temperature_change_is_largest_change (p : process) :
  PrimFloat.is_nan (my_temperature_change (relax p)) = false ∧
  PrimFloat.ltb (my_temperature_change (relax p)) 0 = false ∧
  (∀ i j, 1 ≤ i ≤ ROWS_PER_MPI_PROCESS → j < COLUMNS_PER_MPI_PROCESS →
     PrimFloat.ltb (my_temperature_change (relax p))
                   (cell_change p (relax p) i j) = false) ∧
  (my_temperature_change (relax p) = 0%float ∨
   ∃ i j, 1 ≤ i ≤ ROWS_PER_MPI_PROCESS ∧ j < COLUMNS_PER_MPI_PROCESS ∧
     my_temperature_change (relax p) = cell_change p (relax p) i j).
Proof.
  unfold cell_change. rewrite relax_temperatures.
  set (t := propagate (temperatures p) (temperatures_last p)).
  change (my_temperature_change (relax p))
    with (track_changes t (temperatures_last p)).1.
  unfold track_changes.
  rewrite (nested_foldl (fun acc i j => track_cell t acc i j)).
  fold owned_cells.
  destruct (track_cells_max t owned_cells 0 (temperatures_last p)
              NoDup_owned_cells eq_refl) as (Hnan & Hlow & Hall & Hmax).
  split_and!; [done|done| |].
  - intros i j Hi Hj. apply (Hall (i, j)), elem_of_owned_cells. lia.
  - destruct Hmax as [Hz|([i j] & Hk%elem_of_owned_cells & Hd)]; [by left|].
    right. exists i, j. split; [lia|]. split; [lia|done].
Qed.

(** ** The start-up and the first pass as a protocol *)

(** The calls of [main_program], by index. *)
Lemma main_program_at barrier comm_size r n :
  main_program barrier comm_size r !! n =
    if decide (n = 0) then Some MPI_Barrier
    else if decide (n < copy_index comm_size r)
      then distribution_call comm_size r (n - 1)
    else if decide (n = copy_index comm_size r) then Some (Work initial_copy)
    else if decide (barrier = true ∧ n = copy_index comm_size r + 1)
      then Some MPI_Barrier
    else if decide (n < loop_entry barrier comm_size r + 4)
      then exchange_program comm_size r !! (n - loop_entry barrier comm_size r)
    else if decide (n = loop_entry barrier comm_size r + 4) then Some (Work relax)
    else None.
Proof.
  unfold main_program, main_calls, loop_entry, copy_index, distribution_call,
         exchange_program.
  destruct n as [|n]; [done|]. rewrite decide_False by lia.
  change ([MPI_Barrier] ++ ?l) with (MPI_Barrier :: l).
  change ((MPI_Barrier :: ?l) !! S n) with (l !! n).
  set (tail := exchange_calls (Z.of_nat comm_size) (Z.of_nat r) ++ [Work relax]).
  assert (Htail : ∀ k, tail !! k =
            if decide (k < 4)
            then exchange_calls (Z.of_nat comm_size) (Z.of_nat r) !! k
            else if decide (k = 4) then Some (Work relax) else None).
  { intros k. unfold tail. by destruct k as [|[|[|[|[|k]]]]]. }
  assert (Hrest : ∀ d k,
            S n = 1 + d + k →
            ([Work initial_copy] ++ (if barrier then [MPI_Barrier] else []) ++ tail) !! k =
            if decide (S n = 1 + d) then Some (Work initial_copy)
            else if decide (barrier = true ∧ S n = 1 + d + 1) then Some MPI_Barrier
            else if decide (S n < 1 + d + 1 + (if barrier then 1 else 0) + 4)
              then exchange_calls (Z.of_nat comm_size) (Z.of_nat r)
                   !! (S n - (1 + d + 1 + (if barrier then 1 else 0)))
            else if decide (S n = 1 + d + 1 + (if barrier then 1 else 0) + 4)
              then Some (Work relax)
            else None).
  { intros d k Hk. destruct k as [|k]; [by rewrite decide_True by lia|].
    rewrite decide_False by lia. simpl.
    destruct barrier; simpl.
    - destruct k as [|k].
      + rewrite (decide_True (P := _ ∧ _)); [done|split; [done|lia]].
      + rewrite (decide_False (P := _ ∧ _)) by (intros [_ ?]; lia). simpl. rewrite Htail.
        repeat case_decide; try lia; try done; f_equal; lia.
    - rewrite ?(decide_False (P := _ ∧ _)) by (by intros [? _]). rewrite Htail.
      repeat case_decide; try lia; try done; f_equal; lia. }
  destruct (Z.eqb_spec (Z.of_nat r) MASTER_PROCESS_RANK) as [Hr|Hr];
    unfold MASTER_PROCESS_RANK in Hr.
  - assert (r = 0) as -> by lia. rewrite !(decide_True (P := 0 = 0)) by done.
    assert (Hlen : length (master_distribution (Z.of_nat comm_size) (Z.of_nat 0))
                   = comm_size)
      by by rewrite master_distribution_length, Nat2Z.id.
    destruct (decide (S n < 1 + comm_size)) as [Hn|Hn].
    + rewrite lookup_app_l by lia.
      unfold master_distribution. rewrite list_lookup_fmap, Nat2Z.id.
      rewrite lookup_seq_lt by lia. simpl. rewrite Nat.sub_0_r.
      rewrite decide_True by lia.
      destruct (Z.eqb_spec (Z.of_nat n) (Z.of_nat 0)), (decide (n = 0)); try lia; done.
    + rewrite lookup_app_r by lia. rewrite Hlen.
      apply Hrest. lia.
  - assert (r ≠ 0) by lia. rewrite !(decide_False (P := r = 0)) by done.
    destruct n as [|n]; [done|]. rewrite decide_False by lia.
    apply (Hrest 1 n). lia.
Qed.

Section FirstPass.

Variable barrier : bool.
Variable ps : list process.
Variable master : process.
Hypothesis Hnull : (MPI_PROC_NULL < 0)%Z.
Hypothesis Hsize : (Z.of_nat (length ps) ≤ INT_MAX)%Z.
Hypothesis Hmaster : ps !! 0 = Some master.

Lemma startup_size : length (startup ps) = length ps.
Proof. by apply startup_length with master. Qed.

Lemma startup_rank r p :
  ps !! r = Some p →
  startup ps !! r = Some (initial_copy (distributed master r p)).
Proof. intros Hp. by rewrite (startup_lookup ps master r Hmaster), Hp. Qed.

Lemma copy_index_ge r : 2 ≤ copy_index (length ps) r.
Proof.
  unfold copy_index. case_decide; [|lia].
  apply lookup_lt_Some in Hmaster. lia.
Qed.

(** The memory of a rank, by the part of [main_program] it is in. *)
Lemma run_to_start r n p : n < 2 → run_to barrier ps master r n p = p.
Proof.
  intros Hn. unfold run_to. cbv zeta.
  by destruct (Nat.ltb_spec n 2); [|lia].
Qed.

Lemma run_to_dealt r n p :
  2 ≤ n ≤ copy_index (length ps) r →
  run_to barrier ps master r n p = distributed master r p.
Proof.
  intros Hn. unfold run_to. cbv zeta.
  destruct (Nat.ltb_spec n 2); [lia|].
  by destruct (Nat.leb_spec n (copy_index (length ps) r)); [|lia].
Qed.

Lemma run_to_loop r n p :
  copy_index (length ps) r < n ≤ loop_entry barrier (length ps) r + 4 →
  run_to barrier ps master r n p =
    exchanged (startup ps) r (n - loop_entry barrier (length ps) r)
              (initial_copy (distributed master r p)).
Proof.
  intros Hn. unfold run_to. cbv zeta.
  pose proof (copy_index_ge r).
  destruct (Nat.ltb_spec n 2); [lia|].
  destruct (Nat.leb_spec n (copy_index (length ps) r)); [lia|].
  by destruct (Nat.leb_spec n (loop_entry barrier (length ps) r + 4)); [|lia].
Qed.

Lemma run_to_end r n p :
  loop_entry barrier (length ps) r + 4 < n →
  run_to barrier ps master r n p =
    relax (exchanged (startup ps) r 4 (initial_copy (distributed master r p))).
Proof.
  intros Hn. unfold run_to. cbv zeta.
  assert (copy_index (length ps) r < loop_entry barrier (length ps) r)
    by (unfold loop_entry, copy_index; lia).
  pose proof (copy_index_ge r).
  destruct (Nat.ltb_spec n 2); [lia|].
  destruct (Nat.leb_spec n (copy_index (length ps) r)); [lia|].
  by destruct (Nat.leb_spec n (loop_entry barrier (length ps) r + 4)); [lia|].
Qed.

(** States of the run. *)
Lemma main_at_lookup f r :
  main_at barrier ps master f !! r =
  (fun p => RankState (run_to barrier ps master r (f r) p) (f r)) <$> ps !! r.
Proof.
  unfold main_at.
  apply (list_lookup_imap
           (fun r p => RankState (run_to barrier ps master r (f r) p) (f r))).
Qed.

Lemma main_at_lookup_Some f r s :
  main_at barrier ps master f !! r = Some s →
  ∃ p, ps !! r = Some p ∧ r < length ps ∧
       s = RankState (run_to barrier ps master r (f r) p) (f r).
Proof.
  rewrite main_at_lookup. destruct (ps !! r) as [p|] eqn:Hp; [|done].
  intros [= <-]. exists p. split; [done|]. split; [|done].
  by eapply lookup_lt_Some.
Qed.

Lemma main_at_length f : length (main_at barrier ps master f) = length ps.
Proof. unfold main_at. apply length_imap. Qed.

Lemma main_at_insert f r p n :
  ps !! r = Some p →
  <[r := RankState (run_to barrier ps master r n p) n]> (main_at barrier ps master f) =
  main_at barrier ps master (<[r := n]> f).
Proof.
  intros Hp. apply list_eq. intros i.
  rewrite list_lookup_insert, !main_at_lookup, main_at_length.
  destruct (decide (r = i ∧ r < length ps)) as [[-> _]|Hne].
  - by rewrite Hp, fn_lookup_insert.
  - assert (r ≠ i).
    { intros ->. apply Hne. split; [done|]. by eapply lookup_lt_Some. }
    by rewrite fn_lookup_insert_ne.
Qed.

Lemma main_at_advance f :
  (∀ r p, ps !! r = Some p →
     run_to barrier ps master r (S (f r)) p = run_to barrier ps master r (f r) p) →
  advance <$> main_at barrier ps master f =
  main_at barrier ps master (fun r => S (f r)).
Proof.
  intros Hsame. apply list_eq. intros r.
  rewrite list_lookup_fmap, !main_at_lookup.
  destruct (ps !! r) as [p|] eqn:Hp; [|done]. simpl.
  unfold advance. simpl. by rewrite (Hsame r p Hp).
Qed.

Lemma launch_main_at : launch ps = main_at barrier ps master (fun _ => 0).
Proof.
  apply list_eq. intros i. unfold launch.
  by rewrite list_lookup_fmap, main_at_lookup.
Qed.

Lemma main_program_length r :
  length (main_program barrier (length ps) r) =
    loop_entry barrier (length ps) r + 5.
Proof.
  unfold main_program, main_calls, loop_entry.
  rewrite !length_app. simpl.
  destruct (Z.eqb_spec (Z.of_nat r) MASTER_PROCESS_RANK) as [Hr|Hr];
    unfold MASTER_PROCESS_RANK in Hr.
  - rewrite master_distribution_length, Nat2Z.id.
    rewrite decide_True by lia. destruct barrier; simpl; lia.
  - rewrite decide_False by lia. destruct barrier; simpl; lia.
Qed.

(** Arithmetic on the indices of the calls. *)
Ltac entry_lia :=
  unfold loop_entry, copy_index in *; try destruct barrier; try done;
  cbv iota in *; repeat case_decide; lia.

(** The calls of [main_program], by kind. *)
Lemma main_program_work r n g :
  main_program barrier (length ps) r !! n = Some (Work g) →
  (r = 0 ∧ n = 1 ∧ g = copy_own_chunk) ∨
  (n = copy_index (length ps) r ∧ g = initial_copy) ∨
  (n = loop_entry barrier (length ps) r + 4 ∧ g = relax).
Proof.
  rewrite main_program_at. unfold distribution_call.
  repeat case_decide; try done.
  - intros [= <-]. left. split; [done|]. split; [lia|done].
  - intros [= <-]. auto.
  - intros [[_ ?]|[[_ ?]|[[_ ?]|[_ ?]]]]%exchange_program_lookup; done.
  - intros [= <-]. auto.
Qed.

Lemma main_program_send r n buf dest :
  main_program barrier (length ps) r !! n = Some (MPI_Ssend buf dest) →
  (r = 0 ∧ 2 ≤ n ≤ length ps ∧ dest = Z.of_nat (n - 1) ∧
   buf = (fun p => rows_from (all_temperatures p)
                     (Z.to_nat (chunk_first_row (Z.of_nat (n - 1))))
                     ROWS_PER_MPI_PROCESS)) ∨
  (n = loop_entry barrier (length ps) r ∧
   dest = up_neighbour_rank (Z.of_nat r) ∧
   buf = (fun p => rows_from (temperatures p) 1 1)) ∨
  (n = loop_entry barrier (length ps) r + 2 ∧
   dest = down_neighbour_rank (Z.of_nat (length ps)) (Z.of_nat r) ∧
   buf = (fun p => rows_from (temperatures p) ROWS_PER_MPI_PROCESS 1)).
Proof.
  rewrite main_program_at. unfold distribution_call.
  repeat case_decide; try done.
  - intros [= <- <-]. left. split; [done|]. split; [lia|done].
  - intros [[? Hc]|[[_ ?]|[[? Hc]|[_ ?]]]]%exchange_program_lookup; try done;
      injection Hc as -> ->; [right; left|right; right]; (split; [|done]);
      entry_lia.
Qed.

Lemma main_program_recv r n first_row source :
  main_program barrier (length ps) r !! n = Some (MPI_Recv first_row source) →
  (r ≠ 0 ∧ n = 1 ∧ first_row = 1 ∧ source = 0%Z) ∨
  (n = loop_entry barrier (length ps) r + 1 ∧
   first_row = ROWS_PER_MPI_PROCESS + 1 ∧
   source = down_neighbour_rank (Z.of_nat (length ps)) (Z.of_nat r)) ∨
  (n = loop_entry barrier (length ps) r + 3 ∧
   first_row = 0 ∧ source = up_neighbour_rank (Z.of_nat r)).
Proof.
  rewrite main_program_at. unfold distribution_call.
  repeat case_decide; try done.
  - intros [= <- <-]. left. split; [done|]. split; [lia|done].
  - intros [[_ ?]|[[? Hc]|[[_ ?]|[? Hc]]]]%exchange_program_lookup; try done;
      injection Hc as -> ->; [right; left|right; right]; (split; [|done]);
      entry_lia.
Qed.

Lemma main_program_barrier_at r n :
  main_program barrier (length ps) r !! n = Some MPI_Barrier →
  n = 0 ∨ (barrier = true ∧ n = copy_index (length ps) r + 1).
Proof.
  rewrite main_program_at. unfold distribution_call.
  repeat case_decide; try done; auto.
  intros [[_ ?]|[[_ ?]|[[_ ?]|[_ ?]]]]%exchange_program_lookup; done.
Qed.

(** [on_course] survives the advance of the ranks of one step: [a] is a rank
    that completes a call other than a barrier. *)
Ltac course_lia :=
  unfold insert, fn_insert in *; cbv beta in *;
  repeat case_decide; subst; entry_lia.

Ltac on_course_tac Hon a Ha :=
  destruct Hon as (Hbound & Hfirst & Hdeal & Hsecond & _ & Hpair);
  destruct Hfirst as [Hzero|Hone]; [pose proof (Hzero a Ha); exfalso; entry_lia|];
  split; [intros k Hk; pose proof (Hbound k Hk); course_lia|];
  split; [right; intros k Hk; pose proof (Hone k Hk); course_lia|];
  split; [intros k Hk; pose proof (Hdeal k Hk); pose proof (Hone k ltac:(lia));
          course_lia|];
  split; [intros Hb; destruct (Hsecond Hb) as [Hl|Hg]; [left|right];
          intros k Hk;
          [pose proof (Hl k Hk); pose proof (Hl a Ha)|pose proof (Hg k Hk)];
          course_lia|];
  split; [intros k Hk; cbv beta; lia|];
  intros k Hk; pose proof (Hpair k Hk);
  pose proof (Hbound k ltac:(lia)); pose proof (Hbound (S k) Hk);
  pose proof (Hone k ltac:(lia)); pose proof (Hone (S k) Hk);
  course_lia.

Lemma main_at_step f r p q :
  ps !! r = Some p →
  q = run_to barrier ps master r (S (f r)) p →
  <[r := RankState q (S (f r))]> (main_at barrier ps master f) =
  main_at barrier ps master (<[r := S (f r)]> f).
Proof. intros Hp ->. by apply main_at_insert. Qed.

Lemma startup_bound : (Z.of_nat (length (startup ps)) ≤ INT_MAX)%Z.
Proof. by rewrite startup_size. Qed.

(** In the loop the memory of a rank depends on the calls of the exchange
    it has completed. *)
Lemma run_to_exchanged r n k p :
  n = loop_entry barrier (length ps) r + k → k ≤ 4 →
  run_to barrier ps master r n p =
    exchanged (startup ps) r k (initial_copy (distributed master r p)).
Proof.
  intros -> Hk. rewrite run_to_loop by entry_lia. f_equal. lia.
Qed.

(** One step of the run leads from one state [main_at] to another, and
    keeps the ranks on course. *)
Lemma main_step f m' :
  on_course barrier (length ps) f →
  step (main_program barrier (length ps)) (main_at barrier ps master f) m' →
  ∃ f', m' = main_at barrier ps master f' ∧ on_course barrier (length ps) f'.
Proof.
  intros Hon Hstep.
  pose proof (lookup_lt_Some _ _ _ Hmaster) as Hlen.
  pose proof startup_bound as Hsize'.
  pose proof startup_size as Hsame.
  inversion Hstep as
    [m r s g Hr Hc | m r s buf Hr Hc | m r s first_row Hr Hc
    | m a b sa sb buf first_row Hab Ha Hb Hca Hcb | m Hne Hall]; subst.
  - (* a local computation *)
    apply main_at_lookup_Some in Hr as (p & Hp & Hlt & ->). cbn [mem pc] in *.
    exists (<[r := S (f r)]> f).
    apply main_program_work in Hc as [(-> & Hn & ->)|[[Hn ->]|[Hn ->]]].
    + split; [|on_course_tac Hon 0 Hlt].
      apply (main_at_step f _ p); [done|].
      rewrite Hn, run_to_start, run_to_dealt by (pose proof (copy_index_ge 0); lia).
      unfold distributed. by rewrite decide_True.
    + split; [|on_course_tac Hon r Hlt].
      apply (main_at_step f _ p); [done|].
      pose proof (copy_index_ge r).
      rewrite (run_to_dealt r (f r)) by lia.
      rewrite run_to_loop by entry_lia.
      replace (S (f r) - loop_entry barrier (length ps) r) with 0 by entry_lia.
      by rewrite exchanged_0.
    + split; [|on_course_tac Hon r Hlt].
      apply (main_at_step f _ p); [done|].
      rewrite (run_to_exchanged r (f r) 4) by lia.
      by rewrite run_to_end by lia.
  - (* a send to nobody *)
    apply main_at_lookup_Some in Hr as (p & Hp & Hlt & ->). cbn [mem pc] in *.
    exists (<[r := S (f r)]> f). unfold advance. cbn [mem pc].
    apply main_program_send in Hc
      as [(-> & Hn & Hdest & _)|[(Hn & Hdest & _)|(Hn & Hdest & _)]]; [lia| |].
    + symmetry in Hdest. apply (up_rank_null ps Hnull Hsize) in Hdest as ->; [|done].
      split; [|on_course_tac Hon 0 Hlt].
      apply (main_at_step f _ p); [done|].
      rewrite (run_to_exchanged 0 (f 0) 0), (run_to_exchanged 0 (S (f 0)) 1) by lia.
      by apply exchanged_same.
    + symmetry in Hdest. apply (down_rank_null ps Hnull Hsize) in Hdest; [|done].
      split; [|on_course_tac Hon r Hlt].
      apply (main_at_step f _ p); [done|].
      rewrite (run_to_exchanged r (f r) 2), (run_to_exchanged r (S (f r)) 3) by lia.
      by apply exchanged_same.
  - (* a receive from nobody *)
    apply main_at_lookup_Some in Hr as (p & Hp & Hlt & ->). cbn [mem pc] in *.
    exists (<[r := S (f r)]> f). unfold advance. cbn [mem pc].
    apply main_program_recv in Hc
      as [(_ & _ & _ & Hsrc)|[(Hn & _ & Hsrc)|(Hn & _ & Hsrc)]]; [lia| |].
    + symmetry in Hsrc. apply (down_rank_null ps Hnull Hsize) in Hsrc; [|done].
      split; [|on_course_tac Hon r Hlt].
      apply (main_at_step f _ p); [done|].
      rewrite (run_to_exchanged r (f r) 1), (run_to_exchanged r (S (f r)) 2) by lia.
      symmetry. apply exchanged_null_down; [done|done|lia|lia].
    + symmetry in Hsrc. apply (up_rank_null ps Hnull Hsize) in Hsrc as ->; [|done].
      split; [|on_course_tac Hon 0 Hlt].
      apply (main_at_step f _ p); [done|].
      rewrite (run_to_exchanged 0 (f 0) 3), (run_to_exchanged 0 (S (f 0)) 4) by lia.
      symmetry. apply exchanged_null_up; [done|lia].
  - (* a message goes from [a] to [b] *)
    apply main_at_lookup_Some in Ha as (pa & Hpa & Hlta & ->).
    apply main_at_lookup_Some in Hb as (pb & Hpb & Hltb & ->).
    cbn [mem pc] in *. unfold advance. cbn [mem pc].
    exists (<[b := S (f b)]> (<[a := S (f a)]> f)).
    apply main_program_send in Hca
      as [(-> & Hna & Hdest & ->)|[(Hna & Hdest & ->)|(Hna & Hdest & ->)]];
    apply main_program_recv in Hcb
      as [(Hb0 & Hnb & -> & Hsrc)|[(Hnb & -> & Hsrc)|(Hnb & -> & Hsrc)]].
    + (* a chunk goes from the master to rank [b] *)
      assert (Hb1 : S b = f 0) by lia.
      assert (pa = master) as -> by congruence.
      pose proof (copy_index_ge b). pose proof (copy_index_ge 0).
      split; [|on_course_tac Hon 0 Hlta].
      rewrite (main_at_step f 0 master);
        [|done|rewrite !run_to_dealt; [done|entry_lia|entry_lia]].
      rewrite <- (main_at_insert (<[0 := S (f 0)]> f) b pb (S (f b)) Hpb).
      do 2 f_equal.
      rewrite Hnb, (run_to_start b 1), (run_to_dealt 0 (f 0)), (run_to_dealt b 2)
        by entry_lia.
      unfold distributed. rewrite decide_True, decide_False by done.
      by rewrite <- Hb1, Nat.sub_1_r.
    + symmetry in Hsrc. apply (down_rank_some ps Hnull Hsize) in Hsrc; [lia|done].
    + symmetry in Hsrc. apply (up_rank_some ps Hnull Hsize) in Hsrc as ->; [|done].
      destruct Hon as (_ & _ & Hdeal & _).
      pose proof (Hdeal 1 ltac:(lia)). entry_lia.
    + symmetry in Hdest. apply (up_rank_some ps Hnull Hsize) in Hdest; [lia|done].
    + (* row [1] of [a] into the lower ghost row of [b = a - 1] *)
      symmetry in Hdest. apply (up_rank_some ps Hnull Hsize) in Hdest as ->; [|done].
      split; [|on_course_tac Hon (S b) Hlta].
      rewrite (main_at_step f (S b) pa);
        [|done|rewrite (run_to_exchanged _ (f (S b)) 0),
                       (run_to_exchanged _ (S (f (S b))) 1) by lia;
               by apply exchanged_same].
      rewrite <- (main_at_insert (<[S b := S (f (S b))]> f) b pb (S (f b)) Hpb).
      do 2 f_equal.
      rewrite (run_to_exchanged (S b) (f (S b)) 0), (run_to_exchanged b (f b) 1),
              (run_to_exchanged b (S (f b)) 2) by lia.
      rewrite exchanged_temperatures.
      apply exchanged_recv_down; [done|done|]. by apply startup_rank.
    + symmetry in Hdest. apply (up_rank_some ps Hnull Hsize) in Hdest; [|done].
      symmetry in Hsrc. apply (up_rank_some ps Hnull Hsize) in Hsrc; [|done]. lia.
    + symmetry in Hdest. apply (down_rank_some ps Hnull Hsize) in Hdest as [-> _]; [|done].
      assert (a = 0) as -> by lia.
      destruct Hon as (_ & _ & Hdeal & _).
      pose proof (Hdeal 1 ltac:(lia)). entry_lia.
    + symmetry in Hdest. apply (down_rank_some ps Hnull Hsize) in Hdest; [|done].
      symmetry in Hsrc. apply (down_rank_some ps Hnull Hsize) in Hsrc; [|done]. lia.
    + (* row [ROWS_PER_MPI_PROCESS] of [a] into the upper ghost row of [b = a + 1] *)
      symmetry in Hdest.
      apply (down_rank_some ps Hnull Hsize) in Hdest as [-> Hlt]; [|done].
      split; [|on_course_tac Hon a Hlta].
      rewrite (main_at_step f a pa);
        [|done|rewrite (run_to_exchanged _ (f a) 2),
                       (run_to_exchanged _ (S (f a)) 3) by lia;
               by apply exchanged_same].
      rewrite <- (main_at_insert (<[a := S (f a)]> f) (S a) pb (S (f (S a))) Hpb).
      do 2 f_equal.
      rewrite (run_to_exchanged a (f a) 2), (run_to_exchanged (S a) (f (S a)) 3),
              (run_to_exchanged (S a) (S (f (S a))) 4) by lia.
      rewrite exchanged_temperatures.
      apply exchanged_recv_up; [done|done| |lia]. by apply startup_rank.
  - (* a barrier *)
    assert (Hat : ∀ r, r < length ps →
              f r = 0 ∨ (barrier = true ∧ f r = copy_index (length ps) r + 1)).
    { intros r Hr. destruct (lookup_lt_is_Some_2 ps r Hr) as [p Hp].
      apply (main_program_barrier_at r (f r)).
      apply (Hall r (RankState (run_to barrier ps master r (f r) p) (f r))).
      by rewrite main_at_lookup, Hp. }
    exists (fun r => S (f r)). split.
    + apply main_at_advance. intros r p Hp.
      destruct (Hat r ltac:(by eapply lookup_lt_Some)) as [H0|[Hb Hn]].
      * by rewrite H0, !run_to_start by lia.
      * pose proof (copy_index_ge r).
        rewrite !run_to_loop by entry_lia. f_equal. entry_lia.
    + destruct Hon as (Hbound & Hfirst & Hdeal & Hsecond & _ & Hpair).
      pose proof (copy_index_ge 0).
      destruct Hfirst as [Hzero|Hone].
      * split; [intros k Hk; pose proof (Hzero k Hk); entry_lia|].
        split; [right; intros k Hk; lia|].
        split; [intros k Hk; pose proof (Hzero k ltac:(lia));
                pose proof (Hzero 0 Hlen); lia|].
        split; [intros Hb; left; intros k Hk; pose proof (Hzero k Hk); lia|].
        split; [intros k Hk; cbv beta; lia|].
        intros k Hk. cbv beta.
        pose proof (Hzero k ltac:(lia)). pose proof (Hzero (S k) Hk). entry_lia.
      * assert (Hat' : ∀ r, r < length ps →
                  barrier = true ∧ f r = copy_index (length ps) r + 1).
        { intros r Hr. destruct (Hat r Hr) as [H0|?]; [|done].
          pose proof (Hone r Hr). lia. }
        split; [intros k Hk; pose proof (Hat' k Hk); entry_lia|].
        split; [right; intros k Hk; lia|].
        split; [intros k Hk; pose proof (Hat' k ltac:(lia));
                pose proof (Hat' 0 Hlen); entry_lia|].
        split; [intros Hb; right; intros k Hk; pose proof (Hat' k Hk); entry_lia|].
        split; [intros k Hk; cbv beta; lia|].
        intros k Hk. cbv beta.
        pose proof (Hat' k ltac:(lia)). pose proof (Hat' (S k) Hk). entry_lia.
Qed.



Lemma on_course_launch : on_course barrier (length ps) (fun _ => 0).
Proof.
  split; [intros; lia|]. split; [by left|]. split; [intros; lia|].
  split; [intros _; left; intros; lia|]. split; intros; cbv beta; lia.
Qed.

Lemma main_reachable m :
  rtc (step (main_program barrier (length ps))) (launch ps) m →
  ∃ f, m = main_at barrier ps master f ∧ on_course barrier (length ps) f.
Proof.
  revert m. apply rtc_ind_r.
  - exists (fun _ => 0). split; [apply launch_main_at|apply on_course_launch].
  - intros y z _ Hstep (f & -> & Hon). by apply (main_step f).
Qed.

Lemma main_finished f :
  finished (main_program barrier (length ps)) (main_at barrier ps master f) ↔
  ∀ r, r < length ps → f r = loop_entry barrier (length ps) r + 5.
Proof.
  unfold finished. split.
  - intros Hfin r Hr. destruct (lookup_lt_is_Some_2 ps r Hr) as [p Hp].
    rewrite <- main_program_length.
    apply (Hfin r (RankState (run_to barrier ps master r (f r) p) (f r))).
    by rewrite main_at_lookup, Hp.
  - intros Hall r s (p & Hp & Hr & ->)%main_at_lookup_Some. cbn [pc].
    rewrite main_program_length. by apply Hall.
Qed.

(** A call of the exchange, as a call of [main_program]. *)
Lemma main_program_exchange r n c :
  exchange_program (length ps) r !! n = Some c →
  main_program barrier (length ps) r
    !! (loop_entry barrier (length ps) r + n) = Some c.
Proof.
  intros Hc. pose proof (lookup_lt_Some _ _ _ Hc) as Hn.
  rewrite exchange_program_length in Hn.
  pose proof (copy_index_ge r).
  rewrite main_program_at.
  rewrite decide_False by entry_lia. rewrite decide_False by entry_lia.
  rewrite decide_False by entry_lia.
  rewrite (decide_False (P := _ ∧ _)) by (intros [? ?]; entry_lia).
  rewrite decide_True by lia. rewrite <- Hc. f_equal. lia.
Qed.

(** No state of the run is a deadlock. *)
Lemma main_progress f :
  on_course barrier (length ps) f →
  (∀ r, r < length ps → f r = loop_entry barrier (length ps) r + 5) ∨
  ∃ m', step (main_program barrier (length ps)) (main_at barrier ps master f) m'.
Proof.
  intros Hon.
  pose proof (lookup_lt_Some _ _ _ Hmaster) as Hlen.
  pose proof (copy_index_ge 0) as Hci0.
  destruct Hon as (Hbound & Hfirst & Hdeal & Hsecond & Hstep).
  assert (Hstate : ∀ r p, ps !! r = Some p →
            main_at barrier ps master f !! r =
              Some (RankState (run_to barrier ps master r (f r) p) (f r))).
  { intros r p Hp. by rewrite main_at_lookup, Hp. }
  destruct Hfirst as [Hzero|Hone].
  { (* the first barrier *)
    right. eexists. apply step_barrier.
    - intros Hnil. pose proof (main_at_length f) as Hl. rewrite Hnil in Hl.
      simpl in Hl. lia.
    - intros r s (p & Hp & Hr & ->)%main_at_lookup_Some. simpl.
      by rewrite (Hzero r Hr), main_program_at. }
  (* a rank with a computation to make *)
  set (works := fun r => (r = 0 ∧ f r = 1) ∨ f r = copy_index (length ps) r ∨
                         f r = loop_entry barrier (length ps) r + 4).
  destruct (decide (Exists works (seq 0 (length ps)))) as [Hex|Hnone].
  { right. apply list.Exists_exists in Hex as (r & Hr%elem_of_seq & Hw).
    destruct (lookup_lt_is_Some_2 ps r ltac:(lia)) as [p Hp].
    pose proof (copy_index_ge r).
    destruct Hw as [[Hr0 Hn]|[Hn|Hn]]; eexists;
      eapply (step_work _ _ r); try (by apply Hstate); simpl;
      rewrite main_program_at, Hn.
    - subst r. rewrite decide_False by lia. rewrite decide_True by lia.
      unfold distribution_call. by rewrite !decide_True by lia.
    - rewrite decide_False by lia. rewrite decide_False by lia.
      by rewrite decide_True.
    - rewrite decide_False by lia. rewrite decide_False by entry_lia.
      rewrite decide_False by entry_lia.
      rewrite (decide_False (P := _ ∧ _)) by (intros [? ?]; entry_lia).
      rewrite decide_False by lia. by rewrite decide_True. }
  assert (Hidle : ∀ r, r < length ps →
            ¬ (r = 0 ∧ f r = 1) ∧ f r ≠ copy_index (length ps) r ∧
            f r ≠ loop_entry barrier (length ps) r + 4).
  { intros r Hr. assert (Hw : ¬ works r).
    { intros Hw. apply Hnone, list.Exists_exists. exists r. split; [|done].
      apply elem_of_seq. lia. }
    unfold works in Hw. tauto. }
  pose proof (Hidle 0 Hlen) as (Hi1 & Hi2 & Hi3).
  pose proof (Hone 0 Hlen) as Ho0.
  destruct (decide (f 0 ≤ length ps)) as [Hdist|Hdist].
  { (* the master sends the next chunk *)
    right. set (b := f 0 - 1).
    assert (Hb : 1 ≤ b < length ps) by (unfold b; lia).
    destruct (lookup_lt_is_Some_2 ps b ltac:(lia)) as [pb Hpb].
    pose proof (Hdeal b Hb). pose proof (Hone b ltac:(lia)).
    assert (Hfb : f b = 1) by (unfold b in *; lia).
    eexists. eapply (step_transfer _ _ 0 b); [lia|by apply Hstate..| |]; simpl.
    - rewrite main_program_at. rewrite decide_False by lia.
      rewrite decide_True by entry_lia.
      unfold distribution_call. rewrite decide_True by done.
      rewrite decide_True by lia. rewrite decide_False by lia. done.
    - rewrite Hfb, main_program_at. rewrite decide_False by lia.
      rewrite decide_True by entry_lia.
      unfold distribution_call. rewrite decide_False by lia.
      by rewrite decide_True. }
  assert (Hpast : ∀ r, r < length ps → copy_index (length ps) r < f r).
  { intros r Hr. pose proof (Hidle r Hr) as (_ & ? & _).
    destruct (decide (r = 0)) as [->|Hr0]; [entry_lia|].
    pose proof (Hdeal r ltac:(lia)). entry_lia. }
  destruct (decide (Exists (fun r => f r < loop_entry barrier (length ps) r)
                          (seq 0 (length ps)))) as [Hwait|Hloop].
  { (* the second barrier *)
    right. apply list.Exists_exists in Hwait as (r0 & Hr0%elem_of_seq & Hf0).
    assert (Hr0' : r0 < length ps) by lia. clear Hr0. rename Hr0' into Hr0.
    assert (Hb : barrier = true).
    { pose proof (Hpast r0 Hr0). destruct barrier; [done|]. entry_lia. }
    destruct (Hsecond Hb) as [Hl|Hg]; [|pose proof (Hg r0 Hr0); lia].
    eexists. apply step_barrier.
    - intros Hnil. pose proof (main_at_length f) as Hl'. rewrite Hnil in Hl'.
      simpl in Hl'. lia.
    - intros r s (p & Hp & Hr & ->)%main_at_lookup_Some. simpl.
      pose proof (Hl r Hr). pose proof (Hpast r Hr).
      rewrite main_program_at. rewrite decide_False by lia.
      rewrite decide_False by lia. rewrite decide_False by lia.
      rewrite (decide_True (P := _ ∧ _)); [done|]. split; [done|lia]. }
  assert (Hin : ∀ r, r < length ps → loop_entry barrier (length ps) r ≤ f r).
  { intros r Hr. destruct (decide (loop_entry barrier (length ps) r ≤ f r)); [done|].
    exfalso. apply Hloop, list.Exists_exists. exists r.
    split; [apply elem_of_seq|]; lia. }
  (* the exchange *)
  assert (Hstep' : in_step (length (startup ps))
            (fun r => (f r - loop_entry barrier (length ps) r) `min` 4))
    by by rewrite startup_size.
  destruct (exchange_progress (startup ps) Hnull startup_bound _ Hstep')
    as [Hall|[m1 Hm1]].
  { left. intros r Hr. rewrite startup_size in Hall.
    pose proof (Hall r Hr). pose proof (Hbound r Hr).
    pose proof (Hidle r Hr) as (_ & _ & ?). pose proof (Hin r Hr).
    cbv beta in *. lia. }
  right.
  assert (Hcall : ∀ r p s c,
            ps !! r = Some p →
            exchange_at (startup ps)
              (fun r => (f r - loop_entry barrier (length ps) r) `min` 4) !! r
              = Some s →
            exchange_program (length (startup ps)) r !! pc s = Some c →
            main_program barrier (length ps) r !! f r = Some c ∧
            main_at barrier ps master f !! r =
              Some (RankState (run_to barrier ps master r (f r) p) (f r))).
  { intros r p s c Hp Hs Hc. split; [|by apply Hstate].
    rewrite exchange_at_lookup, (startup_rank r p Hp) in Hs.
    injection Hs as <-. simpl in Hc. rewrite startup_size in Hc.
    pose proof (lookup_lt_Some _ _ _ Hc) as Hn.
    rewrite exchange_program_length in Hn.
    pose proof (Hin r ltac:(by eapply lookup_lt_Some)).
    apply main_program_exchange in Hc.
    rewrite <- Hc. f_equal. lia. }
  assert (Hrank : ∀ r s,
            exchange_at (startup ps)
              (fun r => (f r - loop_entry barrier (length ps) r) `min` 4) !! r
              = Some s → ∃ p, ps !! r = Some p).
  { intros r s Hs. apply lookup_lt_Some in Hs.
    rewrite exchange_at_length, startup_size in Hs.
    by apply lookup_lt_is_Some_2. }
  inversion Hm1 as
    [m r s g Hr Hc | m r s buf Hr Hc | m r s first_row Hr Hc
    | m a b sa sb buf first_row Hab Ha Hb Hca Hcb | m Hne Hallb]; subst.
  - destruct (Hrank r s Hr) as [p Hp].
    destruct (Hcall r p s _ Hp Hr Hc) as [Hc' Hs'].
    eexists. by eapply (step_work _ _ r).
  - destruct (Hrank r s Hr) as [p Hp].
    destruct (Hcall r p s _ Hp Hr Hc) as [Hc' Hs'].
    eexists. by eapply (step_send_null _ _ r).
  - destruct (Hrank r s Hr) as [p Hp].
    destruct (Hcall r p s _ Hp Hr Hc) as [Hc' Hs'].
    eexists. by eapply (step_recv_null _ _ r).
  - destruct (Hrank a sa Ha) as [pa Hpa]. destruct (Hrank b sb Hb) as [pb Hpb].
    destruct (Hcall a pa sa _ Hpa Ha Hca) as [Hca' Hsa'].
    destruct (Hcall b pb sb _ Hpb Hb Hcb) as [Hcb' Hsb'].
    eexists. by eapply (step_transfer _ _ a b).
  - destruct (exchange_at (startup ps) _) as [|s m] eqn:Hm; [done|].
    specialize (Hallb 0 s eq_refl).
    apply exchange_program_lookup in Hallb as [[_ ?]|[[_ ?]|[[_ ?]|[_ ?]]]]; done.
Qed.

Lemma main_calls_done f :
  on_course barrier (length ps) f →
  calls_done (main_at barrier ps master f) ≤ (length ps + 8) * length ps.
Proof.
  intros (Hbound & _).
  transitivity ((length ps + 8) * length (main_at barrier ps master f));
    [|by rewrite main_at_length].
  apply (calls_done_bound ps), Forall_lookup.
  intros r s (p & Hp & Hr & ->)%main_at_lookup_Some. simpl.
  pose proof (Hbound r Hr). entry_lia.
Qed.

(** Every state of the run can be run to the end. *)
Lemma main_completes f :
  on_course barrier (length ps) f →
  ∃ m', rtc (step (main_program barrier (length ps)))
            (main_at barrier ps master f) m' ∧
        finished (main_program barrier (length ps)) m'.
Proof.
  remember ((length ps + 8) * length ps - calls_done (main_at barrier ps master f))
    as n eqn:Hn.
  revert f Hn. induction n as [n IH] using lt_wf_ind. intros f Hn Hon.
  destruct (main_progress f Hon) as [Hall|[m1 Hstep]].
  - exists (main_at barrier ps master f). split; [done|]. by apply main_finished.
  - destruct (main_step f m1 Hon Hstep) as (f1 & -> & Hon1).
    pose proof (step_calls_done _ _ _ Hstep).
    pose proof (main_calls_done f1 Hon1).
    destruct (IH ((length ps + 8) * length ps
                  - calls_done (main_at barrier ps master f1)) ltac:(lia)
                 f1 eq_refl Hon1) as (m' & Hrun & Hfin).
    exists m'. split; [|done]. by eapply rtc_l.
Qed.

(** What a completed run leaves in memory. *)
Lemma main_result f :
  (∀ r, r < length ps → f r = loop_entry barrier (length ps) r + 5) →
  mem <$> main_at barrier ps master f = relax <$> exchange_ghost_cells (startup ps).
Proof.
  intros Hall. apply list_eq. intros r.
  rewrite !list_lookup_fmap, main_at_lookup, exchange_ghost_cells_lookup.
  destruct (ps !! r) as [p|] eqn:Hp.
  - rewrite (startup_rank r p Hp). simpl. f_equal.
    rewrite run_to_end; [done|]. rewrite Hall; [lia|]. by eapply lookup_lt_Some.
  - assert (startup ps !! r = None) as ->; [|done].
    apply lookup_ge_None. rewrite startup_size. by apply lookup_ge_None.
Qed.

End FirstPass.

Lemma rtc_step_nil program m : rtc (step program) [] m → m = [].
Proof.
  remember [] as m0 eqn:Hm0. intros Hrun. revert Hm0.
  induction Hrun as [|x y z Hstep _ _]; [done|]. intros ->.
  inversion Hstep as [? ? ? ? Hr|? ? ? ? Hr|? ? ? ? Hr|? ? ? ? ? ? ? ? Hr|? Hne];
    done.
Qed.

(** X10: the start-up and the first pass as the ranks run them, with the
    barrier before the loop compiled in or commented out.  The calls of
    [main] from the first barrier to the end of the first update are taken
    one at a time, a synchronous send completing together with the receive
    it matches.  From every state the ranks can reach, the run can be
    completed; a state in which no call can complete is one in which every
    rank is through its calls; and however the calls interleaved, the
    complete run leaves on every rank the memory that the distribution, the
    initial copy, the exchange and the update give as functions. *)
Theorem first_pass_runs_to_completion (barrier : bool) (ps : list process)
    (m : list rank_state) :
  (MPI_PROC_NULL < 0)%Z →
  (Z.of_nat (length ps) ≤ INT_MAX)%Z →
  rtc (step (main_program barrier (length ps))) (launch ps) m →
  (∃ m', rtc (step (main_program barrier (length ps))) m m' ∧
         finished (main_program barrier (length ps)) m') ∧
  (finished (main_program barrier (length ps)) m ∨
   ∃ m', step (main_program barrier (length ps)) m m') ∧
  (finished (main_program barrier (length ps)) m →
   mem <$> m = relax <$> exchange_ghost_cells (startup ps)).
Proof.
  intros Hnull Hsize Hrun.
  destruct (ps !! 0) as [master|] eqn:Hmaster.
  - destruct (main_reachable barrier ps master Hnull Hsize Hmaster m Hrun)
      as (f & -> & Hon).
    split; [by apply main_completes|]. split.
    + destruct (main_progress barrier ps master Hnull Hsize Hmaster f Hon)
        as [Hall|Hs]; [left; by apply (main_finished barrier ps master f)|by right].
    + intros Hfin. apply main_result; [done|].
      by apply (main_finished barrier ps master f).
  - assert (ps = []) as ->.
    { apply lookup_ge_None in Hmaster. destruct ps; simpl in *; [done|lia]. }
    apply rtc_step_nil in Hrun as ->.
    split; [exists []; split; [done|by intros r s Hs]|].
    split; [left; by intros r s Hs|done].
Qed.

(** ** The order of the assignments *)

Lemma store_commute (t : slab) i j v i' j' v' :
  (i, j) ≠ (i', j') →
  store (store t i j v) i' j' v' = store (store t i' j' v') i j v.
Proof.
  intros Hne. unfold store. destruct (decide (i = i')) as [<-|Hi].
  - rewrite !list_alter_alter_eq. apply list_alter_ext; [|done]. intros r _. simpl.
    apply list_insert_insert_ne. congruence.
  - apply list_alter_alter_ne. congruence.
Qed.

Lemma store_if_commute g (t : slab) i j v i' j' v' :
  (i, j) ≠ (i', j') →
  store_if g (store_if g t i j v) i' j' v' =
  store_if g (store_if g t i' j' v') i j v.
Proof.
  intros Hne. unfold store_if.
  destruct (g (cell t i j)) eqn:E1, (g (cell t i' j')) eqn:E2;
    rewrite ?cell_store_ne by congruence; rewrite ?E1, ?E2; try done.
  by apply store_commute.
Qed.

(** A loop whose iterations assign distinct cells, each under a test of
    that cell only, gives the same array in whatever order they are made. *)
Lemma sweep_Permutation {K} g (fi fj : K → nat) fv (l l' : list K) t :
  l ≡ₚ l' →
  (∀ k k', k ∈ l → k' ∈ l → (fi k, fj k) = (fi k', fj k') → k = k') →
  sweep g fi fj fv t l = sweep g fi fj fv t l'.
Proof.
  intros Hp. revert t.
  induction Hp as [|x l l' Hp IH|x y l|l l' l'' Hp1 IH1 Hp2 IH2]; intros t Hinj.
  - done.
  - rewrite !sweep_cons. apply IH. intros k k' Hk Hk'.
    apply Hinj; by right.
  - rewrite !sweep_cons.
    destruct (decide ((fi x, fj x) = (fi y, fj y))) as [Heq|Hne].
    + assert (x = y) as ->; [|done].
      apply Hinj; [right; by left|by left|done].
    + f_equal. apply store_if_commute. congruence.
  - rewrite IH1 by done. apply IH2. intros k k' Hk Hk'.
    apply Hinj; by rewrite Hp1.
Qed.

Lemma sweep_fmap {K K'} g (fi fj : K' → nat) fv (h : K → K') t l :
  sweep g fi fj fv t (h <$> l) =
  sweep g (fun k => fi (h k)) (fun k => fj (h k)) (fun k => fv (h k)) t l.
Proof. revert t. induction l as [|k l IH]; intros t; [done|]. csimpl. apply IH. Qed.

Lemma sweep_app {K} g (fi fj : K → nat) fv t l1 l2 :
  sweep g fi fj fv t (l1 ++ l2) = sweep g fi fj fv (sweep g fi fj fv t l1) l2.
Proof. apply foldl_app. Qed.

Lemma update_in_order_sweep t tasks :
  update_in_order t tasks =
  sweep not_max (fun k => k.1.1) (fun k => k.1.2) snd t tasks.
Proof. reflexivity. Qed.

(** The update of [main] is the assignments of [update_tasks] in their order. *)
Lemma propagate_tasks t last :
  propagate t last = update_in_order t (update_tasks last).
Proof.
  rewrite update_in_order_sweep. unfold update_tasks, propagate.
  rewrite !sweep_app, !sweep_fmap.
  by rewrite right_kernel_sweep, middle_kernel_sweep, left_kernel_sweep.
Qed.

(** No two assignments of one update aim at the same cell. *)
Lemma update_tasks_distinct last k k' :
  2 ≤ COLUMNS_PER_MPI_PROCESS →
  k ∈ update_tasks last → k' ∈ update_tasks last →
  (k.1.1, k.1.2) = (k'.1.1, k'.1.2) → k = k'.
Proof.
  intros HC. unfold update_tasks. rewrite !elem_of_app, !list_elem_of_fmap.
  intros [(i & -> & Hi)|[([i j] & -> & Hi%elem_of_middle_cells)|(i & -> & Hi)]]
         [(i' & -> & Hi')|[([i' j'] & -> & Hi'%elem_of_middle_cells)|(i' & -> & Hi')]];
    simpl; intros [= ]; subst; try done; lia.
Qed.

Lemma update_order t last tasks :
  2 ≤ COLUMNS_PER_MPI_PROCESS →
  tasks ≡ₚ update_tasks last →
  update_in_order t tasks = propagate t last.
Proof.
  intros HC Hp. rewrite propagate_tasks.
  rewrite (update_in_order_sweep _ tasks), (update_in_order_sweep _ (update_tasks _)).
  symmetry. apply sweep_Permutation; [done|].
  intros k k'. by apply update_tasks_distinct.
Qed.

(** The kernels, each over its own assignments. *)
Lemma kernels_tasks t last :
  let L := (fun i => (i, 0, left_value last i)) <$> seq 1 ROWS_PER_MPI_PROCESS in
  let M := (fun p : nat * nat => (p.1, p.2, middle_value last p.1 p.2))
             <$> middle_cells in
  let R := (fun i => (i, COLUMNS_PER_MPI_PROCESS - 1, right_value last i))
             <$> seq 1 ROWS_PER_MPI_PROCESS in
  left_kernel t last = update_in_order t L ∧
  middle_kernel t last = update_in_order t M ∧
  right_kernel t last = update_in_order t R.
Proof.
  cbv zeta.
  rewrite right_kernel_sweep, middle_kernel_sweep, left_kernel_sweep.
  split_and!; by rewrite update_in_order_sweep, sweep_fmap.
Qed.

Lemma update_in_order_app t l1 l2 :
  update_in_order (update_in_order t l1) l2 = update_in_order t (l1 ++ l2).
Proof. unfold update_in_order. by rewrite foldl_app. Qed.

(** X11: the update does not depend on the order of its assignments.  The
    three kernels are queued asynchronously and their iterations run in
    parallel, but with at least two columns no two iterations, of the same
    kernel or of different ones, assign the same cell, every test reads the
    cell it guards, and every value is read from [temperatures_last]: made
    in any order whatever, the assignments give the array that the kernels
    give in program order. *)
Theorem update_in_any_order (temperatures temperatures_last : slab)
    (tasks : list (nat * nat * double)) :
  2 ≤ COLUMNS_PER_MPI_PROCESS →
  tasks ≡ₚ update_tasks temperatures_last →
  update_in_order temperatures tasks = propagate temperatures temperatures_last.
Proof. apply update_order. Qed.

(** X12: the three kernels in any order.  Whichever of the three
    asynchronous queues is served first, second and third, the kernels leave
    the array they leave in program order. *)
Theorem kernels_in_any_order (temperatures temperatures_last : slab) :
  2 ≤ COLUMNS_PER_MPI_PROCESS →
  middle_kernel
    (right_kernel (left_kernel temperatures temperatures_last) temperatures_last)
    temperatures_last = propagate temperatures temperatures_last ∧
  right_kernel
    (left_kernel (middle_kernel temperatures temperatures_last) temperatures_last)
    temperatures_last = propagate temperatures temperatures_last ∧
  left_kernel
    (right_kernel (middle_kernel temperatures temperatures_last) temperatures_last)
    temperatures_last = propagate temperatures temperatures_last ∧
  middle_kernel
    (left_kernel (right_kernel temperatures temperatures_last) temperatures_last)
    temperatures_last = propagate temperatures temperatures_last ∧
  left_kernel
    (middle_kernel (right_kernel temperatures temperatures_last) temperatures_last)
    temperatures_last = propagate temperatures temperatures_last.
Proof.
  intros HC.
  assert (Hk := fun t => kernels_tasks t temperatures_last). cbv zeta in Hk.
  repeat split.
  all: repeat match goal with
       | |- context [left_kernel ?t _] => rewrite (proj1 (Hk t))
       | |- context [middle_kernel ?t _] => rewrite (proj1 (proj2 (Hk t)))
       | |- context [right_kernel ?t _] => rewrite (proj2 (proj2 (Hk t)))
       end.
  all: rewrite !update_in_order_app; apply update_order; [done|].
  all: unfold update_tasks; rewrite <- ?(assoc_L (++)).
  all: set (L := (fun i => (i, 0, left_value temperatures_last i))
                   <$> seq 1 ROWS_PER_MPI_PROCESS);
       set (M := _ <$> middle_cells);
       set (R := _ <$> seq 1 ROWS_PER_MPI_PROCESS).
  - apply Permutation_app_head, Permutation_app_comm.
  - apply Permutation_app_swap_app.
  - transitivity (M ++ L ++ R); [|apply Permutation_app_swap_app].
    apply Permutation_app_head, Permutation_app_comm.
  - rewrite (assoc_L (++) L M R). apply Permutation_app_comm.
  - transitivity (R ++ L ++ M).
    + apply Permutation_app_head, Permutation_app_comm.
    + rewrite (assoc_L (++) L M R). apply Permutation_app_comm.
Qed.

End Heat.

(* ================================================================= *)
(** * The ranks together against one process alone

    The same [main] on a single rank has [ROWS_PER_MPI_PROCESS] equal to the
    number of rows of the whole grid: the two runs are two instances of the
    definitions above. *)

Section Decomposition.

Variable ROWS_PER_MPI_PROCESS : nat.
Variable COLUMNS_PER_MPI_PROCESS : nat.
Variable MAX_TEMPERATURE : double.
Variable SNAPSHOT_INTERVAL : Z.
Variable MPI_PROC_NULL : Z.

Local Abbreviation ROWS ps := (length ps * ROWS_PER_MPI_PROCESS) (only parsing).

(** One pass keeps the ranks a split of the one process. *)
Lemma split_pass (ps : list process) (whole : process) :
  (MPI_PROC_NULL < 0)%Z →
  (Z.of_nat (length ps) ≤ INT_MAX)%Z →
  2 ≤ COLUMNS_PER_MPI_PROCESS →
  Forall (process_shape ROWS_PER_MPI_PROCESS COLUMNS_PER_MPI_PROCESS) ps →
  process_shape (ROWS ps) COLUMNS_PER_MPI_PROCESS whole →
  settled COLUMNS_PER_MPI_PROCESS (ROWS ps) whole →
  split_of ROWS_PER_MPI_PROCESS COLUMNS_PER_MPI_PROCESS ps whole →
  ∃ whole',
    loop_pass (ROWS ps) COLUMNS_PER_MPI_PROCESS MAX_TEMPERATURE
              SNAPSHOT_INTERVAL MPI_PROC_NULL [whole] = [whole'] ∧
    process_shape (ROWS ps) COLUMNS_PER_MPI_PROCESS whole' ∧
    settled COLUMNS_PER_MPI_PROCESS (ROWS ps) whole' ∧
    split_of ROWS_PER_MPI_PROCESS COLUMNS_PER_MPI_PROCESS
      (loop_pass ROWS_PER_MPI_PROCESS COLUMNS_PER_MPI_PROCESS MAX_TEMPERATURE
                 SNAPSHOT_INTERVAL MPI_PROC_NULL ps)
      whole'.
Proof.
  intros Hnull Hsize HC Hshape Hwshape Hset Hsplit.
  assert (Hwlist : Forall (process_shape (ROWS ps) COLUMNS_PER_MPI_PROCESS) [whole])
    by by constructor.
  destruct (loop_pass_single (ROWS ps) COLUMNS_PER_MPI_PROCESS MAX_TEMPERATURE
              SNAPSHOT_INTERVAL MPI_PROC_NULL whole) as [whole' Hpass].
  destruct (loop_pass_rank (ROWS ps) COLUMNS_PER_MPI_PROCESS MAX_TEMPERATURE
              SNAPSHOT_INTERVAL MPI_PROC_NULL [whole] 0 whole Hwlist HC eq_refl)
    as (w & Hw & Hwcells & Hwghost).
  rewrite Hpass in Hw. injection Hw as <-.
  rewrite exchanged_single in Hwcells, Hwghost.
  exists whole'. split; [done|]. split; [|split].
  - pose proof (loop_pass_shape (ROWS ps) COLUMNS_PER_MPI_PROCESS MAX_TEMPERATURE
                  SNAPSHOT_INTERVAL MPI_PROC_NULL [whole] Hwlist) as Hs.
    rewrite Hpass in Hs. by inversion Hs.
  - intros i j Hi Hj. by apply Hwcells.
  - intros r p' Hp'.
    assert (Hr : r < length ps).
    { apply lookup_lt_Some in Hp'. by rewrite loop_pass_length in Hp'. }
    destruct (lookup_lt_is_Some_2 ps r Hr) as [p Hp].
    destruct (loop_pass_rank ROWS_PER_MPI_PROCESS COLUMNS_PER_MPI_PROCESS
                MAX_TEMPERATURE SNAPSHOT_INTERVAL MPI_PROC_NULL ps r p
                Hshape HC Hp) as (p'' & Hp'' & Hcells & Hghost).
    rewrite Hp' in Hp''. injection Hp'' as <-.
    destruct (Hsplit r p Hp) as (Hown & Htop & Hbot).
    rewrite loop_pass_length.
    assert (Htemp : ∀ i j, 1 ≤ i ≤ ROWS_PER_MPI_PROCESS → j < COLUMNS_PER_MPI_PROCESS →
              cell (temperatures p') i j =
              cell (temperatures whole') (r * ROWS_PER_MPI_PROCESS + i) j).
    { intros i j Hi Hj.
      destruct (Hcells i j Hi Hj) as [-> _].
      destruct (Hwcells (r * ROWS_PER_MPI_PROCESS + i) j ltac:(nia) Hj) as [-> _].
      destruct (Hown i j Hi Hj) as [-> _].
      by rewrite (split_stencil_value ROWS_PER_MPI_PROCESS COLUMNS_PER_MPI_PROCESS
                    MPI_PROC_NULL ps whole r p i j). }
    split; [|split].
    + intros i j Hi Hj. split; [by apply Htemp|].
      destruct (Hcells i j Hi Hj) as [_ ->].
      destruct (Hwcells (r * ROWS_PER_MPI_PROCESS + i) j ltac:(nia) Hj) as [_ ->].
      by apply Htemp.
    + intros -> j Hj.
      destruct (Hghost 0 ltac:(lia)) as [Hrow _].
      destruct (Hwghost 0 ltac:(lia)) as [Hwrow _].
      rewrite !cell_row, Hrow, Hwrow, exchanged_top_row, <- !cell_row.
      by apply Htop.
    + intros Hlast j Hj.
      destruct (Hghost (ROWS_PER_MPI_PROCESS + 1) ltac:(lia)) as [Hrow _].
      destruct (Hwghost (ROWS ps + 1) ltac:(lia)) as [Hwrow _].
      rewrite !cell_row, Hrow, Hwrow, exchanged_bottom_row, <- !cell_row by done.
      by apply Hbot.
Qed.

Lemma split_run (n : nat) (ps : list process) (whole : process) :
  (MPI_PROC_NULL < 0)%Z →
  (Z.of_nat (length ps) ≤ INT_MAX)%Z →
  2 ≤ COLUMNS_PER_MPI_PROCESS →
  Forall (process_shape ROWS_PER_MPI_PROCESS COLUMNS_PER_MPI_PROCESS) ps →
  process_shape (ROWS ps) COLUMNS_PER_MPI_PROCESS whole →
  settled COLUMNS_PER_MPI_PROCESS (ROWS ps) whole →
  split_of ROWS_PER_MPI_PROCESS COLUMNS_PER_MPI_PROCESS ps whole →
  ∃ whole',
    run (ROWS ps) COLUMNS_PER_MPI_PROCESS MAX_TEMPERATURE
        SNAPSHOT_INTERVAL MPI_PROC_NULL n [whole] = [whole'] ∧
    process_shape (ROWS ps) COLUMNS_PER_MPI_PROCESS whole' ∧
    settled COLUMNS_PER_MPI_PROCESS (ROWS ps) whole' ∧
    split_of ROWS_PER_MPI_PROCESS COLUMNS_PER_MPI_PROCESS
      (run ROWS_PER_MPI_PROCESS COLUMNS_PER_MPI_PROCESS MAX_TEMPERATURE
           SNAPSHOT_INTERVAL MPI_PROC_NULL n ps)
      whole'.
Proof.
  intros Hnull Hsize HC Hshape Hwshape Hset Hsplit.
  induction n as [|n (w & Hrun & Hws & Hwset & Hwsplit)]; [by exists whole|].
  pose proof (run_length ROWS_PER_MPI_PROCESS COLUMNS_PER_MPI_PROCESS
                MAX_TEMPERATURE SNAPSHOT_INTERVAL MPI_PROC_NULL n ps) as Hlen.
  destruct (split_pass
              (run ROWS_PER_MPI_PROCESS COLUMNS_PER_MPI_PROCESS MAX_TEMPERATURE
                   SNAPSHOT_INTERVAL MPI_PROC_NULL n ps) w)
    as (w' & Hpass & Hws' & Hwset' & Hwsplit'); rewrite ?Hlen; try done.
  { by apply run_shape. }
  rewrite Hlen in Hpass, Hws', Hwset'. exists w'. by rewrite !run_S, Hrun.
Qed.

(** X4: the decomposition is transparent.  Ranks that hold, chunk by chunk,
    the rows of a one-rank run of the same grid (with the same ghost rows at
    the two ends) still do after any number of passes: every owned cell of
    every rank has the value the one-rank run gives to the cell of the grid
    it stands for. *)
Theorem ranks_agree_with_one_rank (n : nat) (ps : list process) (whole : process) :
  (MPI_PROC_NULL < 0)%Z →
  (Z.of_nat (length ps) ≤ INT_MAX)%Z →
  2 ≤ COLUMNS_PER_MPI_PROCESS →
  Forall (process_shape ROWS_PER_MPI_PROCESS COLUMNS_PER_MPI_PROCESS) ps →
  process_shape (ROWS ps) COLUMNS_PER_MPI_PROCESS whole →
  settled COLUMNS_PER_MPI_PROCESS (ROWS ps) whole →
  split_of ROWS_PER_MPI_PROCESS COLUMNS_PER_MPI_PROCESS ps whole →
  ∃ whole',
    run (ROWS ps) COLUMNS_PER_MPI_PROCESS MAX_TEMPERATURE
        SNAPSHOT_INTERVAL MPI_PROC_NULL n [whole] = [whole'] ∧
    ∀ r p' i j,
      run ROWS_PER_MPI_PROCESS COLUMNS_PER_MPI_PROCESS MAX_TEMPERATURE
          SNAPSHOT_INTERVAL MPI_PROC_NULL n ps !! r = Some p' →
      1 ≤ i ≤ ROWS_PER_MPI_PROCESS → j < COLUMNS_PER_MPI_PROCESS →
      cell (temperatures p') i j =
        cell (temperatures whole') (r * ROWS_PER_MPI_PROCESS + i) j ∧
      cell (temperatures_last p') i j =
        cell (temperatures_last whole') (r * ROWS_PER_MPI_PROCESS + i) j.
Proof.
  intros Hnull Hsize HC Hshape Hwshape Hset Hsplit.
  destruct (split_run n ps whole Hnull Hsize HC Hshape Hwshape Hset Hsplit)
    as (whole' & Hrun & _ & _ & Hsplit').
  exists whole'. split; [done|]. intros r p' i j Hp' Hi Hj.
  destruct (Hsplit' r p' Hp') as (Hown & _ & _). by apply Hown.
Qed.

(** The start-up deals the master's grid out as a split of what the
    start-up of one rank alone makes of the same grid. *)
Lemma startup_split (ps : list process) (master last whole : process) :
  (Z.of_nat (ROWS ps) ≤ INT_MAX)%Z →
  ps !! 0 = Some master →
  ps !! (length ps - 1) = Some last →
  Forall (process_shape ROWS_PER_MPI_PROCESS COLUMNS_PER_MPI_PROCESS) ps →
  process_shape (ROWS ps) COLUMNS_PER_MPI_PROCESS whole →
  slab_shape (ROWS ps) COLUMNS_PER_MPI_PROCESS (all_temperatures master) →
  all_temperatures whole = all_temperatures master →
  row (temperatures_last whole) 0 = row (temperatures_last master) 0 →
  row (temperatures_last whole) (ROWS ps + 1) =
    row (temperatures_last last) (ROWS_PER_MPI_PROCESS + 1) →
  let whole0 := initial_copy (ROWS ps) COLUMNS_PER_MPI_PROCESS
                  (distributed (ROWS ps) COLUMNS_PER_MPI_PROCESS whole 0 whole) in
  startup (ROWS ps) COLUMNS_PER_MPI_PROCESS [whole] = [whole0] ∧
  Forall (process_shape ROWS_PER_MPI_PROCESS COLUMNS_PER_MPI_PROCESS)
         (startup ROWS_PER_MPI_PROCESS COLUMNS_PER_MPI_PROCESS ps) ∧
  process_shape (ROWS ps) COLUMNS_PER_MPI_PROCESS whole0 ∧
  settled COLUMNS_PER_MPI_PROCESS (ROWS ps) whole0 ∧
  split_of ROWS_PER_MPI_PROCESS COLUMNS_PER_MPI_PROCESS
    (startup ROWS_PER_MPI_PROCESS COLUMNS_PER_MPI_PROCESS ps) whole0.
Proof.
  intros Hmax Hmaster Hlast Hshape Hwshape Hall Hsame Htop Hbottom whole0.
  assert (Hall1 : slab_shape (length [whole] * (ROWS ps)) COLUMNS_PER_MPI_PROCESS
                    (all_temperatures whole)).
  { rewrite Hsame. simpl. by rewrite Nat.add_0_r. }
  assert (Hmax1 : (Z.of_nat (length [whole] * (ROWS ps)) ≤ INT_MAX)%Z).
  { simpl. by rewrite Nat.add_0_r. }
  assert (Hwhole : ∀ g j, 1 ≤ g ≤ ROWS ps → j < COLUMNS_PER_MPI_PROCESS →
            cell (temperatures whole0) g j = cell (all_temperatures master) (g - 1) j ∧
            cell (temperatures_last whole0) g j = cell (all_temperatures master) (g - 1) j).
  { intros g j Hg Hj.
    destruct (startup_cell (ROWS ps) COLUMNS_PER_MPI_PROCESS [whole] whole 0 whole
                (g - 1) j eq_refl eq_refl Hwshape Hall1 Hmax1 ltac:(lia) Hj)
      as [Ht Hl].
    replace (g - 1 + 1) with g in Ht, Hl by lia.
    by rewrite <- Hsame. }
  assert (Hws0 : process_shape (ROWS ps) COLUMNS_PER_MPI_PROCESS whole0).
  { apply initial_copy_shape, distributed_shape; [|done].
    rewrite Hsame. by destruct Hall. }
  split_and!.
  - done.
  - apply Forall_lookup. intros r p0 Hp0.
    rewrite (startup_lookup _ _ ps master r Hmaster) in Hp0.
    destruct (ps !! r) as [p|] eqn:Hp; [|done]. simpl in Hp0. injection Hp0 as <-.
    apply initial_copy_shape, distributed_shape; [by destruct Hall|].
    by apply (Forall_lookup_1 _ _ _ _ Hshape Hp).
  - done.
  - intros g j Hg Hj. destruct (Hwhole g j Hg Hj) as [-> ->]. done.
  - intros r p0 Hp0.
    rewrite (startup_lookup _ _ ps master r Hmaster) in Hp0.
    destruct (ps !! r) as [p|] eqn:Hp; [|done]. simpl in Hp0. injection Hp0 as <-.
    assert (Hr : r < length ps) by by eapply lookup_lt_Some.
    rewrite (startup_length _ _ ps master Hmaster).
    split_and!.
    + intros i j Hi Hj.
      destruct (startup_cell ROWS_PER_MPI_PROCESS COLUMNS_PER_MPI_PROCESS
                  ps master r p (i - 1) j Hmaster Hp
                  (Forall_lookup_1 _ _ _ _ Hshape Hp) Hall Hmax ltac:(lia) Hj)
        as [Ht Hl].
      replace (i - 1 + 1) with i in Ht, Hl by lia.
      destruct (Hwhole (r * ROWS_PER_MPI_PROCESS + i) j ltac:(nia) Hj) as [Hwt Hwl].
      rewrite Ht, Hl, Hwt, Hwl.
      by replace (r * ROWS_PER_MPI_PROCESS + i - 1)
           with (r * ROWS_PER_MPI_PROCESS + (i - 1)) by lia.
    + intros -> j Hj. assert (p = master) as -> by congruence.
      unfold whole0. rewrite !cell_row.
      change (temperatures_last (initial_copy ?a ?b ?q)) with (temperatures_last q).
      destruct (distributed_ghost_rows ROWS_PER_MPI_PROCESS COLUMNS_PER_MPI_PROCESS
                  master 0 master 0 ltac:(by left)) as [-> _].
      destruct (distributed_ghost_rows (ROWS ps) COLUMNS_PER_MPI_PROCESS
                  whole 0 whole 0 ltac:(by left)) as [-> _].
      by rewrite Htop.
    + intros Hr' j Hj.
      assert (p = last) as -> by (replace (length ps - 1) with r in Hlast by lia; congruence).
      unfold whole0. rewrite !cell_row.
      change (temperatures_last (initial_copy ?a ?b ?q)) with (temperatures_last q).
      destruct (distributed_ghost_rows ROWS_PER_MPI_PROCESS COLUMNS_PER_MPI_PROCESS
                  master r last (ROWS_PER_MPI_PROCESS + 1) ltac:(by right)) as [-> _].
      destruct (distributed_ghost_rows (ROWS ps) COLUMNS_PER_MPI_PROCESS
                  whole 0 whole (ROWS ps + 1) ltac:(by right)) as [-> _].
      by rewrite Hbottom.
Qed.

(** X9: the program on [comm_size] ranks computes what it computes on one.
    The same initial grid goes to a run on [comm_size] ranks of
    [ROWS_PER_MPI_PROCESS] rows and to a run on one rank that owns all the
    rows; the arrays that [main] leaves uninitialised hold the same values in
    the ghost row above the grid and in the ghost row below it.  Then after
    the start-up and any number of passes every owned cell of every rank
    holds what the one rank holds at that cell of the grid. *)
Theorem program_agrees_with_one_rank (n : nat) (ps : list process)
    (master last whole : process) :
  (MPI_PROC_NULL < 0)%Z →
  (Z.of_nat (length ps) ≤ INT_MAX)%Z →
  (Z.of_nat (ROWS ps) ≤ INT_MAX)%Z →
  2 ≤ COLUMNS_PER_MPI_PROCESS →
  ps !! 0 = Some master →
  ps !! (length ps - 1) = Some last →
  Forall (process_shape ROWS_PER_MPI_PROCESS COLUMNS_PER_MPI_PROCESS) ps →
  process_shape (ROWS ps) COLUMNS_PER_MPI_PROCESS whole →
  slab_shape (ROWS ps) COLUMNS_PER_MPI_PROCESS (all_temperatures master) →
  all_temperatures whole = all_temperatures master →
  row (temperatures_last whole) 0 = row (temperatures_last master) 0 →
  row (temperatures_last whole) (ROWS ps + 1) =
    row (temperatures_last last) (ROWS_PER_MPI_PROCESS + 1) →
  ∃ whole',
    run (ROWS ps) COLUMNS_PER_MPI_PROCESS MAX_TEMPERATURE
        SNAPSHOT_INTERVAL MPI_PROC_NULL n
        (startup (ROWS ps) COLUMNS_PER_MPI_PROCESS [whole]) = [whole'] ∧
    ∀ r p' i j,
      run ROWS_PER_MPI_PROCESS COLUMNS_PER_MPI_PROCESS MAX_TEMPERATURE
          SNAPSHOT_INTERVAL MPI_PROC_NULL n
          (startup ROWS_PER_MPI_PROCESS COLUMNS_PER_MPI_PROCESS ps) !! r = Some p' →
      1 ≤ i ≤ ROWS_PER_MPI_PROCESS → j < COLUMNS_PER_MPI_PROCESS →
      cell (temperatures p') i j =
        cell (temperatures whole') (r * ROWS_PER_MPI_PROCESS + i) j.
Proof.
  intros Hnull Hsize Hmax HC Hmaster Hlast Hshape Hwshape Hall Hsame Htop Hbottom.
  destruct (startup_split ps master last whole Hmax Hmaster Hlast Hshape Hwshape
              Hall Hsame Htop Hbottom) as (Hone & Hshape0 & Hws0 & Hset0 & Hsplit0).
  pose proof (startup_length ROWS_PER_MPI_PROCESS COLUMNS_PER_MPI_PROCESS
                ps master Hmaster) as Hlen.
  rewrite Hone.
  destruct (split_run n (startup ROWS_PER_MPI_PROCESS COLUMNS_PER_MPI_PROCESS ps)
              (initial_copy (ROWS ps) COLUMNS_PER_MPI_PROCESS
                 (distributed (ROWS ps) COLUMNS_PER_MPI_PROCESS whole 0 whole)))
    as (whole' & Hrun & _ & _ & Hsplit'); rewrite ?Hlen; try done.
  rewrite Hlen in Hrun. exists whole'. split; [done|].
  intros r p' i j Hp' Hi Hj.
  destruct (Hsplit' r p' Hp') as (Hown & _ & _). by apply Hown.
Qed.

End Decomposition.

(* ================================================================= *)
(** * The theorems at sample inputs *)

Lemma float_neq (x y : double) :
  PrimFloat.eqb x y = false → PrimFloat.eqb x x = true → x ≠ y.
Proof. intros Hxy Hxx ->. congruence. Qed.

Lemma sample_shape : Forall (process_shape 2 4) Sample.two_ranks.
Proof.
  repeat constructor.
Defined.

(** C1 at the interior cell [(1, 1)] of a slab of the sample. *)
Lemma C1_witness :
  cell (propagate 2 4 50 Sample.stack Sample.grid) 1 1
  = PrimFloat.mul 0.25
      (PrimFloat.add
         (PrimFloat.add
            (PrimFloat.add (cell Sample.grid 0 1) (cell Sample.grid 2 1))
            (cell Sample.grid 1 0))
         (cell Sample.grid 1 2)).
Proof.
  refine (proj1 (proj1 (C1_stencil_update 2 4 50 Sample.stack Sample.grid 1 1
                          _ _ _ _) _) _).
  - split; [reflexivity|repeat constructor].
  - lia.
  - lia.
  - lia.
  - reflexivity.
  - simpl. lia.
Defined.

Lemma sample_bound : (Z.of_nat (length Sample.two_ranks * 2) ≤ INT_MAX)%Z.
Proof. unfold INT_MAX. simpl. lia. Defined.

Lemma sample_size : (Z.of_nat (length Sample.two_ranks) ≤ INT_MAX)%Z.
Proof. unfold INT_MAX. simpl. lia. Defined.

(** C2 at the fixed source [(2, 2)] of the sample, after three passes. *)
Lemma C2_witness :
  ∃ p', run 2 4 50 1 (-2) 3 (startup 2 4 Sample.two_ranks) !! (2 / 2) = Some p' ∧
        cell (temperatures p') (2 mod 2 + 1) 2 =
          cell (all_temperatures Sample.master) 2 2.
Proof.
  apply (C2_fixed_source_cells_invariant 2 4 50 1 (-2)
           Sample.two_ranks Sample.master 2 2 3).
  - reflexivity.
  - exact sample_shape.
  - split; [reflexivity|repeat constructor].
  - exact sample_bound.
  - simpl. lia.
  - lia.
  - reflexivity.
Defined.

(** C3 for four rows on two ranks: the chunk of rank [1]. *)
Lemma C3_witness :
  chunk_first_row 2 1 = (1 * 4 / 2)%Z ∧
  (chunk_first_row 2 1 + Z.of_nat 2)%Z = ((1 + 1) * 4 / 2)%Z ∧
  up_neighbour_rank (-2) 1 = (if decide (1 = 0)%Z then (-2) else 1 - 1)%Z ∧
  down_neighbour_rank (-2) 2 1 = (if decide (1 = 2 - 1)%Z then (-2) else 1 + 1)%Z.
Proof.
  refine (proj1 (C3_partition 2 (-2) 4 2 _ _ _ _) 1%Z _).
  - unfold INT_MAX. lia.
  - unfold INT_MAX. lia.
  - exists 2%Z. reflexivity.
  - reflexivity.
  - lia.
Defined.

(** C4 at rank [0] of the sample, which has no upper neighbour. *)
Lemma C4_witness :
  ∃ p', loop_pass 2 4 50 1 (-2) Sample.two_ranks !! 0 = Some p' ∧
        cell (temperatures p') 1 1 =
          stencil_value 4
            (temperatures_last (exchanged 2 (-2) Sample.two_ranks 0 4 Sample.master))
            1 1.
Proof.
  destruct (C4_edge_ranks_uniform_stencil 2 4 50 1 (-2)
              Sample.two_ranks 0 Sample.master 1)
    as (p' & Hp' & Htop & _).
  - reflexivity.
  - split; (split; [reflexivity|repeat constructor]).
  - exact sample_size.
  - lia.
  - lia.
  - lia.
  - exists p'. split; [exact Hp'|].
    apply (proj2 (Htop eq_refl)). reflexivity.
Defined.

(** C5 at rank [1] of the sample. *)
Lemma C5_witness :
  ∃ p', startup 2 4 Sample.two_ranks !! 1 = Some p' ∧ process_shape 2 4 p'.
Proof.
  destruct (C5_slabs_not_initialised 2 4 Sample.two_ranks Sample.master 1
              Sample.worker)
    as (p' & Hp' & Hshape & _).
  - reflexivity.
  - reflexivity.
  - split; (split; [reflexivity|repeat constructor]).
  - split; [reflexivity|repeat constructor].
  - exact sample_bound.
  - exists p'. split; [exact Hp'|exact Hshape].
Defined.

(** C6 on the two ranks of the sample. *)
Lemma C6_witness :
  ∃ m, rtc (step (-2) (exchange_program 2 (-2) 2)) (launch Sample.two_ranks) m ∧
       finished (exchange_program 2 (-2) 2) m.
Proof.
  refine (proj1 (C6_halo_exchange 2 4 (-2) Sample.two_ranks _ _ _)).
  - lia.
  - exact sample_size.
  - exact sample_shape.
Defined.

(** C7 at the start of the exchange on the two ranks of the sample. *)
Lemma C7_witness :
  finished (exchange_program 2 (-2) 2) (launch Sample.two_ranks) ∨
  ∃ m', step (-2) (exchange_program 2 (-2) 2) (launch Sample.two_ranks) m'.
Proof.
  refine (proj1 (C7_blocking_exchange_deadlock_free 2 (-2) Sample.two_ranks
                   (launch Sample.two_ranks) _ _ _)).
  - lia.
  - exact sample_size.
  - apply rtc_refl.
Defined.

(** C9 on the sample. *)
Lemma C9_witness :
  ∃ m', loop_pass 2 4 50 1 (-2) (startup 2 4 Sample.two_ranks) !! 0 = Some m' ∧
    ∀ r q0 k,
      startup 2 4 Sample.two_ranks !! r = Some q0 →
      k < 2 →
      row (snapshot m') (r * 2 + k) =
      row (propagate 2 4 50 (temperatures q0)
             (temperatures_last
                (exchanged 2 (-2) (startup 2 4 Sample.two_ranks) r 4 q0)))
          (k + 1).
Proof.
  apply (C9_first_snapshot_after_update 2 4 50 1 (-2)
           Sample.two_ranks Sample.master).
  - lia.
  - reflexivity.
  - exact sample_shape.
  - reflexivity.
Defined.

(** C10 at the fixed source of the sample, in the slab of rank [1] after the
    start-up: local row [1], column [2], after five passes. *)
Lemma C10_witness :
  ∃ p', run 2 4 50 1 (-2) 5 (startup 2 4 Sample.two_ranks) !! 1 = Some p' ∧
        cell (temperatures p') 1 2 = 50%float.
Proof.
  refine (proj2 (C10_fixed_source_by_value 2 4 50 1 (-2)
                   (startup 2 4 Sample.two_ranks) 1
                   (initial_copy 2 4 (distributed 2 4 Sample.master 1 Sample.worker))
                   1 2 _ _ _ _ _) _ 5).
  - reflexivity.
  - split; [reflexivity|repeat constructor].
  - lia.
  - lia.
  - lia.
  - reflexivity.
Defined.

(** The counterexample of C1.  The sample on a stack that holds [200.0];
    the cell [(0, 1)] of the grid is the cell [(1, 1)] of rank [0].  The
    initial condition has [0.0] there, so it is no fixed-source cell: the
    only one is [(2, 2)].  The first pass gives it
    [0.25 * (200 + 0 + 0 + 0) = 50.0], with the [200.0] of the ghost row
    above; from then on it compares equal to [MAX_TEMPERATURE].  In the
    second pass the four neighbours in [temperatures_last] are [200.0],
    [0.0], [200 / 3] and [50.0], and the four-point value is
    [0.25 * (200 + 0 + 200 / 3 + 50)], about [79.17]; the update leaves the
    cell at [50.0]. *)
Lemma C1_counterexample :
  cell (all_temperatures Sample.heated_master) 0 1 = 0%float ∧
  (fun p => cell (temperatures p) 1 1)
    <$> startup 2 4 Sample.heated_ranks !! 0 = Some 0%float ∧
  0%float ≠ 50%float ∧
  (fun p => cell (temperatures p) 1 1)
    <$> run 2 4 50 1 (-2) 1 (startup 2 4 Sample.heated_ranks) !! 0
  = Some 50%float ∧
  (fun p => middle_value (temperatures_last p) 1 1)
    <$> exchange_ghost_cells 2 (-2)
          (run 2 4 50 1 (-2) 1 (startup 2 4 Sample.heated_ranks)) !! 0
  = Some (PrimFloat.mul 0.25
            (PrimFloat.add
               (PrimFloat.add (PrimFloat.add 200 0) (PrimFloat.div 200 3))
               50)) ∧
  (fun p => cell (temperatures p) 1 1)
    <$> run 2 4 50 1 (-2) 2 (startup 2 4 Sample.heated_ranks) !! 0
  = Some 50%float ∧
  50%float ≠ PrimFloat.mul 0.25
               (PrimFloat.add
                  (PrimFloat.add (PrimFloat.add 200 0) (PrimFloat.div 200 3))
                  50).
Proof.
  repeat split; try reflexivity; by apply float_neq.
Qed.

(** The counterexample of C4.  Rank [0] of the sample has no upper
    neighbour, and the first pass gives the cell [(1, 1)] of its slab the
    four-point value [0.25 * (7 + 0 + 0 + 0)], with the [7.0] of the ghost row
    that nothing ever assigned, where the boundary-aware variant would give
    the three-point value [(0 + 0 + 0) / 3.0].  Rank [1] has no lower
    neighbour, and on a stack of zeros the first pass gives the cell [(2, 2)]
    of its slab, below the fixed source, [0.25 * (50 + 0 + 0 + 0)] where the
    boundary-aware variant would give [(50 + 0 + 0) / 3.0]. *)
Lemma C4_counterexample :
  (up_neighbour_rank (-2) 0 = (-2)%Z ∧
   (fun p => cell (temperatures_last p) 0 1)
     <$> startup 2 4 Sample.two_ranks !! 0 = Some 7%float ∧
   (fun p => cell (temperatures p) 1 1)
     <$> loop_pass 2 4 50 1 (-2) (startup 2 4 Sample.two_ranks) !! 0
   = Some 1.75%float ∧
   (fun p => spec_top_value (temperatures_last p) 1 1)
     <$> startup 2 4 Sample.two_ranks !! 0 = Some 0%float ∧
   1.75%float ≠ 0%float) ∧
  (down_neighbour_rank (-2) 2 1 = (-2)%Z ∧
   (fun p => cell (temperatures p) 2 2)
     <$> loop_pass 2 4 50 1 (-2) (startup 2 4 Sample.calm_ranks) !! 1
   = Some 12.5%float ∧
   (fun p => spec_bottom_value (temperatures_last p) 2 2)
     <$> startup 2 4 Sample.calm_ranks !! 1 = Some (PrimFloat.div 50 3) ∧
   12.5%float ≠ PrimFloat.div 50 3).
Proof.
  split; repeat split; try reflexivity; by apply float_neq.
Qed.

(** The counterexample of C5: the slabs of rank [1] of the sample have their
    declared shape and hold [7.0], not [0.0], before the initial condition is
    loaded; and the ghost row [0] of both still holds [7.0] after the
    start-up. *)
Lemma C5_counterexample :
  process_shape 2 4 Sample.worker ∧
  cell (temperatures Sample.worker) 0 0 = 7%float ∧
  cell (temperatures_last Sample.worker) 0 0 = 7%float ∧
  (fun p => cell (temperatures p) 0 0)
    <$> startup 2 4 Sample.two_ranks !! 1 = Some 7%float ∧
  (fun p => cell (temperatures_last p) 0 0)
    <$> startup 2 4 Sample.two_ranks !! 1 = Some 7%float ∧
  7%float ≠ 0%float.
Proof.
  split; [split; (split; [reflexivity|repeat constructor])|].
  repeat split; try reflexivity.
  by apply float_neq.
Qed.

(** The counterexample of C7: the calls of the middle rank of three are a
    blocking synchronous send followed by a blocking receive, twice, towards
    ranks [0], [2], [2] and [0]. *)
Lemma C7_counterexample :
  blocking_send_then_receive (exchange_program 2 (-2) 3 1) = true ∧
  blocking_send_then_receive (drop 2 (exchange_program 2 (-2) 3 1)) = true ∧
  call_peer <$> exchange_program 2 (-2) 3 1
  = [Some 0%Z; Some 2%Z; Some 2%Z; Some 0%Z].
Proof. repeat split. Qed.

(** The counterexample of C9: in the pass with [iteration_count = 0] the
    master's [snapshot] gets [12.5] at [(2, 1)], the value after the first
    update, where the initial condition has [0.0]. *)
Lemma C9_counterexample :
  iteration_count <$> startup 2 4 Sample.two_ranks !! 0 = Some 0%Z ∧
  (fun p => cell (snapshot p) 2 1)
    <$> loop_pass 2 4 50 1 (-2) (startup 2 4 Sample.two_ranks) !! 0
  = Some 12.5%float ∧
  cell (all_temperatures Sample.master) 2 1 = 0%float ∧
  12.5%float ≠ 0%float.
Proof.
  repeat split; try reflexivity.
  by apply float_neq.
Qed.

(** C8, in [gpu.c], where the barrier before the loop is commented out, on
    the three ranks of the sample: after the first barrier, the master's own
    copy, the transfer of the chunk of rank [1] and the initial copy of rank
    [1], rank [1] is in the loop, at the first send of its exchange, while
    rank [2] is still at the receive of its chunk. *)
Theorem C8_gpu_rank_in_loop_before_all_received :
  ∃ m,
    rtc (step (-2) (main_program 1 2 50 (-2) false 3)) (launch Sample.three_ranks) m ∧
    pc <$> m !! 1 = Some (loop_entry false 3 1) ∧
    main_program 1 2 50 (-2) false 3 1 !! loop_entry false 3 1
    = exchange_program 1 (-2) 3 1 !! 0 ∧
    pc <$> m !! 2 = Some 1 ∧
    main_program 1 2 50 (-2) false 3 2 !! 1 = Some (MPI_Recv 1 MASTER_PROCESS_RANK).
Proof.
  eexists. split.
  - (* the barrier before the distribution *)
    eapply rtc_l.
    { apply step_barrier; [done|].
      intros [|[|[|r]]] s Hr; simplify_eq/=; reflexivity. }
    (* the master copies its own chunk *)
    eapply rtc_l.
    { eapply (step_work _ _ _ 0); reflexivity. }
    (* the chunk of rank 1 goes from the master to rank 1 *)
    eapply rtc_l.
    { eapply (step_transfer _ _ _ 0 1); [done|reflexivity|reflexivity| |];
        reflexivity. }
    (* rank 1 copies [temperatures_last] to [temperatures] *)
    eapply rtc_l.
    { eapply (step_work _ _ _ 1); reflexivity. }
    apply rtc_refl.
  - repeat split.
Qed.

(** The sibling variant on the three ranks of the sample: a run through the
    whole start-up and the barrier; rank [1] is then in the loop, and so is
    rank [2]. *)
Lemma barrier_keeps_ranks_together_witness :
  ∃ m s s',
    rtc (step (-2) (main_program 1 2 50 (-2) true 3)) (launch Sample.three_ranks) m ∧
    m !! 1 = Some s ∧ m !! 2 = Some s' ∧
    loop_entry true 3 1 ≤ pc s ∧
    loop_entry true 3 2 ≤ pc s'.
Proof.
  assert (Hrun : ∃ m,
            rtc (step (-2) (main_program 1 2 50 (-2) true 3))
                (launch Sample.three_ranks) m ∧
            pc <$> m = [6; 4; 4]).
  { eexists. split.
    - eapply rtc_l.
      { apply step_barrier; [done|].
        intros [|[|[|r]]] s Hr; simplify_eq/=; reflexivity. }
      eapply rtc_l.
      { eapply (step_work _ _ _ 0); reflexivity. }
      eapply rtc_l.
      { eapply (step_transfer _ _ _ 0 1); [done|reflexivity|reflexivity| |];
          reflexivity. }
      eapply rtc_l.
      { eapply (step_transfer _ _ _ 0 2); [done|reflexivity|reflexivity| |];
          reflexivity. }
      eapply rtc_l.
      { eapply (step_work _ _ _ 0); reflexivity. }
      eapply rtc_l.
      { eapply (step_work _ _ _ 1); reflexivity. }
      eapply rtc_l.
      { eapply (step_work _ _ _ 2); reflexivity. }
      eapply rtc_l.
      { apply step_barrier; [done|].
        intros [|[|[|r]]] s Hr; simplify_eq/=; reflexivity. }
      apply rtc_refl.
    - reflexivity. }
  destruct Hrun as (m & Hrun & Hpc).
  destruct m as [|s0 [|s1 [|s2 [|s3 m]]]]; try discriminate Hpc.
  injection Hpc as H0 H1 H2.
  exists [s0; s1; s2], s1, s2.
  split; [exact Hrun|]. split; [reflexivity|]. split; [reflexivity|].
  assert (Hin : loop_entry true 3 1 ≤ pc s1)
    by (change (loop_entry true 3 1) with 4; lia).
  split; [exact Hin|].
  exact (barrier_keeps_ranks_together 1 2 50 (-2) Sample.three_ranks
           [s0; s1; s2] 1 2 s1 s2 Hrun eq_refl eq_refl Hin).
Defined.

(** A pass on the sample after its start-up: rank [1], cell [(1, 1)]. *)
Lemma loop_pass_copies_back_witness :
  ∃ p', loop_pass 2 4 50 1 (-2) Sample.two_ranks !! 1 = Some p' ∧
        cell (temperatures_last p') 1 1 = cell (temperatures p') 1 1.
Proof.
  eexists. split; [reflexivity|].
  apply (loop_pass_copies_back 2 4 50 1 (-2) Sample.two_ranks 1 _ 1 1).
  - exact sample_shape.
  - reflexivity.
  - lia.
  - lia.
Defined.

(** The grid of four rows held by two ranks and by one, after two passes. *)
Lemma ranks_agree_with_one_rank_witness :
  ∃ whole',
    run 4 4 50 1 (-2) 2 [Sample.one_rank] = [whole'] ∧
    ∀ r p' i j,
      run 2 4 50 1 (-2) 2 Sample.halves !! r = Some p' →
      1 ≤ i ≤ 2 → j < 4 →
      cell (temperatures p') i j = cell (temperatures whole') (r * 2 + i) j ∧
      cell (temperatures_last p') i j =
        cell (temperatures_last whole') (r * 2 + i) j.
Proof.
  apply (ranks_agree_with_one_rank 2 4 50 1 (-2) 2 Sample.halves Sample.one_rank).
  - lia.
  - unfold INT_MAX. simpl. lia.
  - lia.
  - repeat constructor.
  - repeat constructor.
  - intros i j Hi Hj. reflexivity.
  - intros r p Hp.
    destruct r as [|[|r]]; [| |discriminate]; injection Hp as <-;
      (split; [|split]).
    + intros i j Hi Hj.
      destruct i as [|[|[|i]]]; [lia| | |lia];
        (destruct j as [|[|[|[|j]]]]; [| | | |lia]); split; reflexivity.
    + intros _ j Hj.
      destruct j as [|[|[|[|j]]]]; [| | | |lia]; reflexivity.
    + intros Hr. discriminate Hr.
    + intros i j Hi Hj.
      destruct i as [|[|[|i]]]; [lia| | |lia];
        (destruct j as [|[|[|[|j]]]]; [| | | |lia]); split; reflexivity.
    + intros Hr. discriminate Hr.
    + intros _ j Hj.
      destruct j as [|[|[|[|j]]]]; [| | | |lia]; reflexivity.
Defined.

(** Three passes on the sample: the lower ghost row of [temperatures] on
    rank [1] still holds what the stack held. *)
Lemma passes_write_owned_rows_only_witness :
  ∃ p', run 2 4 50 1 (-2) 3 (startup 2 4 Sample.two_ranks) !! 1 = Some p' ∧
        row (temperatures p') 3 = row Sample.stack 3 ∧
        all_temperatures p' = Sample.stack.
Proof.
  eexists. split; [reflexivity|].
  apply (passes_write_owned_rows_only 2 4 50 1 (-2) 3
           (startup 2 4 Sample.two_ranks) 1
           (initial_copy 2 4 (distributed 2 4 Sample.master 1 Sample.worker)) _ 3).
  - reflexivity.
  - reflexivity.
  - lia.
Defined.

(** Three passes on the sample, counted by rank [1]. *)
Lemma ranks_count_passes_witness :
  ∃ p', run 2 4 50 1 (-2) 3 (startup 2 4 Sample.two_ranks) !! 1 = Some p' ∧
        iteration_count p' = 3%Z.
Proof.
  eexists. split; [reflexivity|].
  apply (ranks_count_passes 2 4 50 1 (-2) 3 Sample.two_ranks 1).
  - unfold INT_MAX. lia.
  - reflexivity.
Defined.

(** A snapshot every second pass: after pass [3] of the sample the master
    holds the grid of pass [2]. *)
Lemma snapshot_holds_last_gathering_pass_witness :
  ∃ m' q,
    run 2 4 50 2 (-2) 4 (startup 2 4 Sample.two_ranks) !! 0 = Some m' ∧
    run 2 4 50 2 (-2) 3 (startup 2 4 Sample.two_ranks) !! 1 = Some q ∧
    row (snapshot m') (1 * 2 + 0) = row (temperatures q) (0 + 1).
Proof.
  eexists. eexists. split; [reflexivity|]. split; [reflexivity|].
  apply (snapshot_holds_last_gathering_pass 2 4 50 2 (-2) 3
           Sample.two_ranks Sample.master _ 1 _ 0).
  - lia.
  - unfold INT_MAX. lia.
  - reflexivity.
  - exact sample_shape.
  - reflexivity.
  - reflexivity.
  - reflexivity.
  - lia.
Defined.

(** The sample on two ranks and on one, after the start-up and two passes. *)
Lemma program_agrees_with_one_rank_witness :
  ∃ whole',
    run 4 4 50 1 (-2) 2 (startup 4 4 [Sample.alone]) = [whole'] ∧
    ∀ r p' i j,
      run 2 4 50 1 (-2) 2 (startup 2 4 Sample.two_ranks) !! r = Some p' →
      1 ≤ i ≤ 2 → j < 4 →
      cell (temperatures p') i j = cell (temperatures whole') (r * 2 + i) j.
Proof.
  apply (program_agrees_with_one_rank 2 4 50 1 (-2) 2 Sample.two_ranks
           Sample.master Sample.worker Sample.alone).
  - lia.
  - unfold INT_MAX. simpl. lia.
  - unfold INT_MAX. simpl. lia.
  - lia.
  - reflexivity.
  - reflexivity.
  - exact sample_shape.
  - repeat constructor.
  - repeat constructor.
  - reflexivity.
  - reflexivity.
  - reflexivity.
Defined.

(** The sample on two ranks at the launch, the barrier before the loop
    commented out as in [gpu.c]. *)
Lemma first_pass_runs_to_completion_witness :
  (∃ m', rtc (step (-2) (main_program 2 4 50 (-2) false 2))
             (launch Sample.two_ranks) m' ∧
         finished (main_program 2 4 50 (-2) false 2) m') ∧
  (finished (main_program 2 4 50 (-2) false 2) (launch Sample.two_ranks) ∨
   ∃ m', step (-2) (main_program 2 4 50 (-2) false 2)
              (launch Sample.two_ranks) m') ∧
  (finished (main_program 2 4 50 (-2) false 2) (launch Sample.two_ranks) →
   mem <$> launch Sample.two_ranks =
     relax 2 4 50 <$> exchange_ghost_cells 2 (-2) (startup 2 4 Sample.two_ranks)).
Proof.
  apply (first_pass_runs_to_completion 2 4 50 (-2) false Sample.two_ranks
           (launch Sample.two_ranks)).
  - lia.
  - unfold INT_MAX. simpl. lia.
  - apply rtc_refl.
Defined.

(** The assignments of one update of the sample, last to first. *)
Lemma update_in_any_order_witness :
  update_in_order 50 Sample.grid (reverse (update_tasks 2 4 Sample.grid)) =
  propagate 2 4 50 Sample.grid Sample.grid.
Proof.
  apply (update_in_any_order 2 4 50 Sample.grid Sample.grid).
  - lia.
  - apply reverse_Permutation.
Defined.

(** The kernels of the sample, in the five other orders. *)
Lemma kernels_in_any_order_witness :
  middle_kernel 2 4 50 (right_kernel 2 4 50 (left_kernel 2 50 Sample.grid Sample.grid)
                          Sample.grid) Sample.grid
    = propagate 2 4 50 Sample.grid Sample.grid ∧
  right_kernel 2 4 50 (left_kernel 2 50 (middle_kernel 2 4 50 Sample.grid Sample.grid)
                         Sample.grid) Sample.grid
    = propagate 2 4 50 Sample.grid Sample.grid ∧
  left_kernel 2 50 (right_kernel 2 4 50 (middle_kernel 2 4 50 Sample.grid Sample.grid)
                      Sample.grid) Sample.grid
    = propagate 2 4 50 Sample.grid Sample.grid ∧
  middle_kernel 2 4 50 (left_kernel 2 50 (right_kernel 2 4 50 Sample.grid Sample.grid)
                          Sample.grid) Sample.grid
    = propagate 2 4 50 Sample.grid Sample.grid ∧
  left_kernel 2 50 (middle_kernel 2 4 50 (right_kernel 2 4 50 Sample.grid Sample.grid)
                      Sample.grid) Sample.grid
    = propagate 2 4 50 Sample.grid Sample.grid.
Proof.
  apply (kernels_in_any_order 2 4 50 Sample.grid Sample.grid). lia.
Defined.
